(** * Grid path search: terrain catalog, grid queries, Dijkstra and A*

    A shallow embedding of [terrain.py], [node.py] and the classes [Graph]
    and [PathFinder] of [graph.py].

    Modelling decisions, all local to this header:

    - Python floats are modelled by exact numbers.  Every accumulated cost is
      a sum of terrain multipliers (one decimal digit) scaled by [1.0] or
      [sqrt 2], so it is a number [(a + b * sqrt 2) / 10] with integers [a]
      and [b], or [+inf]; a heuristic value is the square root of an integer
      and an A* key is the sum of the two.  Comparisons on these numbers are
      decided exactly (and are proved to agree with the order of the real
      numbers below); rounding of IEEE doubles is not modelled.
    - A [Node] object of the grid is referred to by its position in
      [Graph.nodes]; a reference is a pair of indices.  [start] and [end] are
      references into the grid that is searched.
    - [id(node)] is an arbitrary integer per grid node, given by a function
      [idf] that the search takes as an argument.
    - [heapq] is modelled by its contract: [heappop] removes and returns the
      smallest tuple.  Tuples in the frontier are pairwise distinct (a node
      is pushed at most once, see [frontier_nodup]), so the smallest tuple is
      unique.
    - The [while] loops run on fuel; the fuel given is shown to suffice. *)

From Stdlib Require Import ZArith Lia String Ascii Reals Lra.
From stdpp Require Import base option list gmap strings sets.

Local Open Scope Z_scope.

(** ** Numbers *)

(** A cell reference: the indices [(x, y)] of [self.nodes[x][y]]. *)
Definition cell : Type := (Z * Z)%type.

(** [cost]: [Fin a b] stands for [(a + b * sqrt 2) / 10], [Inf] for
    [float('inf')]. *)
Inductive cost : Type :=
| Fin (a b : Z)
| Inf.

(** The two values of [distance] in [Graph.get_terrain_cost]. *)
Inductive factor : Type :=
| One
| Sqrt2.

(** The value of [math.sqrt(r)] for an integer [r]. *)
Inductive root : Type :=
| Sqrt (r : Z).

(** The float [g + h] with [g] a cost and [h] a root. *)
Inductive fnum : Type :=
| Plus (g : cost) (h : root).

#[global] Instance cost_eq_dec : EqDecision cost.
Proof. solve_decision. Defined.
#[global] Instance factor_eq_dec : EqDecision factor.
Proof. solve_decision. Defined.
#[global] Instance root_eq_dec : EqDecision root.
Proof. solve_decision. Defined.
#[global] Instance fnum_eq_dec : EqDecision fnum.
Proof. solve_decision. Defined.

(** Sign of [p + q * sqrt 2]. *)
Definition sgn2 (p q : Z) : Z :=
  Z.sgn (p * Z.abs p + 2 * (q * Z.abs q)).

(** Sign of [p + q * sqrt 2 + sqrt m - sqrt n], for [0 <= m] and [0 <= n].
    When the two summands [p + q * sqrt 2] and [sqrt m - sqrt n] have
    opposite signs their squares are compared, which leaves one square root
    [sqrt (m * n)]; one more squaring removes it. *)
Definition sgn4 (p q m n : Z) : Z :=
  let sA := sgn2 p q in
  let sB := Z.sgn (m - n) in
  if sB =? 0 then sA
  else if sA =? 0 then sB
  else if sA =? sB then sA
  else
    let u := p * p + 2 * (q * q) - m - n in
    let v := 2 * (p * q) in
    let sC := sgn2 u v in
    let sD := if 0 <=? sC then (if (sC =? 0) && (m * n =? 0) then 0 else 1)
              else sgn2 (4 * (m * n) - u * u - 2 * (v * v)) (- (2 * (u * v))) in
    sA * sD.

Definition cost_add (x y : cost) : cost :=
  match x, y with
  | Fin a b, Fin c d => Fin (a + c) (b + d)
  | _, _ => Inf
  end.

Definition cost_mul (x : cost) (d : factor) : cost :=
  match x, d with
  | Fin a b, One => Fin a b
  | Fin a b, Sqrt2 => Fin (2 * b) a
  | Inf, _ => Inf
  end.

(** [x < y] on floats that are costs. *)
Definition cost_ltb (x y : cost) : bool :=
  match x, y with
  | Fin a b, Fin c d => sgn2 (a - c) (b - d) <? 0
  | Fin _ _, Inf => true
  | Inf, _ => false
  end.

Definition radicand (h : root) : Z := match h with Sqrt r => r end.

(** Sign of [x - y] for keys; [None] when an infinity is involved. *)
Definition fnum_sgn (x y : fnum) : option Z :=
  match x, y with
  | Plus (Fin a b) (Sqrt r), Plus (Fin c d) (Sqrt s) =>
      Some (sgn4 (a - c) (b - d) (100 * r) (100 * s))
  | _, _ => None
  end.

Definition fnum_is_inf (x : fnum) : bool :=
  match x with Plus Inf _ => true | _ => false end.

(** [x < y] on keys. *)
Definition fnum_ltb (x y : fnum) : bool :=
  match fnum_sgn x y with
  | Some s => s <? 0
  | None => negb (fnum_is_inf x) && fnum_is_inf y
  end.

(** [x == y] on keys. *)
Definition fnum_eqb (x y : fnum) : bool :=
  match fnum_sgn x y with
  | Some s => s =? 0
  | None => fnum_is_inf x && fnum_is_inf y
  end.

(** Real-number reading of the finite numbers. *)
Definition cost_R (a b : Z) : R := ((IZR a + IZR b * sqrt 2) / 10)%R.

Definition factor_R (d : factor) : R :=
  match d with One => 1%R | Sqrt2 => sqrt 2 end.

Definition root_R (h : root) : R := sqrt (IZR (radicand h)).

(** ** terrain.py *)

Module TerrainType.
Record t : Type := mk
  { name : string;
    cost : cost;
    color : string;
    walkable : bool }.
End TerrainType.

#[global] Instance TerrainType_eq_dec : EqDecision TerrainType.t.
Proof. solve_decision. Defined.

(** [str.lower] on the characters of a terrain name; only [A]..[Z] change. *)
Definition lower_ascii (c : ascii) : ascii :=
  let n := nat_of_ascii c in
  if ((65 <=? n) && (n <=? 90))%nat then ascii_of_nat (n + 32) else c.

Fixpoint lower (s : string) : string :=
  match s with
  | EmptyString => EmptyString
  | String c s' => String (lower_ascii c) (lower s')
  end.

Module Terrain.
Definition NORMAL := TerrainType.mk "normal" (Fin 10 0) "green" true.
Definition GRASS := TerrainType.mk "grass" (Fin 13 0) "lightgreen" true.
Definition SAND := TerrainType.mk "sand" (Fin 17 0) "sandybrown" true.
Definition WATER := TerrainType.mk "water" Inf "blue" false.
Definition MOUNTAIN := TerrainType.mk "mountain" (Fin 25 0) "gray" true.
Definition ROAD := TerrainType.mk "road" (Fin 7 0) "darkgray" true.

Definition _terrain_types : gmap string TerrainType.t :=
  <["normal" := NORMAL]> (<["grass" := GRASS]> (<["sand" := SAND]>
  (<["water" := WATER]> (<["mountain" := MOUNTAIN]> (<["road" := ROAD]> ∅))))).

(** [cls._terrain_types.get(name.lower(), cls.NORMAL)] *)
Definition get_terrain (name : string) : TerrainType.t :=
  default NORMAL (_terrain_types !! lower name).

(** [terrain.cost if terrain else cls.NORMAL.cost]: a [TerrainType]
    instance is always truthy, so the first branch is taken. *)
Definition get_terrain_cost (terrain_name : string) : cost :=
  TerrainType.cost (get_terrain terrain_name).

Definition is_walkable (terrain_name : string) : bool :=
  TerrainType.walkable (get_terrain terrain_name).

Definition get_terrain_color (terrain_name : string) : string :=
  TerrainType.color (get_terrain terrain_name).
End Terrain.

(** ** node.py *)

Module Node.
Record t : Type := mk
  { x : Z;
    y : Z;
    terrain_type : string;
    g_cost : cost;
    h_cost : root;
    parent : option cell;
    walkable : bool }.

(** [Node(x, y)]: terrain ['normal'], [g_cost = inf], [h_cost = 0],
    no parent, walkable. *)
Definition __init__ (x y : Z) : t :=
  mk x y "normal" Inf (Sqrt 0) None true.

(** The property [f_cost]. *)
Definition f_cost (n : t) : fnum := Plus (g_cost n) (h_cost n).

(** [__eq__]: equality of coordinates. *)
Definition __eq__ (n m : t) : bool := (x n =? x m) && (y n =? y m).

(** The key under which [__hash__] and [__eq__] file a node in a set. *)
Definition coords (n : t) : cell := (x n, y n).

Definition set_terrain_type (s : string) (n : t) : t :=
  mk (x n) (y n) s (g_cost n) (h_cost n) (parent n) (walkable n).
Definition set_walkable (w : bool) (n : t) : t :=
  mk (x n) (y n) (terrain_type n) (g_cost n) (h_cost n) (parent n) w.
Definition set_g_cost (g : cost) (n : t) : t :=
  mk (x n) (y n) (terrain_type n) g (h_cost n) (parent n) (walkable n).
Definition set_h_cost (h : root) (n : t) : t :=
  mk (x n) (y n) (terrain_type n) (g_cost n) h (parent n) (walkable n).
Definition set_parent (p : option cell) (n : t) : t :=
  mk (x n) (y n) (terrain_type n) (g_cost n) (h_cost n) p (walkable n).
End Node.

#[global] Instance Node_eq_dec : EqDecision Node.t.
Proof. solve_decision. Defined.

(** ** graph.py: class Graph *)

Module Graph.
Record t : Type := mk
  { width : Z;
    height : Z;
    nodes : list (list Node.t);
    terrain : list (list (option string)) }.
End Graph.

(** [range(n)] *)
Definition range (n : Z) : list Z := seqZ 0 n.

(** [Graph(width, height)] *)
Definition Graph__init__ (width height : Z) : Graph.t :=
  Graph.mk width height
    ((fun x => (fun y => Node.__init__ x y) <$> range height) <$> range width)
    ((fun _ => (fun _ => None) <$> range height) <$> range width).

(** [0 <= x < self.width and 0 <= y < self.height] *)
Definition in_bounds (g : Graph.t) (c : cell) : bool :=
  (0 <=? c.1) && (c.1 <? Graph.width g) && (0 <=? c.2) && (c.2 <? Graph.height g).

(** [self.nodes[x][y]].  The program indexes only after the bounds check,
    so negative indices (which Python counts from the end) do not occur;
    they find nothing here. *)
Definition nodes_at (g : Graph.t) (c : cell) : option Node.t :=
  if (0 <=? c.1) && (0 <=? c.2) then
    col ← Graph.nodes g !! Z.to_nat c.1; col !! Z.to_nat c.2
  else None.

Definition get_node (g : Graph.t) (x y : Z) : option Node.t :=
  if in_bounds g (x, y) then nodes_at g (x, y) else None.

(** Reading through a reference.  A reference held by the program always
    points into the grid; the default is never returned then. *)
Definition deref (g : Graph.t) (c : cell) : Node.t :=
  default (Node.__init__ c.1 c.2) (nodes_at g c).

(** In-place update of the object behind a reference. *)
Definition update (g : Graph.t) (c : cell) (f : Node.t → Node.t) : Graph.t :=
  if (0 <=? c.1) && (0 <=? c.2) then
    Graph.mk (Graph.width g) (Graph.height g)
      (alter (alter f (Z.to_nat c.2)) (Z.to_nat c.1) (Graph.nodes g))
      (Graph.terrain g)
  else g.

Definition set_terrain (g : Graph.t) (x y : Z) (terrain_type : string) : Graph.t :=
  if in_bounds g (x, y) then
    let g1 := update g (x, y) (Node.set_terrain_type terrain_type) in
    let g2 := update g1 (x, y) (Node.set_walkable (Terrain.is_walkable terrain_type)) in
    Graph.mk (Graph.width g2) (Graph.height g2) (Graph.nodes g2)
      (alter (alter (fun _ => Some terrain_type) (Z.to_nat y)) (Z.to_nat x)
         (Graph.terrain g2))
  else g.

Definition directions : list (Z * Z) :=
  [(0, 1); (1, 0); (0, -1); (-1, 0); (1, 1); (1, -1); (-1, -1); (-1, 1)].

(** The [for dx, dy in directions] loop of [get_neighbors]; the state is
    the pair of lists [(neighbors, water_neighbors)]. *)
Definition get_neighbors_step (g : Graph.t) (node : Node.t)
    (acc : list cell * list cell) (d : Z * Z) : list cell * list cell :=
  let '(neighbors, water_neighbors) := acc in
  let nx := Node.x node + d.1 in
  let ny := Node.y node + d.2 in
  if negb (in_bounds g (nx, ny)) then acc
  else
    let neighbor := deref g (nx, ny) in
    if negb (Node.walkable neighbor) then acc
    else if String.eqb (Node.terrain_type neighbor) "water"
         then (neighbors, water_neighbors ++ [(nx, ny)])
         else (neighbors ++ [(nx, ny)], water_neighbors).

Definition get_neighbors (g : Graph.t) (node : Node.t) (avoid_water : bool)
    : list cell :=
  let '(neighbors, water_neighbors) :=
    foldl (get_neighbors_step g node) ([], []) directions in
  if avoid_water && negb (bool_decide (neighbors = [])) then neighbors
  else neighbors ++ water_neighbors.

Definition get_terrain_cost (from_node to_node : Node.t) : cost :=
  let terrain_cost := Terrain.get_terrain_cost (Node.terrain_type to_node) in
  let dx := Z.abs (Node.x from_node - Node.x to_node) in
  let dy := Z.abs (Node.y from_node - Node.y to_node) in
  let distance := if (0 <? dx) && (0 <? dy) then Sqrt2 else One in
  cost_mul terrain_cost distance.

Definition reset_node (n : Node.t) : Node.t :=
  Node.set_parent None (Node.set_h_cost (Sqrt 0) (Node.set_g_cost Inf n)).

(** [reset_nodes]: the two nested [for] loops over [range]. *)
Definition reset_nodes (g : Graph.t) : Graph.t :=
  foldl (fun g x => foldl (fun g y => update g (x, y) reset_node) g
                      (range (Graph.height g)))
        g (range (Graph.width g)).

(** All references into the grid, column by column as [__init__] creates
    the nodes. *)
Definition all_cells (g : Graph.t) : list cell :=
  x ← range (Graph.width g); (fun y => (x, y)) <$> range (Graph.height g).

(** The grid is as [__init__] builds it: [width] columns of [height] nodes,
    the node at [(x, y)] carrying the coordinates [(x, y)]. *)
Definition well_formed (g : Graph.t) : Prop :=
  length (Graph.nodes g) = Z.to_nat (Graph.width g) ∧
  Forall (fun col => length col = Z.to_nat (Graph.height g)) (Graph.nodes g) ∧
  Forall (fun c => Node.coords <$> nodes_at g c = Some c) (all_cells g).

#[global] Instance well_formed_dec g : Decision (well_formed g).
Proof. unfold well_formed. apply _. Defined.

(** A grid as the program can build it: created, then terrain assigned. *)
Fixpoint build (width height : Z) (ops : list (Z * Z * string)) : Graph.t :=
  match ops with
  | [] => Graph__init__ width height
  | (x, y, s) :: ops' => set_terrain (build width height ops') x y s
  end.

(** ** graph.py: class PathFinder *)

(** [math.sqrt(dx*dx + dy*dy)] *)
Definition heuristic (node end_node : Node.t) : root :=
  let dx := Z.abs (Node.x node - Node.x end_node) in
  let dy := Z.abs (Node.y node - Node.y end_node) in
  Sqrt (dx * dx + dy * dy).

(** Fuel for the loops: one more than the number of nodes. *)
Definition fuel_of (g : Graph.t) : nat := S (length (all_cells g)).

(** The [while current is not None] loop of [reconstruct_path]. *)
Fixpoint reconstruct_loop (fuel : nat) (g : Graph.t) (path : list cell)
    (current : option cell) : option (list cell) :=
  match current with
  | None => Some path
  | Some c =>
      match fuel with
      | O => None
      | S fuel' =>
          reconstruct_loop fuel' g (path ++ [c]) (Node.parent (deref g c))
      end
  end.

(** [reconstruct_path(current_node)]; [None] when the fuel runs out. *)
Definition reconstruct_path (fuel : nat) (g : Graph.t) (current_node : cell)
    : option (list cell) :=
  reverse <$> reconstruct_loop fuel g [] (Some current_node).

(** A tuple [(key, id(node), node)] of the frontier. *)
Definition entry : Type := (fnum * Z * cell)%type.

(** [e1 < e2] on tuples: the first component at which the tuples differ
    decides.  Two tuples with the same [id] hold the same node, so they are
    equal there and [Node.__lt__] is never reached. *)
Definition entry_ltb (e1 e2 : entry) : bool :=
  let '(k1, i1, _) := e1 in
  let '(k2, i2, _) := e2 in
  if negb (fnum_eqb k1 k2) then fnum_ltb k1 k2
  else if negb (i1 =? i2) then i1 <? i2
  else false.

Definition heappush (h : list entry) (e : entry) : list entry := h ++ [e].

(** [heapq.heappop]: the smallest tuple and the remaining ones; [None] on
    an empty heap. *)
Fixpoint heappop (h : list entry) : option (entry * list entry) :=
  match h with
  | [] => None
  | e :: h' =>
      match heappop h' with
      | None => Some (e, [])
      | Some (m, r) => if entry_ltb m e then Some (m, e :: r) else Some (e, h')
      end
  end.

Inductive algorithm : Type :=
| Dijkstra
| AStar.

(** The local variables of a search together with the grid it mutates. *)
Record state : Type := State
  { graph : Graph.t;
    open_set : list entry;
    open_set_dict : gmap Z cell;
    closed_set : gset cell }.

Section PathFinder.
(** [dijkstra] and [a_star] are the same text except for the key of the
    frontier ([g_cost] or [f_cost]) and for [h_cost], which only [a_star]
    assigns; [alg] selects between the two. *)
Variable alg : algorithm.
Variable idf : cell → Z.
Variable end_ : cell.
Variable avoid_water : bool.

(** The key pushed for a node: [neighbor.g_cost] or [neighbor.f_cost]. *)
Definition key_of (n : Node.t) : fnum :=
  match alg with
  | Dijkstra => Plus (Node.g_cost n) (Sqrt 0)
  | AStar => Node.f_cost n
  end.

(** Body of [for neighbor in graph.get_neighbors(...)]. *)
Definition relax (current : cell) (st : state) (neighbor : cell) : state :=
  let g := graph st in
  if bool_decide (Node.coords (deref g neighbor) ∈ closed_set st) then st
  else
    let tentative_g_cost :=
      cost_add (Node.g_cost (deref g current))
               (get_terrain_cost (deref g current) (deref g neighbor)) in
    if cost_ltb tentative_g_cost (Node.g_cost (deref g neighbor)) then
      let g1 := update g neighbor (Node.set_parent (Some current)) in
      let g2 := update g1 neighbor (Node.set_g_cost tentative_g_cost) in
      let g3 :=
        match alg with
        | Dijkstra => g2
        | AStar =>
            update g2 neighbor
              (Node.set_h_cost (heuristic (deref g2 neighbor) (deref g2 end_)))
        end in
      let fresh :=
        match open_set_dict st !! idf neighbor with
        | None => true
        | Some m => negb (Node.__eq__ (deref g3 m) (deref g3 neighbor))
        end in
      if fresh then
        State g3
          (heappush (open_set st)
             (key_of (deref g3 neighbor), idf neighbor, neighbor))
          (<[idf neighbor := neighbor]> (open_set_dict st))
          (closed_set st)
      else State g3 (open_set st) (open_set_dict st) (closed_set st)
    else st.

(** What one turn of the [while open_set] loop does. *)
Inductive outcome : Type :=
| Exhausted (st : state)
| Found (current : cell) (st : state)
| Next (st : state).

Definition iteration (st : state) : outcome :=
  match heappop (open_set st) with
  | None => Exhausted st
  | Some ((_, _, current), rest) =>
      let g := graph st in
      let st0 := State g rest (open_set_dict st) (closed_set st) in
      if Node.__eq__ (deref g current) (deref g end_) then Found current st0
      else if bool_decide (Node.coords (deref g current) ∈ closed_set st)
      then Next st0
      else
        let st1 :=
          State g rest (open_set_dict st)
            ({[Node.coords (deref g current)]} ∪ closed_set st) in
        Next (foldl (relax current) st1
                (get_neighbors g (deref g current) avoid_water))
  end.

(** The [while] loop with its two [return]s: the path, the closed set,
    and the grid as the search leaves it. *)
Fixpoint loop (fuel : nat) (st : state)
    : option (list cell * gset cell * Graph.t) :=
  match fuel with
  | O => None
  | S fuel' =>
      match iteration st with
      | Exhausted st' => Some ([], closed_set st', graph st')
      | Found current st' =>
          path ← reconstruct_path (fuel_of (graph st')) (graph st') current;
          Some (path, closed_set st', graph st')
      | Next st' => loop fuel' st'
      end
  end.

(** The statements before the loop. *)
Definition initial (g : Graph.t) (start : cell) : state :=
  let g0 := reset_nodes g in
  let g1 := update g0 start (Node.set_g_cost (Fin 0 0)) in
  match alg with
  | Dijkstra =>
      State g1 [(Plus (Fin 0 0) (Sqrt 0), idf start, start)]
        {[idf start := start]} ∅
  | AStar =>
      let g2 := update g1 start
                  (Node.set_h_cost (heuristic (deref g1 start) (deref g1 end_))) in
      State g2 [(Node.f_cost (deref g2 start), idf start, start)]
        {[idf start := start]} ∅
  end.

Definition search (g : Graph.t) (start : cell)
    : option (list cell * gset cell * Graph.t) :=
  loop (fuel_of g) (initial g start).

(** The state after [k] turns of the loop, while it keeps going. *)
Fixpoint after (k : nat) (st : state) : option state :=
  match k with
  | O => Some st
  | S k' =>
      match iteration st with
      | Next st' => after k' st'
      | _ => None
      end
  end.
End PathFinder.

(** [PathFinder.dijkstra(graph, start, end, avoid_water)] *)
Definition dijkstra (idf : cell → Z) (g : Graph.t) (start end_ : cell)
    (avoid_water : bool) : option (list cell * gset cell * Graph.t) :=
  search Dijkstra idf end_ avoid_water g start.

(** [PathFinder.a_star(graph, start, end, avoid_water)] *)
Definition a_star (idf : cell → Z) (g : Graph.t) (start end_ : cell)
    (avoid_water : bool) : option (list cell * gset cell * Graph.t) :=
  search AStar idf end_ avoid_water g start.

(** ** Notions used to state the properties *)

(** Two characters that are the same letter in either case. *)
Definition is_upper (c : ascii) : bool :=
  ((65 <=? nat_of_ascii c) && (nat_of_ascii c <=? 90))%nat.

Definition same_letter (c d : ascii) : Prop :=
  c = d ∨
  (is_upper c = true ∧ nat_of_ascii d = (nat_of_ascii c + 32)%nat) ∨
  (is_upper d = true ∧ nat_of_ascii c = (nat_of_ascii d + 32)%nat).

(** Two names that differ at most in the case of their letters. *)
Inductive caseless : string → string → Prop :=
| caseless_nil : caseless EmptyString EmptyString
| caseless_cons c d s t :
    same_letter c d → caseless s t → caseless (String c s) (String d t).

(** The neighbour query as the specification words it: the eight
    surrounding positions in their order, the out-of-bounds and unwalkable
    ones dropped, then split by terrain. *)
Definition surrounding (node : Node.t) : list cell :=
  (fun d : Z * Z => (Node.x node + d.1, Node.y node + d.2)) <$> directions.

Definition candidate (g : Graph.t) (c : cell) : bool :=
  in_bounds g c && Node.walkable (deref g c).

Definition is_hazard (g : Graph.t) (c : cell) : bool :=
  String.eqb (Node.terrain_type (deref g c)) "water".

Definition safe_group (g : Graph.t) (node : Node.t) : list cell :=
  filter (fun c => is_hazard g c = false)
    (filter (fun c => candidate g c = true) (surrounding node)).

Definition hazard_group (g : Graph.t) (node : Node.t) : list cell :=
  filter (fun c => is_hazard g c = true)
    (filter (fun c => candidate g c = true) (surrounding node)).

Definition neighbors_spec (g : Graph.t) (node : Node.t) (avoid_hazard : bool)
    : list cell :=
  match avoid_hazard, safe_group g node with
  | true, _ :: _ => safe_group g node
  | _, _ => safe_group g node ++ hazard_group g node
  end.

(** The step factor as the specification words it: [sqrt 2] when both
    coordinate deltas are non-zero. *)
Definition step_factor (from_node to_node : Node.t) : factor :=
  if bool_decide (Node.x from_node ≠ Node.x to_node ∧
                  Node.y from_node ≠ Node.y to_node)
  then Sqrt2 else One.

(** Sum of the edge costs over the consecutive pairs of a path. *)
Fixpoint path_cost_from (g : Graph.t) (acc : cost) (a : cell) (p : list cell)
    : cost :=
  match p with
  | [] => acc
  | b :: p' =>
      path_cost_from g
        (cost_add acc (get_terrain_cost (deref g a) (deref g b))) b p'
  end.

Definition path_cost (g : Graph.t) (p : list cell) : cost :=
  match p with
  | [] => Fin 0 0
  | a :: p' => path_cost_from g (Fin 0 0) a p'
  end.

(** A path of the grid: every step goes to a neighbour. *)
Fixpoint is_path_from (g : Graph.t) (avoid_water : bool) (a : cell)
    (p : list cell) : bool :=
  match p with
  | [] => true
  | b :: p' =>
      bool_decide (b ∈ get_neighbors g (deref g a) avoid_water)
      && is_path_from g avoid_water b p'
  end.

Definition is_path (g : Graph.t) (avoid_water : bool) (start end_ : cell)
    (p : list cell) : bool :=
  match p with
  | [] => false
  | a :: p' =>
      bool_decide (a = start) && bool_decide (last p = Some end_)
      && is_path_from g avoid_water a p'
  end.

(** The node reached from [c] by following [parent] [k] times. *)
Fixpoint ancestor (g : Graph.t) (k : nat) (c : cell) : option cell :=
  match k with
  | O => Some c
  | S k' => p ← Node.parent (deref g c); ancestor g k' p
  end.

(** The grid without the fields a search writes. *)
Definition erase (g : Graph.t) : Graph.t :=
  Graph.mk (Graph.width g) (Graph.height g)
    ((fun col : list Node.t => reset_node <$> col) <$> Graph.nodes g)
    (Graph.terrain g).

(** The identities [idf] are pairwise distinct on the nodes of the grid. *)
Definition distinct_ids (idf : cell → Z) (g : Graph.t) : Prop :=
  NoDup (idf <$> all_cells g).

#[global] Instance distinct_ids_dec idf g : Decision (distinct_ids idf g).
Proof. unfold distinct_ids. apply _. Defined.

(** Two assignments of identities that order the nodes of the grid the
    same way. *)
Definition same_order (idf idf' : cell → Z) (g : Graph.t) : Prop :=
  Forall (fun c => Forall (fun d => (idf c <? idf d) = (idf' c <? idf' d))
                     (all_cells g)) (all_cells g).

#[global] Instance same_order_dec idf idf' g : Decision (same_order idf idf' g).
Proof. unfold same_order. apply _. Defined.

(** Identities that keep the order of [id_up] without being equal to it. *)
Definition id_up' (c : cell) : Z := 1000 * c.1 + 7 * c.2 + 5.

(** The nodes a key of the frontier refers to. *)
Definition frontier_entries (st : state) (c : cell) : list entry :=
  filter (fun e : entry => e.2 = c) (open_set st).

(** Real-number reading of a cost; [None] reads [+inf]. *)
Definition cost_real (c : cost) : option R :=
  match c with
  | Fin a b => Some (cost_R a b)
  | Inf => None
  end.


(** ** Invariant of the search loop *)

(** What holds of the state of a search over the grid [g0] from [start]
    each time the loop condition is tested: the grid differs from [g0] in
    the search fields only; a tuple of the frontier carries the identity of
    its node, which is registered in [open_set_dict], lies in the grid and
    is walkable unless it is [start]; closed nodes are never [end_]; a
    parent is closed and has a strictly smaller [g_cost]; a node is in the
    frontier at most once. *)
Record Inv (idf : cell → Z) (end_ : cell) (g0 : Graph.t) (start : cell)
    (st : state) : Prop := mk_Inv
  { inv_wf : well_formed (graph st);
    inv_erase : erase (graph st) = erase g0;
    inv_open : ∀ k i c, (k, i, c) ∈ open_set st →
      in_bounds g0 c = true ∧ i = idf c ∧ open_set_dict st !! i = Some c ∧
      (c = start ∨ Node.walkable (deref g0 c) = true);
    inv_dict : ∀ i c, open_set_dict st !! i = Some c →
      in_bounds g0 c = true ∧ i = idf c;
    inv_closed : ∀ c, c ∈ closed_set st →
      in_bounds g0 c = true ∧ c ≠ end_ ∧
      (c = start ∨ Node.walkable (deref g0 c) = true);
    inv_parent : ∀ n p, Node.parent (deref (graph st) n) = Some p →
      p ∈ closed_set st ∧
      cost_ltb (Node.g_cost (deref (graph st) p))
               (Node.g_cost (deref (graph st) n)) = true;
    inv_nodup : NoDup ((fun e : entry => e.2) <$> open_set st) }.

(** Nodes registered in [open_set_dict] minus tuples in the frontier: it
    grows by one with every tuple popped and is bounded by the number of
    nodes. *)
Definition slack (st : state) : Z :=
  Z.of_nat (size (open_set_dict st)) - Z.of_nat (length (open_set st)).

(** The function [relax] applies to the node it improves: the three
    assignments to [neighbor] in one. *)
Definition improve (alg : algorithm) (end_ : cell) (g : Graph.t)
    (current n : cell) (t : cost) : Node.t → Node.t :=
  match alg with
  | Dijkstra => Node.set_g_cost t ∘ Node.set_parent (Some current)
  | AStar =>
      Node.set_h_cost
        (heuristic
           (deref (update (update g n (Node.set_parent (Some current))) n
                     (Node.set_g_cost t)) n)
           (deref (update (update g n (Node.set_parent (Some current))) n
                     (Node.set_g_cost t)) end_))
      ∘ (Node.set_g_cost t ∘ Node.set_parent (Some current))
  end.


(** The nodes of the grid whose [g_cost] is strictly below that of [c]. *)
Definition below (g : Graph.t) (c : cell) : list cell :=
  filter (fun d => cost_ltb (Node.g_cost (deref g d))
                            (Node.g_cost (deref g c)) = true) (all_cells g).

(** ** Statements that are examined on concrete grids *)

(** Identities in the order in which [__init__] creates the nodes, and in
    the opposite order. *)
Definition id_up (c : cell) : Z := 100 * c.1 + c.2.
Definition id_down (c : cell) : Z := - (100 * c.1 + c.2).

(** The closed set holds walkable nodes only, and [end_] is in it exactly
    when a path is returned. *)
Definition closed_set_claim (alg : algorithm) (idf : cell → Z) (g : Graph.t)
    (start end_ : cell) (avoid_water : bool) : Prop :=
  ∀ path closed g',
    search alg idf end_ avoid_water g start = Some (path, closed, g') →
    (∀ c, c ∈ closed → Node.walkable (deref g c) = true) ∧
    (end_ ∈ closed ↔ path ≠ []).

(** A grid of two nodes, the first one water. *)
Definition grid_2x1 : Graph.t := build 2 1 [(0, 0, "water")].

(** A grid of three by three nodes with water in the middle. *)
Definition grid_3x3 : Graph.t := build 3 3 [(1, 1, "water")].

(** Two tuples of the frontier of two runs that differ only in the
    identities: the same key and node, each with its own identity. *)
Definition entry_rel (idf idf' : cell → Z) (g0 : Graph.t) (e e' : entry) : Prop :=
  ∃ k c, e = (k, idf c, c) ∧ e' = (k, idf' c, c) ∧ in_bounds g0 c = true.

(** Two states of two runs that differ only in the identities. *)
Definition state_rel (idf idf' : cell → Z) (g0 : Graph.t) (st st' : state)
    : Prop :=
  graph st = graph st' ∧ closed_set st = closed_set st' ∧
  Forall2 (entry_rel idf idf' g0) (open_set st) (open_set st') ∧
  ∀ c, in_bounds g0 c = true →
       (open_set_dict st !! idf c = None ↔ open_set_dict st' !! idf' c = None).

(** The path and the closed set returned do not depend on the identities
    of the nodes. *)
Definition identity_free_claim (alg : algorithm) (g : Graph.t)
    (start end_ : cell) (avoid_water : bool) : Prop :=
  ∀ idf idf', distinct_ids idf g → distinct_ids idf' g →
    fst <$> search alg idf end_ avoid_water g start =
    fst <$> search alg idf' end_ avoid_water g start.

(** A grid of two by four nodes:
<<
      y=0    y=1       y=2     y=3
x=0   water  mountain  road    water
x=1   road   mountain  normal  normal
>> *)
Definition grid_2x4 : Graph.t :=
  build 2 4
    [(1, 0, "road"); (0, 1, "mountain"); (1, 1, "mountain"); (0, 2, "road");
     (1, 2, "normal"); (0, 0, "water"); (0, 3, "water")].

(** The path a uniform-cost search returns costs what [g_cost] of the end
    node says and no path of the grid from [start] to [end_] is cheaper. *)
Definition optimality_claim (idf : cell → Z) (g : Graph.t) (start end_ : cell)
    (avoid_water : bool) : Prop :=
  ∀ path closed g',
    dijkstra idf g start end_ avoid_water = Some (path, closed, g') →
    path ≠ [] →
    path_cost g' path = Node.g_cost (deref g' end_) ∧
    ∀ p, is_path g avoid_water start end_ p = true →
         cost_ltb (path_cost g p) (path_cost g' path) = false.

(** The integer [z] has the sign of the real number [x]. *)
Definition sign_of (z : Z) (x : R) : Prop :=
  (z < 0 ↔ (x < 0)%R) ∧ (z = 0 ↔ x = 0%R) ∧ (0 < z ↔ (0 < x)%R).




(** ** Further code of the program *)

(** [Terrain.get_available_terrains()]: a copy of the table. *)
Definition get_available_terrains : gmap string TerrainType.t :=
  Terrain._terrain_types.

(** [Graph.has_alternative_path_without_water(current, target)]: the
    [for] loop over the four orthogonal directions returns [True] at the
    first position that passes the tests. *)
Definition has_alternative_path_without_water (g : Graph.t)
    (current target : Node.t) : bool :=
  if String.eqb (Node.terrain_type target) "water" then false
  else
    existsb
      (fun d : Z * Z =>
         let nx := Node.x current + d.1 in
         let ny := Node.y current + d.2 in
         in_bounds g (nx, ny) &&
         (let neighbor := deref g (nx, ny) in
          Node.walkable neighbor &&
          negb (String.eqb (Node.terrain_type neighbor) "water") &&
          negb (Node.__eq__ neighbor target)))
      [(0, 1); (1, 0); (0, -1); (-1, 0)].

(** What [compare_algorithms(graph, start_node, end_node)] of
    [visualization.py] computes before it draws: both searches, each after a
    reset, with the default [avoid_water=True]; it returns the two paths and
    the two closed sets. *)
Definition compare_algorithms (idf : cell → Z) (g : Graph.t)
    (start_node end_node : cell)
    : option (list cell * list cell * gset cell * gset cell * Graph.t) :=
  let g1 := reset_nodes g in
  r1 ← dijkstra idf g1 start_node end_node true;
  let '(path_dijkstra, visited_dijkstra, g2) := r1 in
  let g3 := reset_nodes g2 in
  r2 ← a_star idf g3 start_node end_node true;
  let '(path_astar, visited_astar, g4) := r2 in
  Some (path_dijkstra, path_astar, visited_dijkstra, visited_astar, g4).

(** The walkability flag of every node is the one the catalog gives for its
    terrain: what [__init__] and [set_terrain] establish. *)
Definition consistent (g : Graph.t) : Prop :=
  Forall (Forall (fun n => Node.walkable n =
                           Terrain.is_walkable (Node.terrain_type n)))
    (Graph.nodes g).

#[global] Instance consistent_dec g : Decision (consistent g).
Proof. unfold consistent. apply _. Defined.

(** Two positions next to each other, diagonals included. *)
Definition adjacent (c d : cell) : Prop :=
  Z.max (Z.abs (c.1 - d.1)) (Z.abs (c.2 - d.2)) = 1.

(** The nodes that moves along [get_neighbors] reach from [start]. *)
Inductive reachable (g : Graph.t) (avoid_water : bool) (start : cell)
    : cell → Prop :=
| reachable_start : reachable g avoid_water start start
| reachable_step c d :
    reachable g avoid_water start c →
    d ∈ get_neighbors g (deref g c) avoid_water →
    reachable g avoid_water start d.

(** [self.terrain[x][y]], read like [nodes_at]. *)
Definition terrain_at (g : Graph.t) (c : cell) : option (option string) :=
  if (0 <=? c.1) && (0 <=? c.2) then
    col ← Graph.terrain g !! Z.to_nat c.1; col !! Z.to_nat c.2
  else None.

(** A cost whose two parts are not negative. *)
Definition nonneg (c : cost) : Prop :=
  match c with
  | Fin a b => 0 ≤ a ∧ 0 ≤ b
  | Inf => True
  end.

(** The nodes [reconstruct_path] walks through: a node, its parent, and so
    on up to a node without parent. *)
Inductive chain (g : Graph.t) : cell → list cell → Prop :=
| chain_root c : Node.parent (deref g c) = None → chain g c [c]
| chain_step c p l :
    Node.parent (deref g c) = Some p → chain g p l → chain g c (c :: l).

(** What the search fields record while a search over [g0] from [start]
    runs: [start] has cost zero and no parent; a node with a parent is a
    neighbour of that parent and costs what the parent costs plus the step;
    a node without parent other than [start] was never reached; the nodes
    of the frontier and the closed nodes were reached by moves from
    [start]; a node that was reached is closed or waits in the frontier. *)
Record Tr (avoid_water : bool) (g0 : Graph.t) (start : cell) (st : state)
    : Prop := mk_Tr
  { tr_start : Node.g_cost (deref (graph st) start) = Fin 0 0 ∧
               Node.parent (deref (graph st) start) = None;
    tr_nonneg : ∀ c, nonneg (Node.g_cost (deref (graph st) c));
    tr_parent : ∀ n p, Node.parent (deref (graph st) n) = Some p →
      n ∈ get_neighbors g0 (deref g0 p) avoid_water ∧
      Node.g_cost (deref (graph st) n) =
        cost_add (Node.g_cost (deref (graph st) p))
                 (get_terrain_cost (deref g0 p) (deref g0 n));
    tr_root : ∀ n, Node.parent (deref (graph st) n) = None →
      n = start ∨ Node.g_cost (deref (graph st) n) = Inf;
    tr_open : ∀ k i c, (k, i, c) ∈ open_set st →
      Node.g_cost (deref (graph st) c) ≠ Inf ∧
      reachable g0 avoid_water start c;
    tr_closed : ∀ c, c ∈ closed_set st →
      Node.g_cost (deref (graph st) c) ≠ Inf ∧
      reachable g0 avoid_water start c;
    tr_dict : ∀ i c, open_set_dict st !! i = Some c →
      c ∈ closed_set st ∨ c ∈ (fun e : entry => e.2) <$> open_set st;
    tr_fin : ∀ c, in_bounds g0 c = true →
      Node.g_cost (deref (graph st) c) ≠ Inf →
      c ∈ closed_set st ∨ c ∈ (fun e : entry => e.2) <$> open_set st }.

(** Every neighbour of a closed node has been given a finite cost. *)
Definition expanded (avoid_water : bool) (g0 : Graph.t) (st : state) : Prop :=
  ∀ c d, c ∈ closed_set st →
         d ∈ get_neighbors g0 (deref g0 c) avoid_water →
         Node.g_cost (deref (graph st) d) ≠ Inf.

(** [h_cost] as a search leaves it: zero after [dijkstra], which never
    assigns it; after [a_star] the estimate to [end_] on the nodes that
    were given a cost and zero on the others. *)
Definition h_cost_spec (alg : algorithm) (end_ : cell) (g : Graph.t) : Prop :=
  ∀ c, Node.h_cost (deref g c) =
       match alg with
       | Dijkstra => Sqrt 0
       | AStar =>
           if decide (Node.g_cost (deref g c) = Inf) then Sqrt 0
           else heuristic (deref g c) (deref g end_)
       end.

(** Two positions next to each other in a row or in a column. *)
Definition orthogonal (c d : cell) : Prop :=
  Z.abs (c.1 - d.1) + Z.abs (c.2 - d.2) = 1.

(** The search fields of [st'] against those of [st]: closed nodes are as
    they were, the cost of any node is what it was or lower. *)
Definition settled (st st' : state) : Prop :=
  closed_set st ⊆ closed_set st' ∧
  (∀ c, c ∈ closed_set st → deref (graph st') c = deref (graph st) c) ∧
  (∀ c, Node.g_cost (deref (graph st') c) = Node.g_cost (deref (graph st) c) ∨
        cost_ltb (Node.g_cost (deref (graph st') c))
                 (Node.g_cost (deref (graph st) c)) = true).

(** ** visualization.py: the terrain matrix *)

(** [Terrain.get_available_terrains().values()]: the entries of the table
    in the order of the dict literal. *)
Definition terrains : list TerrainType.t :=
  [Terrain.NORMAL; Terrain.GRASS; Terrain.SAND; Terrain.WATER;
   Terrain.MOUNTAIN; Terrain.ROAD].

(** [terrain_to_value] of [create_colormap]:
    [{terrain.name: i for i, terrain in enumerate(terrains)}]. *)
Definition terrain_to_value : gmap string Z :=
  foldl (fun m p => <[TerrainType.name p.2 := Z.of_nat p.1]> m) ∅
    (imap (fun i t => (i, t)) terrains).

(** The entry of [terrain_map] at a position, as [plot_map] and
    [compare_algorithms] fill it:
    [terrain_to_value.get(graph.terrain[x][y] or 'normal', 0)]; the empty
    string counts as false for [or].  [None] where [graph.terrain] has no
    such entry. *)
Definition terrain_map_value (g : Graph.t) (c : cell) : option Z :=
  t ← terrain_at g c;
  let terrain_type :=
    match t with
    | Some s => if decide (s = "") then "normal" else s
    | None => "normal"
    end in
  Some (default 0 (terrain_to_value !! terrain_type)).
(** * Properties *)

(** ** Numbers: agreement with the real numbers *)

Section Numbers.
Local Open Scope R_scope.

Lemma sqrt2_sq : sqrt 2 * sqrt 2 = 2.
Proof. apply sqrt_def. lra. Qed.

Lemma sqrt2_pos : 0 < sqrt 2.
Proof. apply sqrt_lt_R0. lra. Qed.

Lemma square_lt (a b : R) : 0 <= a → 0 <= b → (a < b ↔ a * a < b * b).
Proof. intros Ha Hb. split; intros H; nra. Qed.

Lemma sgn2_neg p q :
  (sgn2 p q < 0)%Z ↔ IZR p + IZR q * sqrt 2 < 0.
Proof.
  unfold sgn2.
  pose proof sqrt2_sq as Hs. pose proof sqrt2_pos as Hp.
  assert (Hsg : ∀ z, (Z.sgn z < 0 ↔ z < 0)%Z) by (intros; lia).
  rewrite Hsg. clear Hsg.
  destruct (Z_lt_le_dec p 0) as [Hp0|Hp0]; destruct (Z_lt_le_dec q 0) as [Hq0|Hq0].
  - rewrite (Z.abs_neq p), (Z.abs_neq q) by lia.
    pose proof (IZR_lt _ _ Hp0). pose proof (IZR_lt _ _ Hq0).
    split; intros _; [nra|nia].
  - rewrite (Z.abs_neq p), (Z.abs_eq q) by lia.
    pose proof (IZR_lt _ _ Hp0). pose proof (IZR_le _ _ Hq0).
    assert (Hsq : IZR q * sqrt 2 < - IZR p ↔
                  (IZR q * sqrt 2) * (IZR q * sqrt 2) < (- IZR p) * (- IZR p))
      by (apply square_lt; nra).
    split; intros Hlt.
    + apply IZR_lt in Hlt. rewrite plus_IZR, !mult_IZR, opp_IZR in Hlt.
      cut (IZR q * sqrt 2 < - IZR p); [lra|]. apply Hsq. nra.
    + apply lt_IZR. rewrite plus_IZR, !mult_IZR, opp_IZR.
      assert (IZR q * sqrt 2 < - IZR p) as Hlt' by lra. apply Hsq in Hlt'. nra.
  - rewrite (Z.abs_eq p), (Z.abs_neq q) by lia.
    pose proof (IZR_le _ _ Hp0). pose proof (IZR_lt _ _ Hq0).
    assert (Hsq : IZR p < - IZR q * sqrt 2 ↔
                  IZR p * IZR p < (- IZR q * sqrt 2) * (- IZR q * sqrt 2))
      by (apply square_lt; nra).
    split; intros Hlt.
    + apply IZR_lt in Hlt. rewrite plus_IZR, !mult_IZR, opp_IZR in Hlt.
      cut (IZR p < - IZR q * sqrt 2); [lra|]. apply Hsq. nra.
    + apply lt_IZR. rewrite plus_IZR, !mult_IZR, opp_IZR.
      assert (IZR p < - IZR q * sqrt 2) as Hlt' by lra. apply Hsq in Hlt'. nra.
  - rewrite (Z.abs_eq p), (Z.abs_eq q) by lia.
    pose proof (IZR_le _ _ Hp0). pose proof (IZR_le _ _ Hq0).
    split; intros Hlt; [nia|nra].
Qed.

(** [cost_ltb] is the order of the real numbers. *)
Lemma cost_ltb_R a b c d :
  cost_ltb (Fin a b) (Fin c d) = true ↔ cost_R a b < cost_R c d.
Proof.
  unfold cost_ltb, cost_R. rewrite Z.ltb_lt, sgn2_neg, !minus_IZR. split; lra.
Qed.

Lemma cost_add_R a b c d :
  cost_R (a + c) (b + d) = cost_R a b + cost_R c d.
Proof. unfold cost_R. rewrite !plus_IZR. nra. Qed.

Lemma cost_mul_R a b d :
  cost_real (cost_mul (Fin a b) d) = Some (cost_R a b * factor_R d).
Proof.
  pose proof sqrt2_sq as Hs.
  destruct d; simpl; unfold cost_R; f_equal; [nra|].
  rewrite mult_IZR.
  transitivity ((IZR a * sqrt 2 + IZR b * (sqrt 2 * sqrt 2)) / 10);
    [rewrite Hs; field | field].
Qed.
End Numbers.

Lemma cost_ltb_irrefl x : cost_ltb x x = false.
Proof.
  destruct x as [a b|]; [|done].
  apply not_true_is_false. rewrite cost_ltb_R. apply Rlt_irrefl.
Qed.

Lemma cost_ltb_trans x y z :
  cost_ltb x y = true → cost_ltb y z = true → cost_ltb x z = true.
Proof.
  destruct x as [a b|], y as [c d|], z as [e f|]; try done.
  rewrite !cost_ltb_R. apply Rlt_trans.
Qed.

(** Adding a terrain cost, straight or diagonal, strictly increases. *)
Lemma cost_ltb_add a b t d :
  0 < t → cost_ltb (Fin a b) (cost_add (Fin a b) (cost_mul (Fin t 0) d)) = true.
Proof.
  intros Ht. destruct d; simpl; unfold sgn2; apply Z.ltb_lt.
  - replace (a - (a + t)) with (- t) by lia. replace (b - (b + 0)) with 0 by lia. lia.
  - replace (a - (a + 2 * 0)) with 0 by lia. replace (b - (b + t)) with (- t) by lia. lia.
Qed.

(** ** The terrain catalog *)

Lemma catalog_cases name :
  Terrain.get_terrain name ∈
    [Terrain.NORMAL; Terrain.GRASS; Terrain.SAND; Terrain.WATER;
     Terrain.MOUNTAIN; Terrain.ROAD].
Proof.
  unfold Terrain.get_terrain, Terrain._terrain_types.
  generalize (lower name). intros s.
  repeat (rewrite lookup_insert; case_decide; [simpl; set_solver|]).
  rewrite lookup_empty. simpl. set_solver.
Qed.

(** Every multiplier is positive and rational, or infinite with the
    terrain unwalkable. *)
Lemma catalog_cost name :
  (∃ t, 0 < t ∧ Terrain.get_terrain_cost name = Fin t 0) ∨
  (Terrain.get_terrain_cost name = Inf ∧ Terrain.is_walkable name = false).
Proof.
  unfold Terrain.get_terrain_cost, Terrain.is_walkable.
  pose proof (catalog_cases name) as H.
  repeat (apply elem_of_cons in H as [->|H]; [simpl; first [right; done | left; eexists; split; [|reflexivity]; lia]|]).
  set_solver.
Qed.

(** ** Neighbours and edge costs *)

Lemma get_neighbors_loop g node ds acc :
  foldl (get_neighbors_step g node) acc ds =
  (acc.1 ++ filter (fun c => is_hazard g c = false)
              (filter (fun c => candidate g c = true)
                 ((fun d : Z * Z => (Node.x node + d.1, Node.y node + d.2)) <$> ds)),
   acc.2 ++ filter (fun c => is_hazard g c = true)
              (filter (fun c => candidate g c = true)
                 ((fun d : Z * Z => (Node.x node + d.1, Node.y node + d.2)) <$> ds))).
Proof.
  revert acc. induction ds as [|d ds IH]; intros [ns ws]; simpl.
  - by rewrite !app_nil_r.
  - rewrite IH. clear IH.
    set (c := (Node.x node + d.1, Node.y node + d.2)).
    rewrite !(filter_cons (fun c => candidate g c = true)).
    destruct (decide (candidate g c = true)) as [Hc|Hc]; unfold candidate in Hc.
    + apply andb_true_iff in Hc as [Hb Hw]. rewrite Hb, Hw. simpl.
      fold (is_hazard g c). rewrite !filter_cons.
      destruct (is_hazard g c) eqn:Ht; simpl.
      * by rewrite <- app_assoc.
      * by rewrite <- app_assoc.
    + destruct (in_bounds g c); simpl; [|done].
      destruct (Node.walkable (deref g c)); simpl; [|done].
      by destruct Hc.
Qed.

Lemma get_neighbors_filter g node avoid_water :
  get_neighbors g node avoid_water = neighbors_spec g node avoid_water.
Proof.
  unfold get_neighbors, neighbors_spec. rewrite get_neighbors_loop.
  cbn [fst snd app]. fold (surrounding node).
  unfold safe_group, hazard_group.
  set (safe := filter (fun c => is_hazard g c = false) _).
  destruct avoid_water; [|done].
  by destruct safe.
Qed.

(** C5: the neighbours query looks at the eight surrounding positions in a
    fixed order, drops the positions out of bounds and the unwalkable nodes,
    splits the rest into the nodes whose terrain is not ['water'] and those
    whose terrain is ['water'], and returns the first group alone when
    [avoid_water] is set and that group is not empty, and the first group
    followed by the second otherwise. *)
Theorem get_neighbors_spec (g : Graph.t) (node : Node.t) (avoid_water : bool) :
  surrounding node =
    [(Node.x node, Node.y node + 1); (Node.x node + 1, Node.y node);
     (Node.x node, Node.y node - 1); (Node.x node - 1, Node.y node);
     (Node.x node + 1, Node.y node + 1); (Node.x node + 1, Node.y node - 1);
     (Node.x node - 1, Node.y node - 1); (Node.x node - 1, Node.y node + 1)]
  ∧ get_neighbors g node avoid_water = neighbors_spec g node avoid_water.
Proof.
  split.
  - unfold surrounding, directions. simpl.
    repeat (f_equal; try (f_equal; lia)).
  - apply get_neighbors_filter.
Qed.

(** C6: the cost of an edge is the multiplier of the destination's terrain
    times the step factor, which is [sqrt 2] when both coordinates change and
    [1] otherwise; nothing else of the two nodes enters.  The second equation
    reads the first one in the real numbers ([None] is [+inf]). *)
Theorem get_terrain_cost_spec (from_node to_node : Node.t) :
  get_terrain_cost from_node to_node =
    cost_mul (Terrain.get_terrain_cost (Node.terrain_type to_node))
             (step_factor from_node to_node)
  ∧ cost_real (get_terrain_cost from_node to_node) =
      (fun m => (m * factor_R (step_factor from_node to_node))%R) <$>
        cost_real (Terrain.get_terrain_cost (Node.terrain_type to_node))
  ∧ factor_R (step_factor from_node to_node) =
      (if bool_decide (Node.x from_node ≠ Node.x to_node ∧
                       Node.y from_node ≠ Node.y to_node)
       then sqrt 2 else 1%R).
Proof.
  assert (Heq : get_terrain_cost from_node to_node =
    cost_mul (Terrain.get_terrain_cost (Node.terrain_type to_node))
             (step_factor from_node to_node)).
  { unfold get_terrain_cost, step_factor. f_equal.
    destruct (bool_decide _) eqn:Hd.
    - apply bool_decide_eq_true in Hd as [Hx Hy].
      assert (H1 : (0 <? Z.abs (Node.x from_node - Node.x to_node)) = true)
        by (apply Z.ltb_lt; lia).
      assert (H2 : (0 <? Z.abs (Node.y from_node - Node.y to_node)) = true)
        by (apply Z.ltb_lt; lia).
      by rewrite H1, H2.
    - apply bool_decide_eq_false in Hd.
      destruct (0 <? Z.abs (Node.x from_node - Node.x to_node)) eqn:H1;
        destruct (0 <? Z.abs (Node.y from_node - Node.y to_node)) eqn:H2;
        simpl; try done.
      apply Z.ltb_lt in H1, H2. exfalso. apply Hd. lia. }
  split; [exact Heq|]. split.
  - rewrite Heq.
    destruct (Terrain.get_terrain_cost (Node.terrain_type to_node)) as [a b|].
    + apply cost_mul_R.
    + done.
  - unfold step_factor. by destruct (bool_decide _).
Qed.

(** ** The grid as a store of nodes *)

Lemma update_width g c f : Graph.width (update g c f) = Graph.width g.
Proof. unfold update. by destruct (_ && _). Qed.

Lemma update_height g c f : Graph.height (update g c f) = Graph.height g.
Proof. unfold update. by destruct (_ && _). Qed.

Lemma update_terrain g c f : Graph.terrain (update g c f) = Graph.terrain g.
Proof. unfold update. by destruct (_ && _). Qed.


Lemma all_cells_update g c f : all_cells (update g c f) = all_cells g.
Proof. unfold all_cells. by rewrite update_width, update_height. Qed.

Lemma nodes_at_update g c f c' :
  nodes_at (update g c f) c' =
  if decide (c = c') then f <$> nodes_at g c else nodes_at g c'.
Proof.
  destruct c as [x y], c' as [x' y']. unfold update, nodes_at. simpl.
  destruct ((0 <=? x) && (0 <=? y)) eqn:Hc.
  - apply andb_true_iff in Hc as [Hx Hy]. apply Z.leb_le in Hx, Hy. simpl.
    destruct ((0 <=? x') && (0 <=? y')) eqn:Hc'.
    + apply andb_true_iff in Hc' as [Hx' Hy']. apply Z.leb_le in Hx', Hy'.
      destruct (decide (x = x')) as [->|Hne].
      * rewrite list_lookup_alter_eq.
        destruct (Graph.nodes g !! Z.to_nat x') as [col|]; simpl.
        -- destruct (decide (y = y')) as [->|Hne].
           ++ rewrite decide_True by done. apply list_lookup_alter_eq.
           ++ rewrite decide_False by congruence.
              apply list_lookup_alter_ne. lia.
        -- by case_decide.
      * rewrite decide_False by congruence.
        rewrite list_lookup_alter_ne by lia. done.
    + rewrite decide_False; [done|]. intros [= -> ->].
      apply andb_false_iff in Hc' as [H|H]; apply Z.leb_gt in H; lia.
  - case_decide as Heq; [|done]. injection Heq as <- <-. by rewrite Hc.
Qed.

Lemma deref_update_ne g c f c' : c ≠ c' → deref (update g c f) c' = deref g c'.
Proof. intros Hne. unfold deref. by rewrite nodes_at_update, decide_False. Qed.

Lemma deref_update_eq g c f n :
  nodes_at g c = Some n → deref (update g c f) c = f n.
Proof.
  intros Hn. unfold deref. by rewrite nodes_at_update, decide_True, Hn.
Qed.

Lemma elem_of_all_cells g c : c ∈ all_cells g ↔ in_bounds g c = true.
Proof.
  destruct c as [x y]. unfold all_cells, in_bounds, range. simpl.
  rewrite !andb_true_iff, !Z.leb_le, !Z.ltb_lt. split.
  - intros (x' & Hy & Hx)%list_elem_of_bind.
    apply list_elem_of_fmap in Hy as (y' & [= -> ->] & Hy).
    apply elem_of_seqZ in Hx, Hy. lia.
  - intros Hb. apply list_elem_of_bind. exists x. split.
    + apply list_elem_of_fmap. exists y. split; [done|]. apply elem_of_seqZ. lia.
    + apply elem_of_seqZ. lia.
Qed.

Lemma in_bounds_nonneg g c : in_bounds g c = true → 0 ≤ c.1 ∧ 0 ≤ c.2.
Proof. unfold in_bounds. rewrite !andb_true_iff, !Z.leb_le. lia. Qed.

Lemma wf_nodes_at g c :
  well_formed g → in_bounds g c = true →
  ∃ n, nodes_at g c = Some n ∧ Node.coords n = c.
Proof.
  intros (_ & _ & Hwf) Hb. apply elem_of_all_cells in Hb.
  rewrite Forall_forall in Hwf. specialize (Hwf _ Hb).
  destruct (nodes_at g c) as [n|]; [|done]. exists n. split; [done|].
  by injection Hwf.
Qed.

Lemma wf_nodes_at_None g c :
  well_formed g → in_bounds g c = false → nodes_at g c = None.
Proof.
  intros (Hlen & Hcols & _) Hb. destruct c as [x y].
  unfold nodes_at, in_bounds in *. simpl in *.
  destruct (0 <=? x) eqn:Hx; [|done]. destruct (0 <=? y) eqn:Hy; simpl in *.
  2:{ done. }
  apply Z.leb_le in Hx, Hy.
  destruct (Graph.nodes g !! Z.to_nat x) as [col|] eqn:Hcol; [|done]. simpl.
  pose proof (lookup_lt_Some _ _ _ Hcol) as Hlt.
  rewrite Forall_forall in Hcols.
  assert (Hc : length col = Z.to_nat (Graph.height g)).
  { apply Hcols. eapply list_elem_of_lookup_2. done. }
  apply lookup_ge_None.
  destruct (x <? Graph.width g) eqn:Hxw; [|apply Z.ltb_ge in Hxw; lia].
  simpl in Hb. apply Z.ltb_ge in Hb. lia.
Qed.

Lemma wf_deref g c :
  well_formed g → in_bounds g c = true → nodes_at g c = Some (deref g c).
Proof.
  intros Hwf Hb. destruct (wf_nodes_at g c Hwf Hb) as (n & Hn & _).
  unfold deref. by rewrite Hn.
Qed.

Lemma wf_coords g c : well_formed g → Node.coords (deref g c) = c.
Proof.
  intros Hwf. destruct (in_bounds g c) eqn:Hb.
  - destruct (wf_nodes_at g c Hwf Hb) as (n & Hn & Hc).
    unfold deref. by rewrite Hn.
  - unfold deref. rewrite wf_nodes_at_None by done. by destruct c.
Qed.

Lemma wf_eq g c d : well_formed g → Node.__eq__ (deref g c) (deref g d) = bool_decide (c = d).
Proof.
  intros Hwf. pose proof (wf_coords g c Hwf) as Hc. pose proof (wf_coords g d Hwf) as Hd.
  unfold Node.__eq__, Node.coords in *. destruct c as [x y], d as [x' y'].
  injection Hc as -> ->. injection Hd as -> ->.
  destruct (bool_decide _) eqn:Hdec.
  - apply bool_decide_eq_true in Hdec as [= -> ->]. by rewrite !Z.eqb_refl.
  - apply bool_decide_eq_false in Hdec. apply andb_false_iff.
    rewrite !Z.eqb_neq. destruct (decide (x = x')); [right|left]; congruence.
Qed.

Lemma wf_update g c f :
  (∀ n, Node.coords (f n) = Node.coords n) →
  well_formed g → well_formed (update g c f).
Proof.
  intros Hf (Hlen & Hcols & Hco). split; [|split].
  - rewrite update_width. unfold update. destruct (_ && _); [|done]. simpl.
    by rewrite length_alter.
  - rewrite update_height. unfold update. destruct (_ && _); [|done]. simpl.
    apply Forall_alter; [done|]. intros col _ Hc. by rewrite length_alter.
  - rewrite all_cells_update. eapply Forall_impl; [exact Hco|].
    intros c' Hc'. simpl in *. rewrite nodes_at_update. case_decide as Heq; [|done].
    subst c'. destruct (nodes_at g c) as [n|]; [|done]. simpl in *.
    by rewrite Hf.
Qed.

Lemma well_formed_init width height : well_formed (Graph__init__ width height).
Proof.
  split; [|split]; simpl.
  - unfold range. by rewrite length_fmap, length_seqZ.
  - apply Forall_fmap, Forall_forall. intros x _. simpl.
    unfold range. by rewrite length_fmap, length_seqZ.
  - apply Forall_forall. intros [x y] Hc.
    apply elem_of_all_cells in Hc. unfold in_bounds in Hc. simpl in Hc.
    rewrite !andb_true_iff, !Z.leb_le, !Z.ltb_lt in Hc.
    unfold nodes_at, range. simpl.
    destruct Hc as [[[Hx Hxw] Hy] Hyh].
    assert (Hx' : (0 <=? x) = true) by (apply Z.leb_le; lia).
    assert (Hy' : (0 <=? y) = true) by (apply Z.leb_le; lia).
    rewrite Hx', Hy'. simpl. unfold range.
    rewrite list_lookup_fmap, lookup_seqZ_lt by lia. simpl. unfold range.
    rewrite list_lookup_fmap, lookup_seqZ_lt by lia. simpl.
    unfold Node.coords. simpl. f_equal. f_equal; lia.
Qed.

Lemma nodes_at_set_terrain g x y s c :
  nodes_at (set_terrain g x y s) c =
  if in_bounds g (x, y) && bool_decide ((x, y) = c)
  then (fun n => Node.set_walkable (Terrain.is_walkable s)
                   (Node.set_terrain_type s n)) <$> nodes_at g c
  else nodes_at g c.
Proof.
  unfold set_terrain. destruct (in_bounds g (x, y)) eqn:Hb; [|done]. simpl.
  change (nodes_at (Graph.mk ?w ?h ?n ?t) c) with (nodes_at (Graph.mk w h n (Graph.terrain g)) c).
  rewrite !update_width, !update_height.
  set (g2 := update (update g _ _) _ _).
  assert (Heq : nodes_at (Graph.mk (Graph.width g) (Graph.height g)
                            (Graph.nodes g2) (Graph.terrain g)) c = nodes_at g2 c) by done.
  rewrite Heq. unfold g2. rewrite !nodes_at_update.
  destruct (bool_decide _) eqn:Hd.
  - apply bool_decide_eq_true in Hd. subst c. rewrite !decide_True by done.
    by destruct (nodes_at g (x, y)).
  - apply bool_decide_eq_false in Hd. by rewrite !decide_False.
Qed.

Lemma well_formed_set_terrain g x y s :
  well_formed g → well_formed (set_terrain g x y s).
Proof.
  intros Hwf. unfold set_terrain. destruct (in_bounds g (x, y)); [|done].
  set (g2 := update (update g _ _) _ _).
  assert (Hwf2 : well_formed g2) by (unfold g2; by do 2 (apply wf_update; [done|])).
  exact Hwf2.
Qed.

(** Every grid the program builds is well formed. *)
Lemma well_formed_build width height ops : well_formed (build width height ops).
Proof.
  induction ops as [|[[x y] s] ops IH]; simpl.
  - apply well_formed_init.
  - by apply well_formed_set_terrain.
Qed.

Lemma in_bounds_set_terrain g x y s c :
  in_bounds (set_terrain g x y s) c = in_bounds g c.
Proof.
  unfold set_terrain. destruct (in_bounds g (x, y)); [|done].
  unfold in_bounds. simpl. by rewrite !update_width, !update_height.
Qed.

(** ** Catalog lookup *)

Lemma lower_ascii_same c d : same_letter c d → lower_ascii c = lower_ascii d.
Proof.
  assert (Hup : ∀ a b, is_upper a = true →
            nat_of_ascii b = (nat_of_ascii a + 32)%nat →
            lower_ascii a = lower_ascii b).
  { intros a b Ha Hb. unfold lower_ascii, is_upper in *. rewrite Ha.
    rewrite <- Hb, ascii_nat_embedding.
    apply andb_true_iff in Ha as [H1 H2].
    apply Nat.leb_le in H1, H2.
    assert (Hn : (nat_of_ascii b <=? 90)%nat = false) by (apply Nat.leb_gt; lia).
    by rewrite Hn, andb_false_r. }
  intros [->|[[Hc Hd]|[Hd Hc]]]; [done| |symmetry]; by apply Hup.
Qed.

Lemma lower_caseless s t : caseless s t → lower s = lower t.
Proof.
  induction 1 as [|c d s t Hcd _ IH]; simpl; [done|].
  by rewrite (lower_ascii_same c d Hcd), IH.
Qed.

Lemma unknown_is_normal name :
  Terrain._terrain_types !! lower name = None →
  Terrain.get_terrain name = Terrain.NORMAL.
Proof. intros H. unfold Terrain.get_terrain. by rewrite H. Qed.

Lemma unknown_not_water name :
  Terrain._terrain_types !! lower name = None → String.eqb name "water" = false.
Proof.
  intros H. apply String.eqb_neq. intros ->. by vm_compute in H.
Qed.

(** Grids that agree on bounds, walkability and hazard answer the neighbour
    query alike. *)
Lemma get_neighbors_ext g g' node avoid_water :
  (∀ c, in_bounds g c = in_bounds g' c) →
  (∀ c, Node.walkable (deref g c) = Node.walkable (deref g' c)) →
  (∀ c, is_hazard g c = is_hazard g' c) →
  get_neighbors g node avoid_water = get_neighbors g' node avoid_water.
Proof.
  intros Hb Hw Hh. rewrite !get_neighbors_filter.
  assert (Hs : safe_group g node = safe_group g' node).
  { unfold safe_group. erewrite (list_filter_iff (fun c => candidate g c = true)).
    - apply list_filter_iff. intros c. by rewrite Hh.
    - intros c. unfold candidate. by rewrite Hb, Hw. }
  assert (Hz : hazard_group g node = hazard_group g' node).
  { unfold hazard_group. erewrite (list_filter_iff (fun c => candidate g c = true)).
    - apply list_filter_iff. intros c. by rewrite Hh.
    - intros c. unfold candidate. by rewrite Hb, Hw. }
  unfold neighbors_spec. by rewrite Hs, Hz.
Qed.

Lemma set_terrain_alike g x y s s' c :
  let n := deref (set_terrain g x y s) c in
  let n' := deref (set_terrain g x y s') c in
  Node.x n = Node.x n' ∧ Node.y n = Node.y n' ∧
  (n = n' ∨
   (Node.terrain_type n = s ∧ Node.terrain_type n' = s' ∧
    Node.walkable n = Terrain.is_walkable s ∧
    Node.walkable n' = Terrain.is_walkable s')).
Proof.
  unfold deref. rewrite !nodes_at_set_terrain.
  destruct (in_bounds g (x, y) && bool_decide ((x, y) = c)); simpl.
  - destruct (nodes_at g c) as [n|]; simpl; [|by auto].
    split; [done|]. split; [done|]. right. done.
  - by auto.
Qed.

(** C7: looking a terrain name up ignores the case of its letters, and a
    name that is not in the catalog yields the entry of ['normal'];
    so a node given an unknown terrain name by [set_terrain] has the
    walkability ([True]) and the multiplier ([1.0]) of a node set to
    ['normal'], and the grid answers the cost and neighbour queries as the
    grid with ['normal'] there does. *)
Theorem unknown_terrain_is_normal (name name' unknown : string) (g : Graph.t)
    (x y : Z)
    (Hcase : caseless name name')
    (Hunknown : Terrain._terrain_types !! lower unknown = None) :
  Terrain.get_terrain name' = Terrain.get_terrain name ∧
  Terrain.get_terrain unknown = Terrain.NORMAL ∧
  let g1 := set_terrain g x y unknown in
  let g2 := set_terrain g x y "normal" in
  (∀ c, Node.walkable (deref g1 c) = Node.walkable (deref g2 c)) ∧
  (∀ from_node c, get_terrain_cost from_node (deref g1 c) =
                  get_terrain_cost from_node (deref g2 c)) ∧
  (∀ node avoid_water, get_neighbors g1 node avoid_water =
                       get_neighbors g2 node avoid_water) ∧
  Node.walkable <$> get_node g1 x y = (fun _ => true) <$> get_node g x y ∧
  (fun n => Terrain.get_terrain_cost (Node.terrain_type n)) <$> get_node g1 x y =
    (fun _ => Fin 10 0) <$> get_node g x y.
Proof.
  pose proof (unknown_is_normal unknown Hunknown) as Hn.
  assert (Hw : Terrain.is_walkable unknown = true)
    by (unfold Terrain.is_walkable; by rewrite Hn).
  assert (Hc : Terrain.get_terrain_cost unknown = Fin 10 0)
    by (unfold Terrain.get_terrain_cost; by rewrite Hn).
  split; [|split; [done|]].
  { unfold Terrain.get_terrain. by rewrite (lower_caseless _ _ Hcase). }
  intros g1 g2. subst g1 g2.
  assert (Hwalk : ∀ c, Node.walkable (deref (set_terrain g x y unknown) c) =
                       Node.walkable (deref (set_terrain g x y "normal") c)).
  { intros c.
    destruct (set_terrain_alike g x y unknown "normal" c)
      as (_ & _ & [->|(_ & _ & H1 & H2)]); [done|].
    by rewrite H1, H2, Hw. }
  split; [exact Hwalk|]. split; [|split; [|split]].
  - intros from_node c. unfold get_terrain_cost.
    destruct (set_terrain_alike g x y unknown "normal" c)
      as (Hx & Hy & Ht).
    rewrite Hx, Hy. f_equal.
    destruct Ht as [->|(H1 & H2 & _)]; [done|]. by rewrite H1, H2, Hc.
  - intros node avoid_water. apply get_neighbors_ext.
    + intros c. by rewrite !in_bounds_set_terrain.
    + exact Hwalk.
    + intros c. unfold is_hazard.
      destruct (set_terrain_alike g x y unknown "normal" c)
        as (_ & _ & [->|(H1 & H2 & _)]); [done|].
      by rewrite H1, H2, (unknown_not_water unknown Hunknown).
  - unfold get_node. rewrite in_bounds_set_terrain.
    destruct (in_bounds g (x, y)) eqn:Hb; [|done].
    rewrite nodes_at_set_terrain, Hb, bool_decide_eq_true_2 by done. simpl.
    destruct (nodes_at g (x, y)); simpl; [|done]. by rewrite Hw.
  - unfold get_node. rewrite in_bounds_set_terrain.
    destruct (in_bounds g (x, y)) eqn:Hb; [|done].
    rewrite nodes_at_set_terrain, Hb, bool_decide_eq_true_2 by done. simpl.
    destruct (nodes_at g (x, y)); simpl; [|done]. by rewrite Hc.
Qed.

Lemma unknown_terrain_is_normal_witness :
  Terrain.get_terrain "WATER" = Terrain.get_terrain "wAtEr" ∧
  Terrain.get_terrain "lava" = Terrain.NORMAL ∧
  Node.walkable <$> get_node (set_terrain (Graph__init__ 2 2) 1 0 "lava") 1 0 =
    Some true.
Proof.
  assert (Hc : caseless "wAtEr" "WATER").
  { repeat (apply caseless_cons;
            [first [by left | right; left; split; reflexivity
                   | right; right; split; reflexivity]|]).
    apply caseless_nil. }
  assert (Hu : Terrain._terrain_types !! lower "lava" = None) by reflexivity.
  destruct (unknown_terrain_is_normal "wAtEr" "WATER" "lava"
              (Graph__init__ 2 2) 1 0 Hc Hu) as (H1 & H2 & _ & _ & _ & H3 & _).
  split; [exact H1|]. split; [exact H2|]. exact H3.
Defined.

(** ** Resetting the search fields *)

Lemma fmap_alter_absorb {A B} (h : A → B) (f : A → A) (l : list A) i :
  (∀ x, h (f x) = h x) → h <$> alter f i l = h <$> l.
Proof.
  intros Hf. apply list_eq. intros j. rewrite !list_lookup_fmap.
  destruct (decide (i = j)) as [->|Hne].
  - rewrite list_lookup_alter_eq. destruct (l !! j); simpl; [|done]. by rewrite Hf.
  - by rewrite list_lookup_alter_ne.
Qed.

Lemma erase_update g c f :
  (∀ n, reset_node (f n) = reset_node n) → erase (update g c f) = erase g.
Proof.
  intros Hf. unfold erase. rewrite update_width, update_height, update_terrain.
  f_equal. unfold update. destruct (_ && _); [|done]. simpl.
  apply fmap_alter_absorb. intros col. by apply fmap_alter_absorb.
Qed.

Lemma nodes_at_erase g c : nodes_at (erase g) c = reset_node <$> nodes_at g c.
Proof.
  unfold nodes_at, erase. simpl. destruct (_ && _); [|done].
  rewrite list_lookup_fmap. destruct (Graph.nodes g !! _); simpl; [|done].
  by rewrite list_lookup_fmap.
Qed.

Lemma reset_node_init x y : reset_node (Node.__init__ x y) = Node.__init__ x y.
Proof. done. Qed.

Lemma erase_deref g g' c :
  erase g = erase g' → reset_node (deref g c) = reset_node (deref g' c).
Proof.
  intros He. pose proof (nodes_at_erase g c) as H1.
  pose proof (nodes_at_erase g' c) as H2. rewrite He in H1. rewrite H1 in H2.
  unfold deref. destruct (nodes_at g c), (nodes_at g' c); simpl in *; congruence.
Qed.

Lemma erase_static g g' c :
  erase g = erase g' →
  Node.x (deref g c) = Node.x (deref g' c) ∧
  Node.y (deref g c) = Node.y (deref g' c) ∧
  Node.terrain_type (deref g c) = Node.terrain_type (deref g' c) ∧
  Node.walkable (deref g c) = Node.walkable (deref g' c).
Proof.
  intros He. pose proof (erase_deref g g' c He) as H.
  destruct (deref g c), (deref g' c). unfold reset_node in H. simpl in *.
  by injection H.
Qed.

Lemma erase_in_bounds g g' c : erase g = erase g' → in_bounds g c = in_bounds g' c.
Proof.
  intros He. unfold in_bounds.
  assert (Hw : Graph.width g = Graph.width g') by (by injection He).
  assert (Hh : Graph.height g = Graph.height g') by (by injection He).
  by rewrite Hw, Hh.
Qed.

Lemma erase_all_cells g g' : erase g = erase g' → all_cells g = all_cells g'.
Proof.
  intros He. unfold all_cells.
  assert (Hw : Graph.width g = Graph.width g') by (by injection He).
  assert (Hh : Graph.height g = Graph.height g') by (by injection He).
  by rewrite Hw, Hh.
Qed.

Lemma erase_get_neighbors g g' node avoid_water :
  erase g = erase g' →
  get_neighbors g node avoid_water = get_neighbors g' node avoid_water.
Proof.
  intros He. apply get_neighbors_ext.
  - intros c. by apply erase_in_bounds.
  - intros c. by apply erase_static.
  - intros c. unfold is_hazard.
    by destruct (erase_static g g' c He) as (_ & _ & -> & _).
Qed.

Lemma well_formed_erase g : well_formed g → well_formed (erase g).
Proof.
  intros (Hlen & Hcols & Hco). split; [|split].
  - simpl. by rewrite length_fmap.
  - simpl. apply Forall_fmap. eapply Forall_impl; [exact Hcols|].
    intros col Hc. simpl. by rewrite length_fmap.
  - change (all_cells (erase g)) with (all_cells g).
    eapply Forall_impl; [exact Hco|]. intros c Hc. simpl in *.
    rewrite nodes_at_erase. destruct (nodes_at g c) as [n|]; [|done].
    simpl in *. by destruct n.
Qed.

(** Two well-formed grids with the same dimensions, terrain table and
    nodes are the same grid. *)
Lemma graph_ext g g' :
  well_formed g → well_formed g' →
  Graph.width g = Graph.width g' → Graph.height g = Graph.height g' →
  Graph.terrain g = Graph.terrain g' →
  (∀ c, nodes_at g c = nodes_at g' c) → g = g'.
Proof.
  intros (Hlen & Hcols & _) (Hlen' & Hcols' & _) Hw Hh Ht Hn.
  destruct g as [w h ns t], g' as [w' h' ns' t']. simpl in *. subst w' h' t'.
  f_equal. apply list_eq. intros i.
  destruct (ns !! i) as [col|] eqn:Hi; destruct (ns' !! i) as [col'|] eqn:Hi'.
  - f_equal. apply list_eq. intros j.
    specialize (Hn (Z.of_nat i, Z.of_nat j)). unfold nodes_at in Hn. simpl in Hn.
    assert (H1 : (0 <=? Z.of_nat i) = true) by (apply Z.leb_le; lia).
    assert (H2 : (0 <=? Z.of_nat j) = true) by (apply Z.leb_le; lia).
    rewrite H1, H2, !Nat2Z.id, Hi, Hi' in Hn. exact Hn.
  - apply lookup_lt_Some in Hi. apply lookup_ge_None in Hi'. lia.
  - apply lookup_ge_None in Hi. apply lookup_lt_Some in Hi'. lia.
  - done.
Qed.

Lemma foldl_update_props g cs f :
  (∀ n, Node.coords (f n) = Node.coords n) →
  let g' := foldl (fun g c => update g c f) g cs in
  Graph.width g' = Graph.width g ∧ Graph.height g' = Graph.height g ∧
  Graph.terrain g' = Graph.terrain g ∧ (well_formed g → well_formed g').
Proof.
  intros Hf. revert g. induction cs as [|c cs IH]; intros g; simpl; [done|].
  destruct (IH (update g c f)) as (Hw & Hh & Ht & Hwf).
  rewrite Hw, Hh, Ht, update_width, update_height, update_terrain.
  split; [done|split; [done|split; [done|]]]. intros Hg. by apply Hwf, wf_update.
Qed.

Lemma nodes_at_foldl_update g cs f c' :
  (∀ n, f (f n) = f n) →
  nodes_at (foldl (fun g c => update g c f) g cs) c' =
  if decide (c' ∈ cs) then f <$> nodes_at g c' else nodes_at g c'.
Proof.
  intros Hf. revert g. induction cs as [|c cs IH]; intros g; cbn [foldl].
  - case_decide as Hin; [|done]. by apply not_elem_of_nil in Hin.
  - rewrite IH, nodes_at_update.
    destruct (decide (c = c')) as [->|Hne].
    + assert (Hhere : c' ∈ c' :: cs) by apply list_elem_of_here.
      case_decide; case_decide; try done.
      destruct (nodes_at g c'); simpl; [|done]. by rewrite Hf.
    + destruct (decide (c' ∈ cs)) as [Hin|Hin].
      * assert (Hthere : c' ∈ c :: cs) by (by apply list_elem_of_further).
        by case_decide.
      * case_decide as Hin'; [|done]. apply elem_of_cons in Hin' as [->|Hin']; done.
Qed.

Lemma reset_nodes_flat g :
  reset_nodes g = foldl (fun g c => update g c reset_node) g (all_cells g).
Proof.
  unfold reset_nodes, all_cells.
  generalize (range (Graph.width g)). intros xs.
  assert (Hgen : ∀ g1, Graph.height g1 = Graph.height g →
    foldl (fun g x => foldl (fun g y => update g (x, y) reset_node) g
                        (range (Graph.height g))) g1 xs =
    foldl (fun g c => update g c reset_node) g1
      (xs ≫= fun x => (fun y => (x, y)) <$> range (Graph.height g))).
  { induction xs as [|x xs IH]; intros g1 Hh; simpl; [done|].
    rewrite foldl_app, Hh.
    assert (Hin : ∀ ys g2,
      foldl (fun g y => update g (x, y) reset_node) g2 ys =
      foldl (fun g c => update g c reset_node) g2 ((fun y => (x, y)) <$> ys)).
    { induction ys as [|y ys IHy]; intros g2; simpl; [done|]. apply IHy. }
    rewrite Hin. apply IH.
    destruct (foldl_update_props g1 ((fun y => (x, y)) <$> range (Graph.height g))
                reset_node) as (_ & Hh' & _); [by intros []|].
    by rewrite Hh'. }
  by apply Hgen.
Qed.

(** On a well-formed grid [reset_nodes] resets every node. *)
Lemma reset_nodes_erase g : well_formed g → reset_nodes g = erase g.
Proof.
  intros Hwf. rewrite reset_nodes_flat.
  destruct (foldl_update_props g (all_cells g) reset_node)
    as (Hw & Hh & Ht & Hwf'); [by intros []|].
  apply graph_ext; try done.
  - by apply Hwf'.
  - by apply well_formed_erase.
  - intros c. rewrite nodes_at_foldl_update by (by intros []).
    rewrite nodes_at_erase. case_decide as Hin; [done|].
    rewrite wf_nodes_at_None; [done|done|].
    apply not_true_is_false. by rewrite <- elem_of_all_cells.
Qed.

Lemma erase_idemp g : erase (erase g) = erase g.
Proof.
  unfold erase. simpl. f_equal. rewrite <- list_fmap_compose.
  apply list_fmap_ext. intros _ col _. simpl. rewrite <- list_fmap_compose.
  apply list_fmap_ext. by intros _ [] _.
Qed.

(** ** The frontier *)

Lemma heappop_None h : heappop h = None → h = [].
Proof.
  destruct h as [|e h]; simpl; [done|].
  destruct (heappop h) as [[m r]|]; [|done]. by destruct (entry_ltb m e).
Qed.

Lemma heappop_perm h e r : heappop h = Some (e, r) → h ≡ₚ e :: r.
Proof.
  revert e r. induction h as [|a h IH]; intros e r; simpl; [done|].
  destruct (heappop h) as [[m r']|] eqn:Hp.
  - destruct (entry_ltb m a); intros [= <- <-]; [|done].
    rewrite (IH _ _ eq_refl). apply Permutation_swap.
  - intros [= <- <-]. by rewrite (heappop_None h Hp).
Qed.

(** ** One relaxation *)

Lemma update_compose g c f1 f2 :
  update (update g c f1) c f2 = update g c (f2 ∘ f1).
Proof.
  unfold update. destruct (_ && _) eqn:Hc; simpl; rewrite ?Hc; [|done].
  f_equal. rewrite list_alter_alter_eq. apply list_alter_ext; [|done].
  intros col _. simpl. by rewrite list_alter_alter_eq.
Qed.

Section Relax.
Variable alg : algorithm.
Variable idf : cell → Z.
Variable end_ : cell.

Lemma improve_props g current n t m :
  reset_node (improve alg end_ g current n t m) = reset_node m ∧
  Node.coords (improve alg end_ g current n t m) = Node.coords m ∧
  Node.parent (improve alg end_ g current n t m) = Some current ∧
  Node.g_cost (improve alg end_ g current n t m) = t.
Proof. unfold improve. by destruct alg, m. Qed.

Lemma relax_cases current st n :
  well_formed (graph st) →
  (∀ m, open_set_dict st !! idf n = Some m → m = n) →
  let g := graph st in
  let t := cost_add (Node.g_cost (deref g current))
                    (get_terrain_cost (deref g current) (deref g n)) in
  let g' := update g n (improve alg end_ g current n t) in
  ((relax alg idf end_ current st n = st ∧
    (n ∈ closed_set st ∨ cost_ltb t (Node.g_cost (deref g n)) = false)) ∨
   ((n ∉ closed_set st) ∧ cost_ltb t (Node.g_cost (deref g n)) = true ∧
    ((open_set_dict st !! idf n = None ∧
      relax alg idf end_ current st n =
        State g' (open_set st ++ [(key_of alg (deref g' n), idf n, n)])
          (<[idf n := n]> (open_set_dict st)) (closed_set st)) ∨
     (open_set_dict st !! idf n = Some n ∧
      relax alg idf end_ current st n =
        State g' (open_set st) (open_set_dict st) (closed_set st))))).
Proof.
  intros Hwf Hdict g t g'. unfold relax. fold g.
  rewrite (wf_coords g n Hwf).
  destruct (bool_decide (n ∈ closed_set st)) eqn:Hcl.
  { left. split; [done|]. left. by apply bool_decide_eq_true in Hcl. }
  apply bool_decide_eq_false in Hcl. fold t.
  destruct (cost_ltb t (Node.g_cost (deref g n))) eqn:Hlt.
  2:{ left. split; [done|]. by right. }
  right. split; [done|]. split; [done|].
  set (g3 := match alg with Dijkstra => _ | AStar => _ end).
  assert (Hg3 : g3 = g').
  { unfold g3, g', improve. destruct alg; by rewrite !update_compose. }
  rewrite Hg3. clear g3 Hg3.
  assert (Hwf' : well_formed g').
  { apply wf_update; [|done]. intros m. apply improve_props. }
  destruct (open_set_dict st !! idf n) as [m|] eqn:Hd.
  - right. rewrite (Hdict m eq_refl) in *. split; [done|].
    by rewrite (wf_eq g' n n Hwf'), bool_decide_eq_true_2.
  - left. done.
Qed.
End Relax.

(** ** The invariant *)

Lemma NoDup_fmap_inj {A B} (f : A → B) (l : list A) x y :
  NoDup (f <$> l) → x ∈ l → y ∈ l → f x = f y → x = y.
Proof.
  intros Hnd Hx Hy Hf.
  apply list_elem_of_lookup in Hx as [i Hi]. apply list_elem_of_lookup in Hy as [j Hj].
  assert (Hij : i = j).
  { eapply NoDup_lookup; [exact Hnd| |].
    - rewrite list_lookup_fmap, Hi. reflexivity.
    - rewrite list_lookup_fmap, Hj. simpl. by rewrite Hf. }
  subst j. congruence.
Qed.

Section Search.
Variable alg : algorithm.
Variable idf : cell → Z.
Variable end_ : cell.
Variable avoid_water : bool.
Variable g0 : Graph.t.
Variable start : cell.
Hypothesis Hwf : well_formed g0.
Hypothesis Hstart : in_bounds g0 start = true.
Hypothesis Hids : distinct_ids idf g0.

Lemma ids_inj c d :
  in_bounds g0 c = true → in_bounds g0 d = true → idf c = idf d → c = d.
Proof.
  intros Hc Hd. apply (NoDup_fmap_inj idf (all_cells g0)); [done| |];
    by apply elem_of_all_cells.
Qed.

Lemma inv_in_bounds st c :
  Inv idf end_ g0 start st → in_bounds (graph st) c = in_bounds g0 c.
Proof. intros HI. apply erase_in_bounds, HI. Qed.

Lemma inv_dict_self st n m :
  Inv idf end_ g0 start st → in_bounds g0 n = true →
  open_set_dict st !! idf n = Some m → m = n.
Proof.
  intros HI Hn Hm. destruct (inv_dict _ _ _ _ _ HI _ _ Hm) as [Hb Hid].
  symmetry. by apply ids_inj.
Qed.

Lemma relax_inv current st n :
  Inv idf end_ g0 start st → current ∈ closed_set st →
  in_bounds g0 n = true → Node.walkable (deref g0 n) = true →
  Inv idf end_ g0 start (relax alg idf end_ current st n) ∧
  closed_set (relax alg idf end_ current st n) = closed_set st ∧
  slack (relax alg idf end_ current st n) = slack st.
Proof.
  intros HI Hcur Hn Hwalk.
  pose proof (inv_wf _ _ _ _ _ HI) as Hwfg.
  assert (Hnb : in_bounds (graph st) n = true) by (by rewrite (inv_in_bounds st n HI)).
  destruct (relax_cases alg idf end_ current st n Hwfg
              (fun m => inv_dict_self st n m HI Hn))
    as [[-> _]|(Hncl & Hlt & Hpush)]; [done|].
  assert (Hfin : cost_ltb (Node.g_cost (deref (graph st) current))
            (cost_add (Node.g_cost (deref (graph st) current))
               (get_terrain_cost (deref (graph st) current)
                  (deref (graph st) n))) = true).
  { destruct (Node.g_cost (deref (graph st) current)) as [a b|]; [|done].
    unfold get_terrain_cost in *.
    destruct (catalog_cost (Node.terrain_type (deref (graph st) n)))
      as [(t0 & Ht0 & Heq)|[Heq _]]; rewrite Heq in *.
    - by apply cost_ltb_add.
    - done. }
  set (g := graph st) in *.
  set (t := cost_add (Node.g_cost (deref g current))
              (get_terrain_cost (deref g current) (deref g n))) in *.
  set (F := improve alg end_ g current n t) in *.
  set (g' := update g n F) in *.
  assert (HF : ∀ m, reset_node (F m) = reset_node m ∧
                    Node.coords (F m) = Node.coords m ∧
                    Node.parent (F m) = Some current ∧ Node.g_cost (F m) = t)
    by (intros m; apply improve_props).
  assert (Hwf' : well_formed g') by (apply wf_update; [apply HF|done]).
  assert (Her' : erase g' = erase g0).
  { unfold g'. rewrite erase_update by apply HF. apply HI. }
  assert (Hne : current ≠ n) by (intros ->; done).
  assert (Hdn : deref g' n = F (deref g n)).
  { apply deref_update_eq. by apply wf_deref. }
  assert (Hdo : ∀ m, m ≠ n → deref g' m = deref g m).
  { intros m Hm. by apply deref_update_ne. }
  assert (Hpar : ∀ m p, Node.parent (deref g' m) = Some p →
            p ∈ closed_set st ∧
            cost_ltb (Node.g_cost (deref g' p)) (Node.g_cost (deref g' m)) = true).
  { intros m p Hp. destruct (decide (m = n)) as [->|Hmn].
    - rewrite Hdn in Hp. destruct (HF (deref g n)) as (_ & _ & Hpa & Hg).
      rewrite Hpa in Hp. injection Hp as <-. split; [done|].
      by rewrite Hdn, Hg, (Hdo current Hne).
    - rewrite (Hdo m Hmn) in Hp |- *.
      destruct (inv_parent _ _ _ _ _ HI _ _ Hp) as [Hpc Hpl]. split; [done|].
      rewrite Hdo; [done|]. intros ->. done. }
  destruct Hpush as [[Hnone ->]|[Hsome ->]].
  - split; [|split; [done|]].
    + constructor; simpl; try done.
      * intros k i c [Hin|Hin%list_elem_of_singleton]%elem_of_app.
        -- destruct (inv_open _ _ _ _ _ HI _ _ _ Hin) as (Hb & -> & Hd & Hw).
           repeat split; try done.
           rewrite lookup_insert_ne; [done|]. intros Heq.
           apply ids_inj in Heq; [|done..]. subst c. congruence.
        -- injection Hin as -> -> ->. repeat split; try done.
           ++ by rewrite lookup_insert_eq.
           ++ by right.
      * intros i c. rewrite lookup_insert. case_decide as Hi.
        -- intros [= <-]. by subst i.
        -- apply HI.
      * apply HI.
      * rewrite fmap_app. apply NoDup_app. split; [apply HI|]. split.
        -- intros c Hc Hc'. apply list_elem_of_singleton in Hc'. simpl in Hc'. subst c.
           apply list_elem_of_fmap in Hc as ([[k i] c] & Heq & Hin). simpl in Heq. subst c.
           destruct (inv_open _ _ _ _ _ HI _ _ _ Hin) as (_ & -> & Hd & _). congruence.
        -- apply NoDup_singleton.
    + unfold slack. simpl. rewrite map_size_insert_None by done.
      rewrite length_app. simpl. lia.
  - split; [|done]. constructor; simpl; try done; apply HI.
Qed.

Lemma get_neighbors_candidate g node a c :
  c ∈ get_neighbors g node a →
  in_bounds g c = true ∧ Node.walkable (deref g c) = true.
Proof.
  rewrite get_neighbors_filter. intros Hc.
  assert (Hcand : candidate g c = true).
  { unfold neighbors_spec in Hc.
    assert (Hin : c ∈ safe_group g node ++ hazard_group g node).
    { destruct a, (safe_group g node) eqn:Hs; try done.
      apply elem_of_app. by left. }
    apply elem_of_app in Hin as [Hin|Hin];
      apply list_elem_of_filter in Hin as [_ Hin];
      by apply list_elem_of_filter in Hin as [Hin _]. }
  by apply andb_true_iff in Hcand.
Qed.

Lemma relax_fold_inv current ns : ∀ st,
  Inv idf end_ g0 start st → current ∈ closed_set st →
  (∀ n, n ∈ ns → in_bounds g0 n = true ∧ Node.walkable (deref g0 n) = true) →
  Inv idf end_ g0 start (foldl (relax alg idf end_ current) st ns) ∧
  closed_set (foldl (relax alg idf end_ current) st ns) = closed_set st ∧
  slack (foldl (relax alg idf end_ current) st ns) = slack st.
Proof.
  induction ns as [|n ns IH]; intros st HI Hcur Hns; simpl; [done|].
  destruct (Hns n) as [Hb Hw]; [apply list_elem_of_here|].
  destruct (relax_inv current st n HI Hcur Hb Hw) as (HI' & Hcl & Hsl).
  destruct (IH (relax alg idf end_ current st n)) as (HI'' & Hcl' & Hsl').
  - done.
  - by rewrite Hcl.
  - intros m Hm. apply Hns. by apply list_elem_of_further.
  - split; [done|]. split; congruence.
Qed.

Lemma pop_inv st k i c rest :
  Inv idf end_ g0 start st → heappop (open_set st) = Some ((k, i, c), rest) →
  Inv idf end_ g0 start
    (State (graph st) rest (open_set_dict st) (closed_set st)) ∧
  slack (State (graph st) rest (open_set_dict st) (closed_set st)) = slack st + 1 ∧
  in_bounds g0 c = true ∧ (c = start ∨ Node.walkable (deref g0 c) = true).
Proof.
  intros HI Hpop. apply heappop_perm in Hpop.
  assert (Hsub : ∀ e, e ∈ rest → e ∈ open_set st).
  { intros e He. rewrite Hpop. by apply list_elem_of_further. }
  assert (Hc : (k, i, c) ∈ open_set st) by (rewrite Hpop; apply list_elem_of_here).
  destruct (inv_open _ _ _ _ _ HI _ _ _ Hc) as (Hb & _ & _ & Hw).
  split; [|split; [|done]].
  - constructor; simpl; try apply HI.
    + intros k' i' c' Hin. apply (inv_open _ _ _ _ _ HI k' i' c'). by apply Hsub.
    + pose proof (inv_nodup _ _ _ _ _ HI) as Hnd.
      rewrite Hpop in Hnd. simpl in Hnd. by apply NoDup_cons in Hnd as [_ Hnd].
  - unfold slack. simpl. apply Permutation_length in Hpop. rewrite Hpop. simpl. lia.
Qed.

Lemma iteration_inv st st' :
  Inv idf end_ g0 start st →
  iteration alg idf end_ avoid_water st = Next st' →
  Inv idf end_ g0 start st' ∧ slack st' = slack st + 1.
Proof.
  intros HI. unfold iteration.
  destruct (heappop (open_set st)) as [[[[k i] c] rest]|] eqn:Hpop; [|done].
  destruct (pop_inv st k i c rest HI Hpop) as (HI0 & Hsl & Hb & Hw).
  pose proof (inv_wf _ _ _ _ _ HI) as Hwfg.
  rewrite (wf_eq _ c end_ Hwfg), (wf_coords _ c Hwfg).
  destruct (bool_decide (c = end_)) eqn:Hend; [done|].
  apply bool_decide_eq_false in Hend.
  destruct (bool_decide (c ∈ closed_set st)) eqn:Hcl.
  { intros [= <-]. done. }
  intros [= <-].
  set (st1 := State (graph st) rest (open_set_dict st) ({[c]} ∪ closed_set st)).
  assert (HI1 : Inv idf end_ g0 start st1).
  { constructor; simpl; try apply HI0.
    - intros d [->%elem_of_singleton|Hd]%elem_of_union; [done|].
      by apply (inv_closed _ _ _ _ _ HI).
    - intros n p Hp. destruct (inv_parent _ _ _ _ _ HI _ _ Hp) as [Hpc Hlt].
      split; [|done]. apply elem_of_union. by right. }
  destruct (relax_fold_inv c (get_neighbors (graph st) (deref (graph st) c) avoid_water)
              st1 HI1) as (HI2 & _ & Hsl2).
  - apply elem_of_union. left. by apply elem_of_singleton.
  - intros n Hn. apply get_neighbors_candidate in Hn as [Hnb Hnw].
    rewrite (inv_in_bounds st n HI) in Hnb. split; [done|].
    destruct (erase_static (graph st) g0 n (inv_erase _ _ _ _ _ HI))
      as (_ & _ & _ & Hwe). by rewrite <- Hwe.
  - split; [done|]. rewrite Hsl2. exact Hsl.
Qed.

Lemma erase_parent g c : Node.parent (deref (erase g) c) = None.
Proof.
  unfold deref. rewrite nodes_at_erase. by destruct (nodes_at g c).
Qed.

Lemma initial_inv :
  Inv idf end_ g0 start (initial alg idf end_ g0 start) ∧
  slack (initial alg idf end_ g0 start) = 0.
Proof.
  unfold initial. rewrite (reset_nodes_erase g0 Hwf).
  set (g1 := update (erase g0) start (Node.set_g_cost (Fin 0 0))).
  assert (Hwf1 : well_formed g1).
  { apply wf_update; [by intros []|]. by apply well_formed_erase. }
  assert (He1 : erase g1 = erase g0).
  { unfold g1. rewrite erase_update by (by intros []). apply erase_idemp. }
  assert (Hp1 : ∀ n, Node.parent (deref g1 n) = None).
  { intros n. unfold g1. destruct (decide (start = n)) as [<-|Hne].
    - pose proof (erase_parent g0 start) as Hp. unfold deref in *.
      rewrite nodes_at_update, decide_True by done.
      by destruct (nodes_at (erase g0) start).
    - rewrite deref_update_ne by done. apply erase_parent. }
  assert (Hgen : ∀ g k,
    well_formed g → erase g = erase g0 →
    (∀ n, Node.parent (deref g n) = None) →
    Inv idf end_ g0 start (State g [(k, idf start, start)] {[idf start := start]} ∅) ∧
    slack (State g [(k, idf start, start)] {[idf start := start]} ∅) = 0).
  { intros g k Hw He Hp. split.
    - constructor; simpl; try done.
      + intros k' i c [= -> -> ->]%list_elem_of_singleton.
        repeat split; try done; [by rewrite lookup_singleton_eq|by left].
      + intros i c [<- <-]%lookup_singleton_Some. done.
      + intros n p. by rewrite Hp.
      + apply NoDup_singleton.
    - unfold slack. simpl. by rewrite map_size_singleton. }
  destruct alg.
  - by apply Hgen.
  - apply Hgen.
    + apply wf_update; [by intros []|done].
    + by rewrite erase_update by (by intros []).
    + intros n. set (h := heuristic _ _).
      destruct (decide (start = n)) as [<-|Hne].
      * specialize (Hp1 start). unfold deref in *.
        rewrite nodes_at_update, decide_True by done.
        by destruct (nodes_at g1 start).
      * by rewrite deref_update_ne.
Qed.

Lemma slack_bound st :
  Inv idf end_ g0 start st → slack st ≤ Z.of_nat (length (all_cells g0)).
Proof.
  intros HI. unfold slack.
  assert (Hsub : dom (open_set_dict st) ⊆
                 (list_to_set (idf <$> all_cells g0) : gset Z)).
  { intros i [c Hc]%elem_of_dom.
    destruct (inv_dict _ _ _ _ _ HI _ _ Hc) as [Hb ->].
    apply elem_of_list_to_set, list_elem_of_fmap_2. by apply elem_of_all_cells. }
  apply subseteq_size in Hsub.
  rewrite size_dom, size_list_to_set, length_fmap in Hsub by exact Hids. lia.
Qed.

Lemma filter_length_le {A} (P Q : A → Prop) `{∀ x, Decision (P x)}
    `{∀ x, Decision (Q x)} (l : list A) :
  (∀ y, P y → Q y) → (length (filter P l) ≤ length (filter Q l))%nat.
Proof.
  intros HPQ. induction l as [|a l IH]; [done|]. rewrite !filter_cons.
  destruct (decide (P a)) as [HP|HP].
  - rewrite decide_True by auto. simpl. lia.
  - destruct (decide (Q a)); simpl; lia.
Qed.

Lemma filter_length_lt {A} (P Q : A → Prop) `{∀ x, Decision (P x)}
    `{∀ x, Decision (Q x)} (l : list A) x :
  (∀ y, P y → Q y) → x ∈ l → Q x → ¬ P x →
  (length (filter P l) < length (filter Q l))%nat.
Proof.
  intros HPQ Hx HQ HP. induction l as [|a l IH]; [by apply elem_of_nil in Hx|].
  rewrite !filter_cons. apply elem_of_cons in Hx as [<-|Hx].
  - rewrite decide_False, decide_True by done. simpl.
    pose proof (filter_length_le P Q l HPQ). lia.
  - specialize (IH Hx). destruct (decide (P a)) as [HPa|HPa].
    + rewrite decide_True by auto. simpl. lia.
    + destruct (decide (Q a)); simpl; lia.
Qed.

Lemma reconstruct_loop_total st :
  Inv idf end_ g0 start st →
  ∀ fuel c acc, (length (below (graph st) c) < fuel)%nat →
  ∃ rest, reconstruct_loop fuel (graph st) acc (Some c) = Some (acc ++ c :: rest).
Proof.
  intros HI. induction fuel as [|fuel IH]; intros c acc Hlen; [lia|]. simpl.
  destruct (Node.parent (deref (graph st) c)) as [p|] eqn:Hp.
  - destruct (inv_parent _ _ _ _ _ HI _ _ Hp) as [Hpc Hlt].
    destruct (IH p (acc ++ [c])) as [rest Hrest].
    + assert (Hlt' : (length (below (graph st) p) < length (below (graph st) c))%nat).
      { unfold below. apply (filter_length_lt _ _ _ p).
        - intros d Hd. by eapply cost_ltb_trans.
        - rewrite (erase_all_cells _ _ (inv_erase _ _ _ _ _ HI)).
          apply elem_of_all_cells. by apply (inv_closed _ _ _ _ _ HI).
        - done.
        - by rewrite cost_ltb_irrefl. }
      lia.
    + exists (p :: rest). by rewrite Hrest, <- app_assoc.
  - exists []. by destruct fuel.
Qed.

Lemma reconstruct_total st c :
  Inv idf end_ g0 start st →
  ∃ rest, reconstruct_path (fuel_of (graph st)) (graph st) c =
          Some (reverse rest ++ [c]).
Proof.
  intros HI. unfold reconstruct_path.
  destruct (reconstruct_loop_total st HI (fuel_of (graph st)) c []) as [rest ->].
  - unfold fuel_of, below. pose proof (length_filter
      (fun d => cost_ltb (Node.g_cost (deref (graph st) d))
                         (Node.g_cost (deref (graph st) c)) = true)
      (all_cells (graph st))). lia.
  - exists rest. simpl. by rewrite reverse_cons.
Qed.

Lemma iteration_exhausted st st1 :
  iteration alg idf end_ avoid_water st = Exhausted st1 →
  st1 = st ∧ open_set st = [].
Proof.
  unfold iteration.
  destruct (heappop (open_set st)) as [[[[k i] c] rest]|] eqn:Hpop.
  - destruct (Node.__eq__ _ _); [done|]. by destruct (bool_decide _).
  - intros [= <-]. split; [done|]. by apply heappop_None.
Qed.

Lemma iteration_found st c st1 :
  Inv idf end_ g0 start st →
  iteration alg idf end_ avoid_water st = Found c st1 →
  c = end_ ∧ graph st1 = graph st ∧ closed_set st1 = closed_set st ∧
  in_bounds g0 end_ = true.
Proof.
  intros HI. unfold iteration.
  destruct (heappop (open_set st)) as [[[[k i] d] rest]|] eqn:Hpop; [|done].
  destruct (pop_inv st k i d rest HI Hpop) as (_ & _ & Hb & _).
  rewrite (wf_eq _ d end_ (inv_wf _ _ _ _ _ HI)).
  destruct (bool_decide (d = end_)) eqn:Hend.
  - apply bool_decide_eq_true in Hend. subst d. by intros [= <- <-].
  - destruct (bool_decide (_ ∈ _)); intros Hf; discriminate Hf.
Qed.

Lemma loop_run fuel : ∀ st,
  Inv idf end_ g0 start st →
  Z.of_nat (length (all_cells g0)) < Z.of_nat fuel + slack st →
  ∃ path st' k,
    loop alg idf end_ avoid_water fuel st =
      Some (path, closed_set st', graph st') ∧
    Inv idf end_ g0 start st' ∧
    after alg idf end_ avoid_water k st = Some st' ∧
    (path = [] ∨ last path = Some end_).
Proof.
  induction fuel as [|fuel IH]; intros st HI Hfuel.
  { pose proof (slack_bound st HI). lia. }
  simpl. destruct (iteration alg idf end_ avoid_water st) as [st1|c st1|st1] eqn:Hit.
  - apply iteration_exhausted in Hit as [-> _].
    exists [], st, 0%nat. split; [done|]. split; [done|]. split; [done|]. by left.
  - destruct (iteration_found st c st1 HI Hit) as (-> & Hg & Hc & _).
    rewrite Hg, Hc. destruct (reconstruct_total st end_ HI) as [rest ->]. simpl.
    exists (reverse rest ++ [end_]), st, 0%nat.
    split; [done|]. split; [done|]. split; [done|]. right. apply last_snoc.
  - destruct (iteration_inv st st1 HI Hit) as [HI1 Hsl].
    destruct (IH st1 HI1) as (path & st' & k & Hl & HI' & Hk & Hp); [lia|].
    exists path, st', (S k). simpl. rewrite Hit.
    split; [done|]. split; [done|]. split; [done|]. done.
Qed.

Lemma search_run :
  ∃ path st' k,
    search alg idf end_ avoid_water g0 start =
      Some (path, closed_set st', graph st') ∧
    Inv idf end_ g0 start st' ∧
    after alg idf end_ avoid_water k (initial alg idf end_ g0 start) = Some st' ∧
    (path = [] ∨ last path = Some end_).
Proof.
  destruct initial_inv as [HI Hsl]. apply loop_run; [done|].
  rewrite Hsl. unfold fuel_of. lia.
Qed.

Lemma after_inv k : ∀ st st',
  Inv idf end_ g0 start st →
  after alg idf end_ avoid_water k st = Some st' → Inv idf end_ g0 start st'.
Proof.
  induction k as [|k IH]; intros st st' HI; simpl.
  - by intros [= <-].
  - destruct (iteration alg idf end_ avoid_water st) as [st1|c st1|st1] eqn:Hit;
      try done.
    apply IH. by apply (iteration_inv st st1).
Qed.
End Search.

(** ** Results of a search *)

(** C10: a search whose start and end are the same node returns the path
    made of that node alone and an empty closed set, whatever the terrain
    of the node; this holds for [dijkstra] and for [a_star]. *)
Theorem search_start_is_end (alg : algorithm) (idf : cell → Z) (g : Graph.t)
    (c : cell) (avoid_water : bool)
    (Hwf : well_formed g) (Hc : in_bounds g c = true) :
  (∃ g', dijkstra idf g c c avoid_water = Some ([c], ∅, g')) ∧
  (∃ g', a_star idf g c c avoid_water = Some ([c], ∅, g')) ∧
  (∃ g', search alg idf c avoid_water g c = Some ([c], ∅, g')).
Proof.
  assert (Hgen : ∀ alg', ∃ g', search alg' idf c avoid_water g c = Some ([c], ∅, g')).
  { intros alg'. destruct (initial_inv alg' idf c g c Hwf Hc) as [HI _].
    set (st := initial alg' idf c g c) in *.
    assert (Hopen : ∃ k, open_set st = [(k, idf c, c)] ∧ closed_set st = ∅).
    { unfold st, initial. destruct alg'; eauto. }
    destruct Hopen as (k & Hopen & Hclosed).
    assert (Hit : iteration alg' idf c avoid_water st =
                  Found c (State (graph st) [] (open_set_dict st) (closed_set st))).
    { unfold iteration. rewrite Hopen. simpl.
      by rewrite (wf_eq _ c c (inv_wf _ _ _ _ _ HI)), bool_decide_eq_true_2. }
    assert (Hpar : Node.parent (deref (graph st) c) = None).
    { destruct (Node.parent (deref (graph st) c)) as [p|] eqn:Hp; [|done].
      destruct (inv_parent _ _ _ _ _ HI _ _ Hp) as [Hin _].
      rewrite Hclosed in Hin. by apply not_elem_of_empty in Hin. }
    exists (graph st). unfold search, fuel_of. fold st. simpl. rewrite Hit. simpl.
    unfold reconstruct_path, fuel_of. simpl. rewrite Hpar.
    destruct (length _); simpl; by rewrite Hclosed. }
  split; [apply (Hgen Dijkstra)|]. split; [apply (Hgen AStar)|apply Hgen].
Qed.

Lemma search_start_is_end_witness :
  ∃ g', dijkstra id_up grid_2x1 (0, 0) (0, 0) true = Some ([(0, 0)], ∅, g').
Proof.
  assert (Hwf : well_formed grid_2x1)
    by (apply (bool_decide_unpack (well_formed _)); by vm_compute).
  assert (Hc : in_bounds grid_2x1 (0, 0) = true) by reflexivity.
  exact (proj1 (search_start_is_end Dijkstra id_up grid_2x1 (0, 0) true Hwf Hc)).
Defined.

(** C2, as the code has it: the closed set holds nodes of the grid that are
    walkable or are the start node, and the end node is never in it, whether
    a path is returned or not; a returned path is empty or ends at the end
    node.  This holds for [dijkstra] and [a_star] alike. *)
Theorem closed_set_spec (alg : algorithm) (idf : cell → Z) (g : Graph.t)
    (start end_ : cell) (avoid_water : bool)
    (Hwf : well_formed g) (Hstart : in_bounds g start = true)
    (Hids : distinct_ids idf g) :
  ∃ path closed g',
    search alg idf end_ avoid_water g start = Some (path, closed, g') ∧
    (∀ c, c ∈ closed →
       in_bounds g c = true ∧ (c = start ∨ Node.walkable (deref g c) = true)) ∧
    (end_ ∉ closed) ∧
    (path = [] ∨ last path = Some end_).
Proof.
  destruct (search_run alg idf end_ avoid_water g start Hwf Hstart Hids)
    as (path & st' & k & Hs & HI & _ & Hp).
  exists path, (closed_set st'), (graph st'). split; [done|]. split; [|split; [|done]].
  - intros c Hc. destruct (inv_closed _ _ _ _ _ HI c Hc) as (Hb & _ & Hw). done.
  - intros Hc. by destruct (inv_closed _ _ _ _ _ HI end_ Hc) as (_ & Hne & _).
Qed.

Lemma closed_set_spec_witness :
  ∃ path closed g',
    search Dijkstra id_up (1, 0) true grid_2x1 (0, 0) = Some (path, closed, g') ∧
    (∀ c, c ∈ closed →
       in_bounds grid_2x1 c = true ∧
       (c = (0, 0) ∨ Node.walkable (deref grid_2x1 c) = true)) ∧
    ((1, 0) ∉ closed) ∧
    (path = [] ∨ last path = Some (1, 0)).
Proof.
  apply closed_set_spec.
  - apply (bool_decide_unpack (well_formed _)). by vm_compute.
  - reflexivity.
  - apply (bool_decide_unpack (distinct_ids _ _)). by vm_compute.
Defined.

(** C2 as stated fails: from the unwalkable node [(0, 0)] to [(1, 0)] the
    search returns the path [(0, 0); (1, 0)] and the closed set [{(0, 0)}],
    which holds an unwalkable node and not the end node. *)
Lemma closed_set_claim_fails :
  ¬ closed_set_claim Dijkstra id_up grid_2x1 (0, 0) (1, 0) true.
Proof.
  intros H.
  assert (Hb : (fun r : list cell * gset cell * Graph.t =>
                  (r.1.1, bool_decide ((0, 0) ∈ r.1.2),
                   bool_decide ((1, 0) ∈ r.1.2))) <$>
               search Dijkstra id_up (1, 0) true grid_2x1 (0, 0) =
               Some ([(0, 0); (1, 0)], true, false)) by (by vm_compute).
  destruct (search Dijkstra id_up (1, 0) true grid_2x1 (0, 0))
    as [[[path closed] g']|] eqn:Hrun; [|done].
  simpl in Hb. injection Hb as -> Hin Hout.
  apply bool_decide_eq_true in Hin. apply bool_decide_eq_false in Hout.
  destruct (H _ closed g' Hrun) as [Hwalk Hiff].
  specialize (Hwalk (0, 0) Hin). by vm_compute in Hwalk.
Qed.

(** ** Parent links *)

Lemma relax_graph alg idf end_ current st n :
  graph (relax alg idf end_ current st n) = graph st ∨
  (cost_ltb (cost_add (Node.g_cost (deref (graph st) current))
               (get_terrain_cost (deref (graph st) current)
                  (deref (graph st) n)))
            (Node.g_cost (deref (graph st) n)) = true ∧
   graph (relax alg idf end_ current st n) =
     update (graph st) n
       (improve alg end_ (graph st) current n
          (cost_add (Node.g_cost (deref (graph st) current))
             (get_terrain_cost (deref (graph st) current)
                (deref (graph st) n))))).
Proof.
  unfold relax. destruct (bool_decide _); [by left|].
  destruct (cost_ltb _ _) eqn:Hlt; [|by left].
  right. split; [done|].
  set (g3 := match alg with Dijkstra => _ | AStar => _ end).
  assert (Hg3 : g3 = update (graph st) n
       (improve alg end_ (graph st) current n
          (cost_add (Node.g_cost (deref (graph st) current))
             (get_terrain_cost (deref (graph st) current)
                (deref (graph st) n))))).
  { unfold g3, improve. destruct alg; by rewrite !update_compose. }
  rewrite <- Hg3.
  destruct (open_set_dict st !! idf n) as [d|]; [destruct (negb _)|]; done.
Qed.

(** An assignment to [parent] comes with a strictly smaller [g_cost]. *)
Lemma relax_decreases alg idf end_ current st n m :
  Node.parent (deref (graph (relax alg idf end_ current st n)) m) ≠
    Node.parent (deref (graph st) m) →
  cost_ltb (Node.g_cost (deref (graph (relax alg idf end_ current st n)) m))
           (Node.g_cost (deref (graph st) m)) = true.
Proof.
  destruct (relax_graph alg idf end_ current st n) as [->|[Hlt ->]];
    [intros Hne; by destruct Hne|].
  destruct (decide (n = m)) as [->|Hne].
  - destruct (nodes_at (graph st) m) as [node|] eqn:Hm.
    + rewrite (deref_update_eq _ _ _ _ Hm). intros _.
      assert (Hd : deref (graph st) m = node) by (unfold deref; by rewrite Hm).
      rewrite Hd in Hlt |- *.
      by destruct (improve_props alg end_ (graph st) current m
                     (cost_add (Node.g_cost (deref (graph st) current))
                        (get_terrain_cost (deref (graph st) current) node)) node)
        as (_ & _ & _ & ->).
    + unfold deref. rewrite nodes_at_update, decide_True, Hm by done. simpl.
      intros Hp. by destruct Hp.
  - rewrite deref_update_ne by done. intros Hp. by destruct Hp.
Qed.

Lemma ancestor_below idf end_ g0 start st :
  Inv idf end_ g0 start st →
  ∀ j n a, ancestor (graph st) (S j) n = Some a →
  cost_ltb (Node.g_cost (deref (graph st) a))
           (Node.g_cost (deref (graph st) n)) = true.
Proof.
  intros HI. induction j as [|j IH]; intros n a; simpl.
  - destruct (Node.parent (deref (graph st) n)) as [p|] eqn:Hp; [|done].
    simpl. intros [= <-]. by apply (inv_parent _ _ _ _ _ HI).
  - destruct (Node.parent (deref (graph st) n)) as [p|] eqn:Hp; [|done].
    simpl. intros Ha. eapply cost_ltb_trans.
    + apply (IH p a). simpl. exact Ha.
    + by apply (inv_parent _ _ _ _ _ HI).
Qed.

(** C8: in every state a search reaches, whether by [dijkstra] or by
    [a_star], a node's parent has a strictly smaller [g_cost] than the node,
    so following parent links never comes back to a node and
    [reconstruct_path] terminates from every node; and whenever the loop
    body assigns a parent, the [g_cost] of the node assigned strictly
    decreases. *)
Theorem parent_links_well_founded (alg : algorithm) (idf : cell → Z)
    (g : Graph.t) (start end_ : cell) (avoid_water : bool) (k : nat)
    (st : state)
    (Hwf : well_formed g) (Hstart : in_bounds g start = true)
    (Hids : distinct_ids idf g)
    (Hreach : after alg idf end_ avoid_water k (initial alg idf end_ g start)
              = Some st) :
  (∀ n p, Node.parent (deref (graph st) n) = Some p →
     cost_ltb (Node.g_cost (deref (graph st) p))
              (Node.g_cost (deref (graph st) n)) = true) ∧
  (∀ j n, ancestor (graph st) (S j) n ≠ Some n) ∧
  (∀ c, is_Some (reconstruct_path (fuel_of (graph st)) (graph st) c)) ∧
  (∀ current n m,
     Node.parent (deref (graph (relax alg idf end_ current st n)) m) ≠
       Node.parent (deref (graph st) m) →
     cost_ltb (Node.g_cost (deref (graph (relax alg idf end_ current st n)) m))
              (Node.g_cost (deref (graph st) m)) = true).
Proof.
  destruct (initial_inv alg idf end_ g start Hwf Hstart) as [HI0 _].
  pose proof (after_inv alg idf end_ avoid_water g start Hids k _ _ HI0 Hreach)
    as HI.
  split; [|split; [|split]].
  - intros n p Hp. by apply (inv_parent _ _ _ _ _ HI).
  - intros j n Ha. pose proof (ancestor_below _ _ _ _ _ HI j n n Ha) as Hlt.
    by rewrite cost_ltb_irrefl in Hlt.
  - intros c. destruct (reconstruct_total idf end_ g start st c HI) as [rest ->].
    done.
  - intros current n m. apply relax_decreases.
Qed.

Lemma parent_links_well_founded_witness :
  match after AStar id_up (1, 2) true 2 (initial AStar id_up (1, 2) grid_3x3 (1, 0))
  with
  | Some st => ∀ j n, ancestor (graph st) (S j) n ≠ Some n
  | None => False
  end.
Proof.
  destruct (after AStar id_up (1, 2) true 2
              (initial AStar id_up (1, 2) grid_3x3 (1, 0))) as [st|] eqn:Hreach.
  - apply (parent_links_well_founded AStar id_up grid_3x3 (1, 0) (1, 2) true 2 st).
    + apply (bool_decide_unpack (well_formed _)). by vm_compute.
    + reflexivity.
    + apply (bool_decide_unpack (distinct_ids _ _)). by vm_compute.
    + exact Hreach.
  - vm_compute in Hreach. discriminate.
Defined.

(** ** Independence of the state left by earlier searches *)

Lemma search_erase alg idf end_ avoid_water g g' start :
  well_formed g → well_formed g' → erase g' = erase g →
  search alg idf end_ avoid_water g' start =
  search alg idf end_ avoid_water g start.
Proof.
  intros Hwf Hwf' He. unfold search, fuel_of, initial.
  by rewrite (erase_all_cells _ _ He), !reset_nodes_erase, He.
Qed.

(** C9: a search starts by resetting the search fields of every node, so
    its path, its closed set and the grid it leaves do not depend on what
    earlier searches left in those fields: on any grid [g'] that agrees with
    [g] outside the search fields the result is that on [g], and so is the
    result of running the search again on the grid [g1] it left. *)
Theorem search_ignores_leftover_state (alg : algorithm) (idf : cell → Z)
    (g g' : Graph.t) (start end_ : cell) (avoid_water : bool)
    (Hwf : well_formed g) (Hstart : in_bounds g start = true)
    (Hids : distinct_ids idf g)
    (Hwf' : well_formed g') (Hsame : erase g' = erase g) :
  ∃ path closed g1,
    search alg idf end_ avoid_water g start = Some (path, closed, g1) ∧
    search alg idf end_ avoid_water g' start = Some (path, closed, g1) ∧
    search alg idf end_ avoid_water g1 start = Some (path, closed, g1).
Proof.
  destruct (search_run alg idf end_ avoid_water g start Hwf Hstart Hids)
    as (path & st' & k & Hs & HI & _ & _).
  exists path, (closed_set st'), (graph st'). split; [done|]. split.
  - by rewrite (search_erase alg idf end_ avoid_water g g' start).
  - rewrite (search_erase alg idf end_ avoid_water g (graph st') start);
      [done|done|apply HI|apply HI].
Qed.

Lemma search_ignores_leftover_state_witness :
  ∃ path closed g1,
    dijkstra id_up grid_3x3 (1, 0) (1, 2) true = Some (path, closed, g1) ∧
    dijkstra id_up
      (match a_star id_down grid_3x3 (0, 0) (2, 2) false with
       | Some (_, _, g') => g'
       | None => grid_3x3
       end) (1, 0) (1, 2) true = Some (path, closed, g1) ∧
    dijkstra id_up g1 (1, 0) (1, 2) true = Some (path, closed, g1).
Proof.
  apply search_ignores_leftover_state.
  - apply (bool_decide_unpack (well_formed _)). by vm_compute.
  - reflexivity.
  - apply (bool_decide_unpack (distinct_ids _ _)). by vm_compute.
  - apply (bool_decide_unpack (well_formed _)). by vm_compute.
  - by vm_compute.
Defined.

(** ** Ties in the frontier *)

Lemma close_inv idf end_ g0 start st k i c rest :
  Inv idf end_ g0 start st →
  heappop (open_set st) = Some ((k, i, c), rest) → c ≠ end_ →
  Inv idf end_ g0 start
    (State (graph st) rest (open_set_dict st) ({[c]} ∪ closed_set st)).
Proof.
  intros HI Hpop Hne.
  destruct (pop_inv idf end_ g0 start st k i c rest HI Hpop) as (HI0 & _ & Hb & Hw).
  constructor; simpl; try apply HI0.
  - intros d [->%elem_of_singleton|Hd]%elem_of_union; [done|].
    by apply (inv_closed _ _ _ _ _ HI).
  - intros n p Hp. destruct (inv_parent _ _ _ _ _ HI _ _ Hp) as [Hpc Hlt].
    split; [|done]. apply elem_of_union. by right.
Qed.

Lemma neighbors_in_grid idf end_ g0 start st c avoid_water n :
  Inv idf end_ g0 start st →
  n ∈ get_neighbors (graph st) (deref (graph st) c) avoid_water →
  in_bounds g0 n = true ∧ Node.walkable (deref g0 n) = true.
Proof.
  intros HI Hn. apply get_neighbors_candidate in Hn as [Hnb Hnw].
  rewrite (erase_in_bounds _ _ n (inv_erase _ _ _ _ _ HI)) in Hnb. split; [done|].
  destruct (erase_static (graph st) g0 n (inv_erase _ _ _ _ _ HI))
    as (_ & _ & _ & Hwe). by rewrite <- Hwe.
Qed.

Section Order.
Variable alg : algorithm.
Variable idf idf' : cell → Z.
Variable end_ : cell.
Variable avoid_water : bool.
Variable g0 : Graph.t.
Variable start : cell.
Hypothesis Hwf : well_formed g0.
Hypothesis Hstart : in_bounds g0 start = true.
Hypothesis Hids : distinct_ids idf g0.
Hypothesis Hord : same_order idf idf' g0.

Lemma same_order_ltb c d :
  in_bounds g0 c = true → in_bounds g0 d = true →
  (idf c <? idf d) = (idf' c <? idf' d).
Proof.
  intros Hc Hd. unfold same_order in Hord. rewrite Forall_forall in Hord.
  apply elem_of_all_cells in Hc, Hd. specialize (Hord c Hc).
  rewrite Forall_forall in Hord. by apply Hord.
Qed.

Lemma ids_inj' c d :
  in_bounds g0 c = true → in_bounds g0 d = true → idf' c = idf' d → c = d.
Proof.
  intros Hc Hd Heq. apply (ids_inj idf g0 Hids c d Hc Hd).
  pose proof (same_order_ltb c d Hc Hd) as H1.
  pose proof (same_order_ltb d c Hd Hc) as H2.
  rewrite Heq in H1, H2. rewrite Z.ltb_irrefl in H1, H2.
  apply Z.ltb_ge in H1, H2. lia.
Qed.

Lemma distinct_ids' : distinct_ids idf' g0.
Proof.
  unfold distinct_ids in *. apply NoDup_fmap_2_strong.
  - intros c d Hc Hd. apply ids_inj'; by apply elem_of_all_cells.
  - by apply NoDup_fmap_1 in Hids.
Qed.

Lemma entry_ltb_rel e1 e1' e2 e2' :
  entry_rel idf idf' g0 e1 e1' → entry_rel idf idf' g0 e2 e2' →
  entry_ltb e1 e2 = entry_ltb e1' e2'.
Proof.
  intros (k1 & c1 & -> & -> & Hc1) (k2 & c2 & -> & -> & Hc2). unfold entry_ltb.
  destruct (negb (fnum_eqb k1 k2)); [done|].
  rewrite (same_order_ltb c1 c2 Hc1 Hc2).
  destruct (decide (c1 = c2)) as [->|Hne].
  - by rewrite !Z.eqb_refl.
  - assert (H1 : (idf c1 =? idf c2) = false).
    { apply Z.eqb_neq. intros Heq. by apply Hne, (ids_inj idf g0 Hids). }
    assert (H2 : (idf' c1 =? idf' c2) = false).
    { apply Z.eqb_neq. intros Heq. by apply Hne, ids_inj'. }
    by rewrite H1, H2.
Qed.

Lemma heappop_rel h h' :
  Forall2 (entry_rel idf idf' g0) h h' →
  match heappop h, heappop h' with
  | None, None => True
  | Some (m, r), Some (m', r') =>
      entry_rel idf idf' g0 m m' ∧ Forall2 (entry_rel idf idf' g0) r r'
  | _, _ => False
  end.
Proof.
  induction 1 as [|e e' h h' He Hh IH]; simpl; [done|].
  destruct (heappop h) as [[m r]|], (heappop h') as [[m' r']|]; try done.
  destruct IH as [Hm Hr]. rewrite (entry_ltb_rel m m' e e' Hm He).
  destruct (entry_ltb m' e'); split; try done. by constructor.
Qed.

Lemma relax_rel current st st' n :
  Inv idf end_ g0 start st → Inv idf' end_ g0 start st' →
  state_rel idf idf' g0 st st' → in_bounds g0 n = true →
  state_rel idf idf' g0 (relax alg idf end_ current st n)
                        (relax alg idf' end_ current st' n).
Proof.
  intros HI HI' (Hg & Hc & Ho & Hd) Hn.
  destruct (relax_cases alg idf end_ current st n (inv_wf _ _ _ _ _ HI)
              (fun m => inv_dict_self idf end_ g0 start Hids st n m HI Hn))
    as [[-> Hno]|(Hncl & Hlt & Hpush)];
  destruct (relax_cases alg idf' end_ current st' n (inv_wf _ _ _ _ _ HI')
              (fun m => inv_dict_self idf' end_ g0 start distinct_ids' st' n m HI' Hn))
    as [[-> Hno']|(Hncl' & Hlt' & Hpush')].
  - done.
  - exfalso. rewrite <- Hg, <- Hc in *.
    destruct Hno as [Hno|Hno]; [done|congruence].
  - exfalso. rewrite <- Hg, <- Hc in *.
    destruct Hno' as [Hno'|Hno']; [done|congruence].
  - rewrite <- Hg in *.
    destruct Hpush as [[Hnone ->]|[Hsome ->]];
      destruct Hpush' as [[Hnone' ->]|[Hsome' ->]].
    + split; [done|]. split; [done|]. split; simpl.
      * apply Forall2_app; [done|]. constructor; [|constructor].
        eexists _, n. done.
      * intros c Hcb. destruct (decide (c = n)) as [->|Hne].
        -- by rewrite !lookup_insert_eq.
        -- rewrite !lookup_insert_ne; [by apply Hd| |].
           ++ intros Heq. by apply Hne, ids_inj'.
           ++ intros Heq. by apply Hne, (ids_inj idf g0 Hids).
    + exfalso. apply (Hd n Hn) in Hnone. congruence.
    + exfalso. apply (Hd n Hn) in Hnone'. congruence.
    + done.
Qed.

Lemma relax_fold_rel current ns : ∀ st st',
  Inv idf end_ g0 start st → Inv idf' end_ g0 start st' →
  state_rel idf idf' g0 st st' → current ∈ closed_set st →
  (∀ n, n ∈ ns → in_bounds g0 n = true ∧ Node.walkable (deref g0 n) = true) →
  state_rel idf idf' g0 (foldl (relax alg idf end_ current) st ns)
                        (foldl (relax alg idf' end_ current) st' ns).
Proof.
  induction ns as [|n ns IH]; intros st st' HI HI' HR Hcur Hns; simpl; [done|].
  destruct (Hns n) as [Hb Hw]; [apply list_elem_of_here|].
  assert (Hcur' : current ∈ closed_set st').
  { destruct HR as (_ & <- & _). done. }
  destruct (relax_inv alg idf end_ g0 start Hids current st n HI Hcur Hb Hw)
    as (HI1 & Hcl & _).
  destruct (relax_inv alg idf' end_ g0 start distinct_ids' current st' n HI' Hcur' Hb Hw)
    as (HI1' & _ & _).
  apply IH; try done.
  - by apply relax_rel.
  - by rewrite Hcl.
  - intros m Hm. apply Hns. by apply list_elem_of_further.
Qed.

Lemma iteration_rel st st' :
  Inv idf end_ g0 start st → Inv idf' end_ g0 start st' →
  state_rel idf idf' g0 st st' →
  match iteration alg idf end_ avoid_water st,
        iteration alg idf' end_ avoid_water st' with
  | Exhausted s, Exhausted s' =>
      closed_set s = closed_set s' ∧ graph s = graph s'
  | Found c s, Found c' s' =>
      c = c' ∧ closed_set s = closed_set s' ∧ graph s = graph s'
  | Next s, Next s' => state_rel idf idf' g0 s s'
  | _, _ => False
  end.
Proof.
  intros HI HI' HR. pose proof HR as (Hg & Hc & Ho & Hd). unfold iteration.
  pose proof (heappop_rel _ _ Ho) as Hpop.
  destruct (heappop (open_set st)) as [[[[k i] c] rest]|] eqn:Hp;
    destruct (heappop (open_set st')) as [[[[k' i'] c'] rest']|] eqn:Hp';
    try done.
  destruct Hpop as [(k0 & c0 & [= -> -> ->] & [= -> -> ->] & Hb) Hrest].
  rewrite <- Hg, <- Hc.
  pose proof (inv_wf _ _ _ _ _ HI) as Hwfg.
  rewrite (wf_eq _ c0 end_ Hwfg), (wf_coords _ c0 Hwfg).
  destruct (bool_decide (c0 = end_)) eqn:Hend; [done|].
  apply bool_decide_eq_false in Hend.
  destruct (bool_decide (c0 ∈ closed_set st)) eqn:Hcl.
  { split; [done|]. split; [done|]. split; [done|]. exact Hd. }
  apply relax_fold_rel.
  - by apply (close_inv idf end_ g0 start st k0 (idf c0) c0 rest).
  - rewrite Hg, Hc. by apply (close_inv idf' end_ g0 start st' k0 (idf' c0) c0 rest').
  - split; [done|]. split; [done|]. split; [done|]. exact Hd.
  - simpl. apply elem_of_union. left. by apply elem_of_singleton.
  - intros n Hn. by apply (neighbors_in_grid idf end_ g0 start st c0 avoid_water n).
Qed.

Lemma loop_rel fuel : ∀ st st',
  Inv idf end_ g0 start st → Inv idf' end_ g0 start st' →
  state_rel idf idf' g0 st st' →
  loop alg idf end_ avoid_water fuel st = loop alg idf' end_ avoid_water fuel st'.
Proof.
  induction fuel as [|fuel IH]; intros st st' HI HI' HR; simpl; [done|].
  pose proof (iteration_rel st st' HI HI' HR) as Hit.
  destruct (iteration alg idf end_ avoid_water st) as [s|c s|s] eqn:H1;
    destruct (iteration alg idf' end_ avoid_water st') as [s'|c' s'|s'] eqn:H2;
    try done.
  - destruct Hit as [-> ->]. done.
  - destruct Hit as (-> & -> & ->). done.
  - apply IH; [| |done].
    + by apply (iteration_inv alg idf end_ avoid_water g0 start Hids st s).
    + by apply (iteration_inv alg idf' end_ avoid_water g0 start distinct_ids' st' s').
Qed.

Lemma initial_rel :
  state_rel idf idf' g0 (initial alg idf end_ g0 start)
                        (initial alg idf' end_ g0 start).
Proof.
  assert (Hgen : ∀ g k,
    state_rel idf idf' g0
      (State g [(k, idf start, start)] {[idf start := start]} ∅)
      (State g [(k, idf' start, start)] {[idf' start := start]} ∅)).
  { intros g k. repeat split; simpl.
    - constructor; [|constructor]. by eexists _, _.
    - intros Hnone. destruct (decide (c = start)) as [->|Hne].
      + by rewrite lookup_singleton_eq in Hnone.
      + apply lookup_singleton_ne. intros Heq. by apply Hne, ids_inj'.
    - intros Hnone. destruct (decide (c = start)) as [->|Hne].
      + by rewrite lookup_singleton_eq in Hnone.
      + apply lookup_singleton_ne. intros Heq.
        by apply Hne, (ids_inj idf g0 Hids). }
  unfold initial. destruct alg; apply Hgen.
Qed.

Lemma search_rel :
  search alg idf end_ avoid_water g0 start =
  search alg idf' end_ avoid_water g0 start.
Proof.
  unfold search. apply loop_rel.
  - apply (initial_inv alg idf end_ g0 start Hwf Hstart).
  - apply (initial_inv alg idf' end_ g0 start Hwf Hstart).
  - apply initial_rel.
Qed.
End Order.

(** C4, as the code has it: the second component of a frontier tuple is the
    identity [id(node)] of the node, not an insertion counter; ties on the
    key are decided by these identities.  The path and the closed set (and
    the grid left) are the same for two assignments of identities that order
    the nodes of the grid the same way, for [dijkstra] and [a_star] alike. *)
Theorem ties_broken_by_identity (alg : algorithm) (idf idf' : cell → Z)
    (g : Graph.t) (start end_ : cell) (avoid_water : bool) (k : nat)
    (Hwf : well_formed g) (Hstart : in_bounds g start = true)
    (Hids : distinct_ids idf g) (Hord : same_order idf idf' g) :
  (∃ path closed g',
     search alg idf end_ avoid_water g start = Some (path, closed, g') ∧
     search alg idf' end_ avoid_water g start = Some (path, closed, g')) ∧
  match after alg idf end_ avoid_water k (initial alg idf end_ g start) with
  | Some st => Forall (fun e : entry => e.1.2 = idf e.2) (open_set st)
  | None => True
  end.
Proof.
  split.
  - destruct (search_run alg idf end_ avoid_water g start Hwf Hstart Hids)
      as (path & st' & _ & Hs & _).
    exists path, (closed_set st'), (graph st'). split; [done|].
    by rewrite <- (search_rel alg idf idf' end_ avoid_water g start Hwf Hstart
                     Hids Hord).
  - destruct (after alg idf end_ avoid_water k (initial alg idf end_ g start))
      as [st|] eqn:Hreach; [|done].
    destruct (initial_inv alg idf end_ g start Hwf Hstart) as [HI0 _].
    pose proof (after_inv alg idf end_ avoid_water g start Hids k _ _ HI0 Hreach)
      as HI.
    apply Forall_forall. intros [[key i] c] He. simpl.
    by destruct (inv_open _ _ _ _ _ HI key i c He) as (_ & -> & _).
Qed.

Lemma ties_broken_by_identity_witness :
  ∃ path closed g',
    search Dijkstra id_up (1, 2) true grid_3x3 (1, 0) = Some (path, closed, g') ∧
    search Dijkstra id_up' (1, 2) true grid_3x3 (1, 0) = Some (path, closed, g').
Proof.
  apply (ties_broken_by_identity Dijkstra id_up id_up' grid_3x3 (1, 0) (1, 2)
           true 0).
  - apply (bool_decide_unpack (well_formed _)). by vm_compute.
  - reflexivity.
  - apply (bool_decide_unpack (distinct_ids _ _)). by vm_compute.
  - apply (bool_decide_unpack (same_order _ _ _)). by vm_compute.
Defined.

(** C4 as stated fails: on the grid of three by three nodes with water in
    the middle, from [(1, 0)] to [(1, 2)], the nodes [(0, 1)] and [(2, 1)]
    enter the frontier with the same key; with the identities [id_up] the
    path goes through [(0, 1)], with [id_down] through [(2, 1)]. *)
Lemma identity_free_claim_fails :
  ¬ identity_free_claim Dijkstra grid_3x3 (1, 0) (1, 2) true.
Proof.
  intros H. specialize (H id_up id_down).
  assert (H1 : distinct_ids id_up grid_3x3)
    by (apply (bool_decide_unpack (distinct_ids _ _)); by vm_compute).
  assert (H2 : distinct_ids id_down grid_3x3)
    by (apply (bool_decide_unpack (distinct_ids _ _)); by vm_compute).
  specialize (H H1 H2).
  apply (f_equal (fmap fst)) in H. vm_compute in H. discriminate H.
Qed.

(** ** Stale keys *)

(** In every state a search reaches a node has at most one tuple in the
    frontier. *)
Lemma frontier_nodup alg idf g start end_ avoid_water k st :
  well_formed g → in_bounds g start = true → distinct_ids idf g →
  after alg idf end_ avoid_water k (initial alg idf end_ g start) = Some st →
  NoDup ((fun e : entry => e.2) <$> open_set st) ∧
  NoDup ((fun e : entry => e.1.2) <$> open_set st).
Proof.
  intros Hwf Hstart Hids Hreach.
  destruct (initial_inv alg idf end_ g start Hwf Hstart) as [HI0 _].
  pose proof (after_inv alg idf end_ avoid_water g start Hids k _ _ HI0 Hreach)
    as HI.
  pose proof (inv_nodup _ _ _ _ _ HI) as Hnd. split; [done|].
  assert (Heq : (fun e : entry => e.1.2) <$> open_set st =
                idf <$> ((fun e : entry => e.2) <$> open_set st)).
  { rewrite <- list_fmap_compose. apply list_fmap_ext.
    intros _ [[key i] c] He%list_elem_of_lookup_2. simpl.
    by destruct (inv_open _ _ _ _ _ HI key i c He) as (_ & -> & _). }
  rewrite Heq. apply NoDup_fmap_2_strong; [|done].
  intros c d Hc Hd. apply (ids_inj idf g Hids).
  - apply list_elem_of_fmap in Hc as ([[key i] c'] & -> & He).
    by destruct (inv_open _ _ _ _ _ HI key i c' He) as (Hb & _).
  - apply list_elem_of_fmap in Hd as ([[key i] d'] & -> & He).
    by destruct (inv_open _ _ _ _ _ HI key i d' He) as (Hb & _).
Qed.

(** A tuple popped for a node that is already closed is dropped: the grid
    and the closed set stay as they are. *)
Lemma closed_entry_discarded alg idf end_ avoid_water st k i c rest :
  well_formed (graph st) →
  heappop (open_set st) = Some ((k, i, c), rest) →
  c ≠ end_ → c ∈ closed_set st →
  iteration alg idf end_ avoid_water st =
    Next (State (graph st) rest (open_set_dict st) (closed_set st)).
Proof.
  intros Hwf Hpop Hne Hin. unfold iteration. rewrite Hpop.
  rewrite (wf_eq _ c end_ Hwf), (wf_coords _ c Hwf).
  by rewrite bool_decide_eq_false_2, bool_decide_eq_true_2.
Qed.

(** C3 at the input where it fails: on [grid_2x4], searching from [(1, 3)]
    to [(1, 0)], the node [(1, 1)] is pushed with the key [3.2 * sqrt 2]
    when [(0, 2)] is expanded; expanding [(1, 2)] next improves its [g_cost]
    to [3.5], the node is not closed, and no tuple is pushed: the frontier
    keeps the one tuple with the old key. *)
Theorem improved_node_not_pushed :
  match after Dijkstra id_up (1, 0) true 2 (initial Dijkstra id_up (1, 0) grid_2x4 (1, 3)),
        after Dijkstra id_up (1, 0) true 3 (initial Dijkstra id_up (1, 0) grid_2x4 (1, 3))
  with
  | Some st2, Some st3 =>
      Node.g_cost (deref (graph st2) (1, 1)) = Fin 0 32 ∧
      Node.g_cost (deref (graph st3) (1, 1)) = Fin 35 0 ∧
      cost_ltb (Fin 35 0) (Fin 0 32) = true ∧
      ((1, 1) ∉ closed_set st3) ∧
      frontier_entries st2 (1, 1) = [(Plus (Fin 0 32) (Sqrt 0), 101, (1, 1))] ∧
      frontier_entries st3 (1, 1) = [(Plus (Fin 0 32) (Sqrt 0), 101, (1, 1))]
  | _, _ => False
  end.
Proof.
  destruct (after Dijkstra id_up (1, 0) true 2 _) as [st2|] eqn:H2;
    [|by vm_compute in H2].
  destruct (after Dijkstra id_up (1, 0) true 3 _) as [st3|] eqn:H3;
    [|by vm_compute in H3].
  vm_compute in H2. injection H2 as <-.
  vm_compute in H3. injection H3 as <-.
  split; [by vm_compute|]. split; [by vm_compute|]. split; [by vm_compute|].
  split; [|split; by vm_compute].
  apply (bool_decide_unpack (_ ∉ _)). by vm_compute.
Qed.

(** C1 at the input where it fails: on [grid_2x4] from [(1, 3)] to [(1, 0)]
    [dijkstra] returns the path through [(0, 2)] and [(0, 1)], whose cost
    [2.5 + 1.4 * sqrt 2] is the [g_cost] of the end node, while the path
    through [(1, 2)] and [(1, 1)] costs [4.2], which is less.  The order of
    the identities plays no part. *)
Theorem dijkstra_returns_costlier_path :
  (∃ closed g',
     dijkstra id_up grid_2x4 (1, 3) (1, 0) true =
       Some ([(1, 3); (0, 2); (0, 1); (1, 0)], closed, g') ∧
     path_cost g' [(1, 3); (0, 2); (0, 1); (1, 0)] = Fin 25 14 ∧
     Node.g_cost (deref g' (1, 0)) = Fin 25 14) ∧
  (∃ closed g',
     dijkstra id_down grid_2x4 (1, 3) (1, 0) true =
       Some ([(1, 3); (0, 2); (0, 1); (1, 0)], closed, g')) ∧
  is_path grid_2x4 true (1, 3) (1, 0) [(1, 3); (1, 2); (1, 1); (1, 0)] = true ∧
  path_cost grid_2x4 [(1, 3); (1, 2); (1, 1); (1, 0)] = Fin 42 0 ∧
  cost_ltb (Fin 42 0) (Fin 25 14) = true ∧
  (cost_R 42 0 < cost_R 25 14)%R.
Proof.
  split; [|split; [|split; [|split; [|split]]]].
  - destruct (dijkstra id_up grid_2x4 (1, 3) (1, 0) true)
      as [[[path closed] g']|] eqn:Hrun; [|by vm_compute in Hrun].
    vm_compute in Hrun. injection Hrun as <- <- <-.
    eexists _, _. split; [reflexivity|]. split; by vm_compute.
  - destruct (dijkstra id_down grid_2x4 (1, 3) (1, 0) true)
      as [[[path closed] g']|] eqn:Hrun; [|by vm_compute in Hrun].
    vm_compute in Hrun. injection Hrun as <- <- <-.
    eexists _, _. reflexivity.
  - by vm_compute.
  - by vm_compute.
  - by vm_compute.
  - by apply cost_ltb_R.
Qed.

(** The claim of optimality fails on that grid. *)
Lemma optimality_claim_fails :
  ¬ optimality_claim id_up grid_2x4 (1, 3) (1, 0) true.
Proof.
  intros H.
  destruct (dijkstra id_up grid_2x4 (1, 3) (1, 0) true)
    as [[[path closed] g']|] eqn:Hrun; [|by vm_compute in Hrun].
  destruct (H path closed g' Hrun) as [_ Hopt].
  - vm_compute in Hrun. by injection Hrun as <- _ _.
  - specialize (Hopt [(1, 3); (1, 2); (1, 1); (1, 0)]).
    vm_compute in Hrun. injection Hrun as <- <- <-.
    vm_compute in Hopt. by specialize (Hopt eq_refl).
Qed.

(** ** Keys: agreement with the real numbers *)

Section KeyOrder.
Local Open Scope R_scope.




Lemma sign_of_range z x : sign_of z x → (z < 0 ∨ z = 0 ∨ 0 < z)%Z.
Proof. lia. Qed.











End KeyOrder.

(** ** The tuple popped is the least one *)









(** * Further properties of the code *)

(** ** The catalog *)

Lemma catalog_lookup k :
  Terrain._terrain_types !! k =
  if decide (k = "normal") then Some Terrain.NORMAL
  else if decide (k = "grass") then Some Terrain.GRASS
  else if decide (k = "sand") then Some Terrain.SAND
  else if decide (k = "water") then Some Terrain.WATER
  else if decide (k = "mountain") then Some Terrain.MOUNTAIN
  else if decide (k = "road") then Some Terrain.ROAD
  else None.
Proof.
  unfold Terrain._terrain_types.
  repeat (rewrite lookup_insert; destruct (decide (_ = k)) as [<-|?];
          [done|rewrite decide_False by done]).
  apply lookup_empty.
Qed.

(** X1: an entry of the catalog is filed under its own name, which is in
    lower case: looking up the name of whatever a lookup returned returns
    the same entry, and [get_available_terrains] has it under that name.
    The table has six entries. *)
Theorem catalog_name_round_trip (s : string) :
  Terrain.get_terrain (TerrainType.name (Terrain.get_terrain s)) =
    Terrain.get_terrain s ∧
  lower (TerrainType.name (Terrain.get_terrain s)) =
    TerrainType.name (Terrain.get_terrain s) ∧
  get_available_terrains !! TerrainType.name (Terrain.get_terrain s) =
    Some (Terrain.get_terrain s) ∧
  size get_available_terrains = 6%nat.
Proof.
  pose proof (catalog_cases s) as H.
  repeat (apply elem_of_cons in H as [->|H]; [by vm_compute|]).
  by apply elem_of_nil in H.
Qed.

(** X2: ['water'], in any case of its letters, is the only name that is not
    walkable and the only one whose cost is infinite; every other name,
    known or not, is walkable and has a multiplier between [0.7] and
    [2.5]. *)
Theorem water_is_the_only_obstacle (s : string) :
  (Terrain.is_walkable s = false ↔ lower s = "water") ∧
  (Terrain.get_terrain_cost s = Inf ↔ lower s = "water") ∧
  (lower s = "water" ∨
   ∃ t, 7 ≤ t ≤ 25 ∧ Terrain.get_terrain_cost s = Fin t 0 ∧
        Terrain.is_walkable s = true).
Proof.
  unfold Terrain.is_walkable, Terrain.get_terrain_cost, Terrain.get_terrain.
  rewrite catalog_lookup.
  destruct (decide (lower s = "water")) as [Hw|Hw].
  { rewrite Hw. simpl. split; [done|]. split; [done|]. by left. }
  repeat case_decide; simpl;
    (split; [split; [done|by intros ?]|]; split; [split; [done|by intros ?]|];
     right; eexists; split; [|split; reflexivity]; lia).
Qed.

(** ** The grid *)

Lemma nodes_at_init width height c :
  in_bounds (Graph__init__ width height) c = true →
  nodes_at (Graph__init__ width height) c = Some (Node.__init__ c.1 c.2).
Proof.
  unfold in_bounds. simpl.
  rewrite !andb_true_iff, !Z.leb_le, !Z.ltb_lt. intros [[[Hx Hxw] Hy] Hyh].
  unfold nodes_at. simpl.
  rewrite (proj2 (Z.leb_le 0 c.1)), (proj2 (Z.leb_le 0 c.2)) by done. simpl.
  unfold range.
  rewrite list_lookup_fmap, lookup_seqZ_lt by lia. simpl.
  rewrite list_lookup_fmap, lookup_seqZ_lt by lia. simpl.
  do 2 f_equal; lia.
Qed.

(** X3: on a grid just created, [get_node] returns the node [Node(x, y)]
    with its default fields at every position inside the grid and [None]
    at every other position, negative coordinates included. *)
Theorem get_node_fresh (width height x y : Z) :
  get_node (Graph__init__ width height) x y =
  if bool_decide (0 ≤ x < width ∧ 0 ≤ y < height)
  then Some (Node.__init__ x y) else None.
Proof.
  unfold get_node.
  destruct (in_bounds (Graph__init__ width height) (x, y)) eqn:Hb.
  - rewrite nodes_at_init by done. simpl.
    rewrite bool_decide_eq_true_2; [done|].
    unfold in_bounds in Hb. simpl in Hb.
    rewrite !andb_true_iff, !Z.leb_le, !Z.ltb_lt in Hb. lia.
  - rewrite bool_decide_eq_false_2; [done|]. intros H.
    unfold in_bounds in Hb. simpl in Hb.
    rewrite !andb_false_iff, !Z.leb_gt, !Z.ltb_ge in Hb. lia.
Qed.

(** X4: [set_terrain] changes the node at its position and no other: there
    [get_node] returns the node with the new terrain name and the
    walkability the catalog gives for it, elsewhere what it returned
    before; outside the grid [set_terrain] does nothing at all. *)
Theorem get_node_set_terrain (g : Graph.t) (x y : Z) (s : string) (x' y' : Z) :
  get_node (set_terrain g x y s) x' y' =
    (if bool_decide ((x', y') = (x, y))
     then (fun n => Node.set_walkable (Terrain.is_walkable s)
                      (Node.set_terrain_type s n)) <$> get_node g x y
     else get_node g x' y') ∧
  (in_bounds g (x, y) = false → set_terrain g x y s = g).
Proof.
  split.
  - unfold get_node. rewrite in_bounds_set_terrain, nodes_at_set_terrain.
    case_bool_decide as Hc.
    + injection Hc as Hx Hy. subst x' y'. rewrite bool_decide_eq_true_2 by done.
      by destruct (in_bounds g (x, y)).
    + rewrite bool_decide_eq_false_2 by (intros [= -> ->]; by apply Hc).
      by rewrite andb_false_r.
  - intros Hb. unfold set_terrain. by rewrite Hb.
Qed.

(** ** Neighbours *)

Lemma walkable_not_water s :
  Terrain.is_walkable s = true → String.eqb s "water" = false.
Proof.
  intros H. destruct (String.eqb_spec s "water") as [->|]; [|done].
  by vm_compute in H.
Qed.

Lemma walkable_cost s :
  Terrain.is_walkable s = true →
  ∃ t, 0 < t ∧ Terrain.get_terrain_cost s = Fin t 0.
Proof.
  intros H. destruct (catalog_cost s) as [?|[_ Hw]]; [done|congruence].
Qed.

Lemma surrounding_nodup node : NoDup (surrounding node).
Proof.
  unfold surrounding, directions. simpl.
  repeat (apply NoDup_cons; split;
          [rewrite ?elem_of_cons, elem_of_nil; intros H;
           repeat (destruct H as [H|H]; [injection H; lia|]); done|]).
  apply NoDup_nil_2.
Qed.

Lemma surrounding_adjacent node c :
  c ∈ surrounding node → adjacent (Node.coords node) c.
Proof.
  unfold surrounding, directions, adjacent. simpl.
  rewrite ?elem_of_cons, elem_of_nil. intros H.
  repeat (destruct H as [H|H]; [subst c; simpl; lia|]). done.
Qed.

Lemma neighbors_spec_cases g node a :
  neighbors_spec g node a = safe_group g node ∨
  neighbors_spec g node a = safe_group g node ++ hazard_group g node.
Proof.
  unfold neighbors_spec. destruct a, (safe_group g node); auto.
Qed.

Lemma neighbors_spec_elem g node a c :
  c ∈ neighbors_spec g node a →
  c ∈ surrounding node ∧ candidate g c = true.
Proof.
  assert (Hs : ∀ c, c ∈ safe_group g node →
                    c ∈ surrounding node ∧ candidate g c = true).
  { intros d [_ Hd%list_elem_of_filter]%list_elem_of_filter. tauto. }
  assert (Hh : ∀ c, c ∈ hazard_group g node →
                    c ∈ surrounding node ∧ candidate g c = true).
  { intros d [_ Hd%list_elem_of_filter]%list_elem_of_filter. tauto. }
  destruct (neighbors_spec_cases g node a) as [->| ->]; [auto|].
  intros [?|?]%elem_of_app; auto.
Qed.

Lemma neighbors_spec_nodup g node a : NoDup (neighbors_spec g node a).
Proof.
  assert (Hs : NoDup (safe_group g node)).
  { apply NoDup_filter, NoDup_filter, surrounding_nodup. }
  assert (Hh : NoDup (hazard_group g node)).
  { apply NoDup_filter, NoDup_filter, surrounding_nodup. }
  assert (Hsh : NoDup (safe_group g node ++ hazard_group g node)).
  { apply NoDup_app. split; [done|]. split; [|done].
    intros c [Hc _]%list_elem_of_filter [Hc' _]%list_elem_of_filter.
    congruence. }
  by destruct (neighbors_spec_cases g node a) as [->| ->].
Qed.

Lemma neighbors_spec_length g node a :
  (length (neighbors_spec g node a) ≤ 8)%nat.
Proof.
  assert (Hl : (length (safe_group g node ++ hazard_group g node) ≤ 8)%nat).
  { unfold safe_group, hazard_group.
    set (l := filter _ (surrounding node)).
    assert (Hlen : (length l ≤ 8)%nat).
    { unfold l. etrans; [apply length_filter|]. by vm_compute. }
    clearbody l. revert Hlen. generalize 8%nat.
    induction l as [|c l IH]; intros n Hn; simpl in *; [lia|].
    rewrite !filter_cons. destruct n; [lia|].
    specialize (IH n ltac:(lia)).
    repeat case_decide; simpl; rewrite ?length_app in *; simpl;
      try lia; congruence. }
  destruct (neighbors_spec_cases g node a) as [->| ->]; [|done].
  rewrite length_app in Hl. lia.
Qed.

(** X5: the nodes [get_neighbors] returns are next to the node (the node
    itself is never among them), inside the grid and walkable; no node is
    returned twice and there are at most eight. *)
Theorem get_neighbors_sound (g : Graph.t) (node : Node.t) (avoid_water : bool) :
  NoDup (get_neighbors g node avoid_water) ∧
  (length (get_neighbors g node avoid_water) ≤ 8)%nat ∧
  ∀ c, c ∈ get_neighbors g node avoid_water →
       adjacent (Node.coords node) c ∧ c ≠ Node.coords node ∧
       in_bounds g c = true ∧ Node.walkable (deref g c) = true.
Proof.
  rewrite get_neighbors_filter.
  split; [apply neighbors_spec_nodup|]. split; [apply neighbors_spec_length|].
  intros c [Hc Hcand]%neighbors_spec_elem.
  apply surrounding_adjacent in Hc as Hadj.
  split; [done|]. split.
  - intros ->. unfold adjacent in Hadj. lia.
  - by apply andb_true_iff in Hcand.
Qed.

(** X6: what [avoid_water] changes.  The list returned with the flag set
    is the beginning of the list returned without it; what is left out is
    water, and it is left out only if something else is returned. *)
Theorem get_neighbors_avoid_water (g : Graph.t) (node : Node.t) :
  get_neighbors g node true `prefix_of` get_neighbors g node false ∧
  (∀ c, c ∈ get_neighbors g node false → c ∉ get_neighbors g node true →
        Node.terrain_type (deref g c) = "water" ∧
        ∃ d, d ∈ get_neighbors g node true ∧
             Node.terrain_type (deref g d) ≠ "water") ∧
  (∀ c d, c ∈ get_neighbors g node true → d ∈ get_neighbors g node true →
          Node.terrain_type (deref g c) = "water" →
          Node.terrain_type (deref g d) = "water").
Proof.
  rewrite !get_neighbors_filter. unfold neighbors_spec.
  assert (Hs : ∀ c, c ∈ safe_group g node →
                    Node.terrain_type (deref g c) ≠ "water").
  { intros c [Hc _]%list_elem_of_filter. unfold is_hazard in Hc.
    by apply String.eqb_neq in Hc. }
  assert (Hh : ∀ c, c ∈ hazard_group g node →
                    Node.terrain_type (deref g c) = "water").
  { intros c [Hc _]%list_elem_of_filter. unfold is_hazard in Hc.
    by apply String.eqb_eq in Hc. }
  destruct (safe_group g node) as [|d l] eqn:E; simpl.
  - split; [done|]. split; [done|].
    intros c d _ Hd _. by apply Hh.
  - split; [by eexists|]. split.
    + intros c Hc Hn. change (c ∈ (d :: l) ++ hazard_group g node) in Hc.
      apply elem_of_app in Hc as [Hc|Hc]; [done|]. split; [by apply Hh|].
      exists d. split; [left|apply Hs; left].
    + intros c d' Hc _ Hw. by apply Hs in Hc.
Qed.

(** ** Grids whose walkability flags follow the catalog *)

Lemma consistent_deref g c :
  consistent g →
  Node.walkable (deref g c) =
  Terrain.is_walkable (Node.terrain_type (deref g c)).
Proof.
  intros Hc. unfold deref, nodes_at.
  destruct ((0 <=? c.1) && (0 <=? c.2)); [|done].
  destruct (Graph.nodes g !! Z.to_nat c.1) as [col|] eqn:E1; [|done]. simpl.
  destruct (col !! Z.to_nat c.2) as [n|] eqn:E2; [|done]. simpl.
  unfold consistent in Hc.
  rewrite Forall_lookup in Hc. specialize (Hc _ _ E1).
  rewrite Forall_lookup in Hc. by apply (Hc _ _ E2).
Qed.

Lemma consistent_no_hazard g c :
  consistent g → candidate g c = true → is_hazard g c = false.
Proof.
  intros Hc [_ Hw]%andb_true_iff. unfold is_hazard.
  apply walkable_not_water. by rewrite <- consistent_deref.
Qed.

Lemma consistent_hazard_group g node : consistent g → hazard_group g node = [].
Proof.
  intros Hc. unfold hazard_group.
  induction (surrounding node) as [|c l IH]; [done|].
  rewrite filter_cons. case_decide as Hcand; [|done].
  rewrite filter_cons, decide_False; [done|].
  by rewrite consistent_no_hazard.
Qed.

Lemma consistent_neighbors g node a b :
  consistent g → get_neighbors g node a = get_neighbors g node b.
Proof.
  intros Hc. rewrite !get_neighbors_filter. unfold neighbors_spec.
  rewrite consistent_hazard_group, app_nil_r by done.
  by destruct a, b, (safe_group g node).
Qed.

Lemma consistent_update g c f :
  (∀ n, Node.walkable (f n) = Node.walkable n ∧
        Node.terrain_type (f n) = Node.terrain_type n) →
  consistent g → consistent (update g c f).
Proof.
  intros Hf Hc. unfold update.
  destruct ((0 <=? c.1) && (0 <=? c.2)); [|done].
  unfold consistent in *. simpl.
  apply Forall_alter; [done|]. intros col _ Hcol.
  apply Forall_alter; [done|]. intros n _ Hn.
  destruct (Hf n) as [-> ->]. done.
Qed.

Lemma consistent_foldl_update g cs f :
  (∀ n, Node.walkable (f n) = Node.walkable n ∧
        Node.terrain_type (f n) = Node.terrain_type n) →
  consistent g → consistent (foldl (fun g c => update g c f) g cs).
Proof.
  intros Hf. revert g.
  induction cs as [|c cs IH]; intros g Hc; simpl; [done|].
  by apply IH, consistent_update.
Qed.

Lemma consistent_reset_nodes g : consistent g → consistent (reset_nodes g).
Proof.
  intros Hc. rewrite reset_nodes_flat.
  apply consistent_foldl_update; [|done]. by intros [].
Qed.

Lemma improve_static alg end_ g current n t m :
  Node.walkable (improve alg end_ g current n t m) = Node.walkable m ∧
  Node.terrain_type (improve alg end_ g current n t m) = Node.terrain_type m.
Proof. by destruct alg, m. Qed.

Lemma consistent_relax alg idf end_ current st n :
  consistent (graph st) →
  consistent (graph (relax alg idf end_ current st n)).
Proof.
  intros Hc.
  destruct (relax_graph alg idf end_ current st n) as [->|[_ ->]]; [done|].
  apply consistent_update; [|done]. intros m. apply improve_static.
Qed.

Lemma consistent_relax_fold alg idf end_ current ns : ∀ st,
  consistent (graph st) →
  consistent (graph (foldl (relax alg idf end_ current) st ns)).
Proof.
  induction ns as [|n ns IH]; intros st Hc; simpl; [done|].
  by apply IH, consistent_relax.
Qed.

Lemma consistent_iteration alg idf end_ a b st :
  consistent (graph st) →
  iteration alg idf end_ a st = iteration alg idf end_ b st ∧
  ∀ st', iteration alg idf end_ a st = Next st' → consistent (graph st').
Proof.
  intros Hc. unfold iteration.
  destruct (heappop (open_set st)) as [[[[k i] c] rest]|]; [|done].
  destruct (Node.__eq__ _ _); [done|].
  destruct (bool_decide _).
  - split; [done|]. by intros st' [= <-].
  - rewrite (consistent_neighbors _ _ a b) by done. split; [done|].
    intros st' [= <-]. by apply consistent_relax_fold.
Qed.

Lemma consistent_loop alg idf end_ a b fuel : ∀ st,
  consistent (graph st) →
  loop alg idf end_ a fuel st = loop alg idf end_ b fuel st.
Proof.
  induction fuel as [|fuel IH]; intros st Hc; simpl; [done|].
  destruct (consistent_iteration alg idf end_ a b st Hc) as [<- Hn].
  destruct (iteration alg idf end_ a st) as [| |st']; [done|done|].
  by apply IH, Hn.
Qed.

Lemma consistent_initial alg idf end_ g start :
  consistent g → consistent (graph (initial alg idf end_ g start)).
Proof.
  intros Hc. apply consistent_reset_nodes in Hc.
  unfold initial.
  destruct alg; simpl; repeat (apply consistent_update; [by intros []|]); done.
Qed.

Lemma consistent_init width height : consistent (Graph__init__ width height).
Proof.
  unfold consistent. simpl.
  apply Forall_fmap, Forall_forall. intros x _.
  apply Forall_fmap, Forall_forall. by intros y _.
Qed.

Lemma consistent_set_terrain g x y s :
  consistent g → consistent (set_terrain g x y s).
Proof.
  intros Hc. unfold set_terrain. destruct (in_bounds g (x, y)); [|done].
  rewrite update_compose. unfold update.
  destruct ((0 <=? (x, y).1) && (0 <=? (x, y).2)); [|done].
  unfold consistent in *. simpl.
  apply Forall_alter; [done|]. intros col _ Hcol.
  apply Forall_alter; [done|]. by intros n _ _.
Qed.

Lemma consistent_build width height ops : consistent (build width height ops).
Proof.
  induction ops as [|[[x y] s] ops IH]; simpl.
  - apply consistent_init.
  - by apply consistent_set_terrain.
Qed.

(** X7: on a grid whose walkability flags are the ones the catalog gives
    (every grid made by [Graph(...)] and [set_terrain]), a walkable node is
    never water, so [get_neighbors] returns the same list with and without
    [avoid_water], and both searches return the same result for either
    value of the flag. *)
Theorem avoid_water_has_no_effect (alg : algorithm) (idf : cell → Z)
    (g : Graph.t) (start end_ : cell) (node : Node.t)
    (Hc : consistent g) :
  (∀ c, in_bounds g c = true → Node.walkable (deref g c) = true →
        Node.terrain_type (deref g c) ≠ "water") ∧
  get_neighbors g node true = get_neighbors g node false ∧
  search alg idf end_ true g start = search alg idf end_ false g start.
Proof.
  split; [|split].
  - intros c _ Hw. rewrite consistent_deref in Hw by done.
    apply walkable_not_water in Hw. by apply String.eqb_neq in Hw.
  - by apply consistent_neighbors.
  - apply consistent_loop. by apply consistent_initial.
Qed.

Lemma avoid_water_has_no_effect_witness :
  consistent grid_3x3 ∧
  get_neighbors grid_3x3 (deref grid_3x3 (0, 0)) true =
    get_neighbors grid_3x3 (deref grid_3x3 (0, 0)) false ∧
  search AStar id_up (2, 2) true grid_3x3 (0, 0) =
    search AStar id_up (2, 2) false grid_3x3 (0, 0).
Proof.
  assert (Hc : consistent grid_3x3).
  { apply (bool_decide_unpack (consistent _)). by vm_compute. }
  split; [done|].
  apply (avoid_water_has_no_effect AStar id_up grid_3x3 (0, 0) (2, 2)
           (deref grid_3x3 (0, 0)) Hc).
Defined.

(** ** Grids as the program builds them *)

Lemma terrain_at_init width height c :
  in_bounds (Graph__init__ width height) c = true →
  terrain_at (Graph__init__ width height) c = Some None.
Proof.
  unfold in_bounds. simpl.
  rewrite !andb_true_iff, !Z.leb_le, !Z.ltb_lt. intros [[[Hx Hxw] Hy] Hyh].
  unfold terrain_at. simpl.
  rewrite (proj2 (Z.leb_le 0 c.1)), (proj2 (Z.leb_le 0 c.2)) by done. simpl.
  unfold range.
  rewrite list_lookup_fmap, lookup_seqZ_lt by lia. simpl.
  by rewrite list_lookup_fmap, lookup_seqZ_lt by lia.
Qed.

Lemma terrain_at_set_terrain g x y s c :
  terrain_at (set_terrain g x y s) c =
  if in_bounds g (x, y) && bool_decide ((x, y) = c)
  then (fun _ => Some s) <$> terrain_at g c
  else terrain_at g c.
Proof.
  unfold set_terrain. destruct (in_bounds g (x, y)) eqn:Hb; [|done].
  apply in_bounds_nonneg in Hb as [Hx Hy]. simpl in Hx, Hy.
  unfold terrain_at. simpl. rewrite !update_terrain.
  destruct c as [x' y']. simpl.
  destruct (0 <=? x') eqn:Hx'; [|by rewrite bool_decide_eq_false_2 by
    (intros [= <- <-]; apply Z.leb_gt in Hx'; lia)].
  destruct (0 <=? y') eqn:Hy'; [|by rewrite bool_decide_eq_false_2 by
    (intros [= <- <-]; apply Z.leb_gt in Hy'; lia)].
  apply Z.leb_le in Hx', Hy'. simpl.
  case_bool_decide as Hc.
  - injection Hc as <- <-.
    rewrite list_lookup_alter_eq.
    destruct (Graph.terrain g !! Z.to_nat x) as [col|]; [|done]. simpl.
    by rewrite list_lookup_alter_eq.
  - destruct (decide (Z.to_nat x = Z.to_nat x')) as [Hxx|Hxx].
    + rewrite Hxx, list_lookup_alter_eq.
      destruct (Graph.terrain g !! Z.to_nat x') as [col|]; [|done]. simpl.
      rewrite list_lookup_alter_ne; [done|].
      intros Hyy. apply Hc. f_equal; lia.
    + by rewrite list_lookup_alter_ne.
Qed.

Lemma build_dims width height ops :
  Graph.width (build width height ops) = width ∧
  Graph.height (build width height ops) = height.
Proof.
  induction ops as [|[[x y] s] ops IH]; simpl; [done|].
  unfold set_terrain. destruct (in_bounds _ _); [|done]. simpl.
  by rewrite !update_width, !update_height.
Qed.

Lemma build_mirror width height ops c :
  in_bounds (build width height ops) c = true →
  (terrain_at (build width height ops) c = Some None ∧
   Node.terrain_type (deref (build width height ops) c) = "normal") ∨
  terrain_at (build width height ops) c =
    Some (Some (Node.terrain_type (deref (build width height ops) c))).
Proof.
  induction ops as [|[[x y] s] ops IH]; simpl.
  - intros Hb. left. split; [by apply terrain_at_init|].
    unfold deref. by rewrite nodes_at_init.
  - rewrite in_bounds_set_terrain. intros Hb. specialize (IH Hb).
    rewrite terrain_at_set_terrain. unfold deref.
    rewrite nodes_at_set_terrain.
    destruct (in_bounds _ (x, y) && bool_decide ((x, y) = c)); [|done].
    right.
    pose proof (well_formed_build width height ops) as Hwf.
    destruct (wf_nodes_at _ _ Hwf Hb) as (n & Hn & _). rewrite Hn. simpl.
    by destruct IH as [[-> _]| ->].
Qed.

(** X8: what holds of every grid made by [Graph(width, height)] followed
    by calls of [set_terrain]: it has the dimensions given, the node stored
    at a position carries that position, its walkability flag is the one
    the catalog gives for its terrain name, and [graph.terrain] holds the
    name of the node or, where no terrain was ever set, [None] for a node
    named ['normal']. *)
Theorem build_invariants (width height : Z) (ops : list (Z * Z * string)) :
  let g := build width height ops in
  Graph.width g = width ∧ Graph.height g = height ∧
  ∀ x y, 0 ≤ x < width → 0 ≤ y < height →
    ∃ n, get_node g x y = Some n ∧
         Node.x n = x ∧ Node.y n = y ∧
         Node.walkable n = Terrain.is_walkable (Node.terrain_type n) ∧
         (terrain_at g (x, y) = Some (Some (Node.terrain_type n)) ∨
          (terrain_at g (x, y) = Some None ∧ Node.terrain_type n = "normal")).
Proof.
  intros g. destruct (build_dims width height ops) as [Hw Hh].
  split; [done|]. split; [done|]. intros x y Hx Hy.
  assert (Hb : in_bounds g (x, y) = true).
  { unfold in_bounds. fold g in Hw, Hh. rewrite Hw, Hh. simpl.
    rewrite !andb_true_iff, !Z.leb_le, !Z.ltb_lt. lia. }
  pose proof (well_formed_build width height ops) as Hwf.
  pose proof (wf_deref g (x, y) Hwf Hb) as Hn.
  exists (deref g (x, y)). unfold get_node. rewrite Hb.
  split; [done|].
  pose proof (wf_coords g (x, y) Hwf) as Hco. unfold Node.coords in Hco.
  injection Hco as Hcx Hcy.
  split; [done|]. split; [done|].
  split; [apply consistent_deref, consistent_build|].
  destruct (build_mirror width height ops (x, y) Hb) as [[? ?]|?]; auto.
Qed.

(** X9: [reset_nodes] gives every node of the grid an infinite [g_cost],
    [h_cost] zero and no parent, and leaves everything else as it is: the
    dimensions, [graph.terrain], and the position, terrain name and
    walkability of every node. *)
Theorem reset_nodes_spec (g : Graph.t) (x y : Z) :
  get_node (reset_nodes g) x y =
    (fun n => Node.mk (Node.x n) (Node.y n) (Node.terrain_type n) Inf (Sqrt 0)
                None (Node.walkable n)) <$> get_node g x y ∧
  Graph.width (reset_nodes g) = Graph.width g ∧
  Graph.height (reset_nodes g) = Graph.height g ∧
  Graph.terrain (reset_nodes g) = Graph.terrain g.
Proof.
  rewrite reset_nodes_flat.
  destruct (foldl_update_props g (all_cells g) reset_node)
    as (Hw & Hh & Ht & _); [by intros []|].
  split; [|done].
  unfold get_node, in_bounds. rewrite Hw, Hh. fold (in_bounds g (x, y)).
  destruct (in_bounds g (x, y)) eqn:Hb; [|done].
  rewrite nodes_at_foldl_update by (by intros []).
  rewrite decide_True by (by apply elem_of_all_cells).
  by destruct (nodes_at g (x, y)).
Qed.

Lemma surrounding_sym (n m : Node.t) :
  Node.coords m ∈ surrounding n → Node.coords n ∈ surrounding m.
Proof.
  unfold surrounding, directions, Node.coords. simpl.
  rewrite !elem_of_cons, !elem_of_nil. intros H.
  repeat (destruct H as [H|H];
          [injection H as Hx Hy; rewrite Hx, Hy|]); [..|done].
  all: repeat (first [left; f_equal; lia|right]).
Qed.

(** X10: being a neighbour is mutual.  On a grid as [__init__] lays it
    out, if a walkable node has [d] among its neighbours, it is itself
    among the neighbours of [d], when water is not avoided or the
    walkability flags follow the catalog. *)
Theorem get_neighbors_symmetric (g : Graph.t) (c d : cell)
    (avoid_water : bool)
    (Hwf : well_formed g)
    (Hflag : avoid_water = false ∨ consistent g)
    (Hc : in_bounds g c = true)
    (Hw : Node.walkable (deref g c) = true)
    (Hd : d ∈ get_neighbors g (deref g c) avoid_water) :
  c ∈ get_neighbors g (deref g d) avoid_water.
Proof.
  assert (Hd' : d ∈ get_neighbors g (deref g c) false).
  { destruct Hflag as [->|Hcons]; [done|].
    by rewrite (consistent_neighbors _ _ false avoid_water). }
  assert (Hgoal : c ∈ get_neighbors g (deref g d) false).
  { rewrite get_neighbors_filter in Hd'.
    apply neighbors_spec_elem in Hd' as [Hs _].
    rewrite get_neighbors_filter. unfold neighbors_spec.
    assert (Hin : c ∈ filter (fun c => candidate g c = true)
                        (surrounding (deref g d))).
    { apply list_elem_of_filter. split.
      - unfold candidate. by rewrite Hc, Hw.
      - rewrite <- (wf_coords g c Hwf) at 1. apply surrounding_sym.
        by rewrite wf_coords. }
    apply elem_of_app. unfold safe_group, hazard_group.
    destruct (is_hazard g c) eqn:Hz; [right|left];
      by apply list_elem_of_filter. }
  destruct Hflag as [->|Hcons]; [done|].
  by rewrite (consistent_neighbors _ _ avoid_water false).
Qed.

Lemma get_neighbors_symmetric_witness :
  (0, 1) ∈ get_neighbors grid_3x3 (deref grid_3x3 (0, 0)) true ∧
  (0, 0) ∈ get_neighbors grid_3x3 (deref grid_3x3 (0, 1)) true.
Proof.
  assert (Hd : (0, 1) ∈ get_neighbors grid_3x3 (deref grid_3x3 (0, 0)) true).
  { apply (bool_decide_unpack _). by vm_compute. }
  split; [done|].
  apply (get_neighbors_symmetric grid_3x3 (0, 0) (0, 1) true).
  - apply (bool_decide_unpack _). by vm_compute.
  - right. apply (bool_decide_unpack _). by vm_compute.
  - reflexivity.
  - reflexivity.
  - exact Hd.
Defined.

(** ** What a search records *)

Lemma cost_ltb_fin t x : cost_ltb t x = true → t ≠ Inf.
Proof. by destruct t. Qed.

Lemma nonneg_not_below_zero t : nonneg t → cost_ltb t (Fin 0 0) = false.
Proof.
  destruct t as [a b|]; [|done]. simpl. intros [Ha Hb].
  apply Z.ltb_ge. unfold sgn2. rewrite !Z.sub_0_r.
  rewrite (Z.abs_eq a), (Z.abs_eq b) by done. apply Z.sgn_nonneg. nia.
Qed.

Lemma nonneg_add x y : nonneg x → nonneg y → nonneg (cost_add x y).
Proof. destruct x, y; simpl; try done. lia. Qed.

Lemma nonneg_edge from_node to_node :
  nonneg (get_terrain_cost from_node to_node).
Proof.
  unfold get_terrain_cost.
  destruct (catalog_cost (Node.terrain_type to_node))
    as [(t & Ht & ->)|[-> _]]; [|done].
  destruct (_ && _); simpl; lia.
Qed.

Lemma walkable_edge from_node to_node :
  Terrain.is_walkable (Node.terrain_type to_node) = true →
  get_terrain_cost from_node to_node ≠ Inf.
Proof.
  intros (t & _ & Ht)%walkable_cost. unfold get_terrain_cost. rewrite Ht.
  by destruct (_ && _).
Qed.

Lemma cost_add_fin x y : x ≠ Inf → y ≠ Inf → cost_add x y ≠ Inf.
Proof. by destruct x, y. Qed.

Lemma get_neighbors_coords g n m a :
  Node.coords n = Node.coords m → get_neighbors g n a = get_neighbors g m a.
Proof.
  intros [= Hx Hy]. rewrite !get_neighbors_filter.
  unfold neighbors_spec, safe_group, hazard_group, surrounding.
  by rewrite Hx, Hy.
Qed.

Section Trace.
Variable alg : algorithm.
Variable idf : cell → Z.
Variable end_ : cell.
Variable avoid_water : bool.
Variable g0 : Graph.t.
Variable start : cell.
Hypothesis Hwf : well_formed g0.
Hypothesis Hstart : in_bounds g0 start = true.
Hypothesis Hids : distinct_ids idf g0.

Lemma static_edge st a b :
  Inv idf end_ g0 start st →
  get_terrain_cost (deref (graph st) a) (deref (graph st) b) =
  get_terrain_cost (deref g0 a) (deref g0 b).
Proof.
  intros HI. pose proof (inv_erase _ _ _ _ _ HI) as He.
  destruct (erase_static _ _ a He) as (Hx & Hy & _ & _).
  destruct (erase_static _ _ b He) as (Hx' & Hy' & Ht' & _).
  unfold get_terrain_cost. by rewrite Hx, Hy, Hx', Hy', Ht'.
Qed.

Lemma static_neighbors st c :
  Inv idf end_ g0 start st →
  get_neighbors (graph st) (deref (graph st) c) avoid_water =
  get_neighbors g0 (deref g0 c) avoid_water.
Proof.
  intros HI.
  rewrite (erase_get_neighbors (graph st) g0) by apply HI.
  apply get_neighbors_coords.
  by rewrite !wf_coords by (done || apply HI).
Qed.

Lemma relax_tr current st n :
  Inv idf end_ g0 start st → Tr avoid_water g0 start st →
  current ∈ closed_set st →
  n ∈ get_neighbors g0 (deref g0 current) avoid_water →
  Tr avoid_water g0 start (relax alg idf end_ current st n) ∧
  (∀ c, Node.g_cost (deref (graph st) c) ≠ Inf →
        Node.g_cost (deref (graph (relax alg idf end_ current st n)) c) ≠ Inf) ∧
  (consistent g0 →
   Node.g_cost (deref (graph (relax alg idf end_ current st n)) n) ≠ Inf).
Proof.
  intros HI HT Hcur Hnb.
  destruct (get_neighbors_candidate _ _ _ _ Hnb) as [Hn Hwalk].
  pose proof (inv_wf _ _ _ _ _ HI) as Hwfg.
  pose proof (static_edge st current n HI) as Hedge.
  destruct (relax_cases alg idf end_ current st n Hwfg
              (fun m => inv_dict_self idf end_ g0 start Hids st n m HI Hn))
    as [[-> Hwhy]|(Hncl & Hlt & Hpush)].
  { split; [done|]. split; [done|]. intros Hcons.
    destruct Hwhy as [Hcl|Hnlt]; [by apply (tr_closed _ _ _ _ HT)|].
    intros Hinf. rewrite Hinf, Hedge in Hnlt.
    assert (Hfin : cost_add (Node.g_cost (deref (graph st) current))
                     (get_terrain_cost (deref g0 current) (deref g0 n)) ≠ Inf).
    { apply cost_add_fin; [by apply (tr_closed _ _ _ _ HT)|].
      apply walkable_edge. by rewrite <- consistent_deref. }
    by destruct (cost_add _ _). }
  set (g := graph st) in *.
  set (t := cost_add (Node.g_cost (deref g current))
              (get_terrain_cost (deref g current) (deref g n))) in *.
  set (F := improve alg end_ g current n t) in *.
  set (g' := update g n F) in *.
  assert (HF : ∀ m, reset_node (F m) = reset_node m ∧
                    Node.coords (F m) = Node.coords m ∧
                    Node.parent (F m) = Some current ∧ Node.g_cost (F m) = t)
    by (intros m; apply improve_props).
  assert (Hnbg : in_bounds g n = true)
    by (unfold g; by rewrite (inv_in_bounds idf end_ g0 start st n HI)).
  assert (Hne : current ≠ n) by (intros ->; done).
  assert (Hdn : deref g' n = F (deref g n)).
  { apply deref_update_eq. by apply wf_deref. }
  assert (Hdo : ∀ m, m ≠ n → deref g' m = deref g m).
  { intros m Hm. by apply deref_update_ne. }
  assert (Hgn : Node.g_cost (deref g' n) = t).
  { rewrite Hdn. apply HF. }
  assert (Hpn : Node.parent (deref g' n) = Some current).
  { rewrite Hdn. apply HF. }
  assert (Htfin : t ≠ Inf) by (by apply cost_ltb_fin in Hlt).
  assert (Htnn : nonneg t).
  { apply nonneg_add; [apply HT|apply nonneg_edge]. }
  assert (Hns : n ≠ start).
  { intros ->. destruct (tr_start _ _ _ _ HT) as [Hs _]. fold g in Hs.
    rewrite Hs, nonneg_not_below_zero in Hlt; done. }
  assert (Hmono : ∀ c, Node.g_cost (deref g c) ≠ Inf →
                       Node.g_cost (deref g' c) ≠ Inf).
  { intros c Hc. destruct (decide (c = n)) as [->|Hcn]; [by rewrite Hgn|].
    by rewrite Hdo. }
  assert (A1 : Node.g_cost (deref g' start) = Fin 0 0 ∧
               Node.parent (deref g' start) = None).
  { rewrite Hdo by done. apply HT. }
  assert (A2 : ∀ c, nonneg (Node.g_cost (deref g' c))).
  { intros c. destruct (decide (c = n)) as [->|Hcn]; [by rewrite Hgn|].
    rewrite Hdo by done. apply HT. }
  assert (A3 : ∀ m p, Node.parent (deref g' m) = Some p →
      m ∈ get_neighbors g0 (deref g0 p) avoid_water ∧
      Node.g_cost (deref g' m) =
        cost_add (Node.g_cost (deref g' p))
                 (get_terrain_cost (deref g0 p) (deref g0 m))).
  { intros m p Hp. destruct (decide (m = n)) as [->|Hmn].
    - rewrite Hpn in Hp. injection Hp as <-. split; [done|].
      rewrite Hgn, (Hdo current Hne). unfold t. by rewrite Hedge.
    - rewrite (Hdo m Hmn) in Hp |- *.
      destruct (inv_parent _ _ _ _ _ HI _ _ Hp) as [Hpc _].
      rewrite Hdo by (intros ->; done). by apply HT. }
  assert (A4 : ∀ m, Node.parent (deref g' m) = None →
      m = start ∨ Node.g_cost (deref g' m) = Inf).
  { intros m Hp. destruct (decide (m = n)) as [->|Hmn]; [congruence|].
    rewrite (Hdo m Hmn) in Hp |- *. by apply HT. }
  assert (A5 : ∀ c, c ∈ closed_set st →
      Node.g_cost (deref g' c) ≠ Inf ∧ reachable g0 avoid_water start c).
  { intros c Hc. destruct (tr_closed _ _ _ _ HT c Hc) as [Hf Hr].
    split; [by apply Hmono|done]. }
  assert (Hreach : reachable g0 avoid_water start n).
  { apply reachable_step with current; [|done].
    by apply (tr_closed _ _ _ _ HT). }
  assert (A6 : ∀ k i c, (k, i, c) ∈ open_set st →
      Node.g_cost (deref g' c) ≠ Inf ∧ reachable g0 avoid_water start c).
  { intros k i c Hc. destruct (tr_open _ _ _ _ HT k i c Hc) as [Hf Hr].
    split; [by apply Hmono|done]. }
  destruct Hpush as [[Hnone ->]|[Hsome ->]];
    (split; [|split; [done|intros _; simpl; by rewrite Hgn]]).
  - constructor; simpl; try done.
    + intros k i c [Hin|Hin%list_elem_of_singleton]%elem_of_app.
      * by apply (A6 k i c).
      * injection Hin as -> -> ->. by rewrite Hgn.
    + intros i c. rewrite lookup_insert. rewrite fmap_app, elem_of_app.
      case_decide as Hi.
      * intros [= <-]. right. right. simpl. apply list_elem_of_here.
      * intros Hd. destruct (tr_dict _ _ _ _ HT i c Hd); auto.
    + intros c Hc Hfin. rewrite fmap_app, elem_of_app.
      destruct (decide (c = n)) as [->|Hcn].
      * right. right. simpl. apply list_elem_of_here.
      * rewrite (Hdo c Hcn) in Hfin.
        destruct (tr_fin _ _ _ _ HT c Hc Hfin); auto.
  - constructor; simpl; try done.
    + apply HT.
    + intros c Hc Hfin. destruct (decide (c = n)) as [->|Hcn].
      * by apply (tr_dict _ _ _ _ HT _ _ Hsome).
      * rewrite (Hdo c Hcn) in Hfin. by apply HT.
Qed.

Lemma relax_fold_tr current ns : ∀ st,
  Inv idf end_ g0 start st → Tr avoid_water g0 start st →
  current ∈ closed_set st →
  (∀ n, n ∈ ns → n ∈ get_neighbors g0 (deref g0 current) avoid_water) →
  Tr avoid_water g0 start (foldl (relax alg idf end_ current) st ns) ∧
  (∀ c, Node.g_cost (deref (graph st) c) ≠ Inf →
        Node.g_cost
          (deref (graph (foldl (relax alg idf end_ current) st ns)) c) ≠ Inf) ∧
  (consistent g0 → ∀ n, n ∈ ns →
   Node.g_cost
     (deref (graph (foldl (relax alg idf end_ current) st ns)) n) ≠ Inf).
Proof.
  induction ns as [|n ns IH]; intros st HI HT Hcur Hns; simpl.
  { split; [done|]. split; [done|]. intros _ n Hn. by apply elem_of_nil in Hn. }
  assert (Hn : n ∈ get_neighbors g0 (deref g0 current) avoid_water)
    by apply Hns, list_elem_of_here.
  destruct (get_neighbors_candidate _ _ _ _ Hn) as [Hb Hw].
  destruct (relax_inv alg idf end_ g0 start Hids current st n HI Hcur Hb Hw)
    as (HI' & Hcl & _).
  destruct (relax_tr current st n HI HT Hcur Hn) as (HT' & Hmono & Htarget).
  destruct (IH (relax alg idf end_ current st n)) as (HT'' & Hmono' & Hall).
  - done.
  - done.
  - by rewrite Hcl.
  - intros m Hm. by apply Hns, list_elem_of_further.
  - split; [done|]. split; [auto|].
    intros Hcons m [->|Hm]%elem_of_cons; [|by apply Hall].
    by apply Hmono', Htarget.
Qed.

Lemma iteration_tr st st' :
  Inv idf end_ g0 start st → Tr avoid_water g0 start st →
  iteration alg idf end_ avoid_water st = Next st' →
  Tr avoid_water g0 start st' ∧
  (consistent g0 → expanded avoid_water g0 st → expanded avoid_water g0 st').
Proof.
  intros HI HT. unfold iteration.
  destruct (heappop (open_set st)) as [[[[k i] c] rest]|] eqn:Hpop; [|done].
  destruct (pop_inv idf end_ g0 start st k i c rest HI Hpop)
    as (HI0 & _ & Hb & Hw).
  pose proof (close_inv idf end_ g0 start st k i c rest HI Hpop) as HI1.
  pose proof (heappop_perm _ _ _ Hpop) as Hperm.
  pose proof (inv_wf _ _ _ _ _ HI) as Hwfg.
  rewrite (wf_eq _ c end_ Hwfg), (wf_coords _ c Hwfg).
  destruct (bool_decide (c = end_)) eqn:Hend; [done|].
  apply bool_decide_eq_false in Hend. specialize (HI1 Hend).
  assert (Hc : (k, i, c) ∈ open_set st)
    by (rewrite Hperm; apply list_elem_of_here).
  assert (Hsub : ∀ e, e ∈ rest → e ∈ open_set st).
  { intros e He. rewrite Hperm. by apply list_elem_of_further. }
  assert (Hfront : ∀ d, d ∈ (fun e : entry => e.2) <$> open_set st →
                        d = c ∨ d ∈ (fun e : entry => e.2) <$> rest).
  { intros d. rewrite Hperm, fmap_cons, elem_of_cons. simpl. tauto. }
  destruct (tr_open _ _ _ _ HT k i c Hc) as [Hcfin Hcreach].
  destruct (bool_decide (c ∈ closed_set st)) eqn:Hcl.
  { apply bool_decide_eq_true in Hcl. intros [= <-]. split; [|done].
    constructor; simpl; try apply HT.
    - intros k' i' c' Hin. apply (tr_open _ _ _ _ HT k' i' c'). by apply Hsub.
    - intros i' c' Hd.
      destruct (tr_dict _ _ _ _ HT i' c' Hd) as [?|Hf]; [by left|].
      destruct (Hfront _ Hf) as [->|?]; auto.
    - intros c' Hc' Hfin.
      destruct (tr_fin _ _ _ _ HT c' Hc' Hfin) as [?|Hf]; [by left|].
      destruct (Hfront _ Hf) as [->|?]; auto. }
  intros [= <-].
  set (st1 := State (graph st) rest (open_set_dict st) ({[c]} ∪ closed_set st))
    in *.
  assert (HT1 : Tr avoid_water g0 start st1).
  { constructor; simpl; try apply HT.
    - intros k' i' c' Hin. apply (tr_open _ _ _ _ HT k' i' c'). by apply Hsub.
    - intros d [->%elem_of_singleton|Hd]%elem_of_union; [done|].
      by apply (tr_closed _ _ _ _ HT).
    - intros i' c' Hd. rewrite elem_of_union, elem_of_singleton.
      destruct (tr_dict _ _ _ _ HT i' c' Hd) as [?|Hf]; [auto|].
      destruct (Hfront _ Hf) as [->|?]; auto.
    - intros c' Hc' Hfin. rewrite elem_of_union, elem_of_singleton.
      destruct (tr_fin _ _ _ _ HT c' Hc' Hfin) as [?|Hf]; [auto|].
      destruct (Hfront _ Hf) as [->|?]; auto. }
  rewrite (static_neighbors st c HI).
  destruct (relax_fold_tr c (get_neighbors g0 (deref g0 c) avoid_water) st1)
    as (HT2 & Hmono & Hall); try done.
  { apply elem_of_union. left. by apply elem_of_singleton. }
  split; [done|]. intros Hcons Hexp c' d Hc' Hd.
  destruct (relax_fold_inv alg idf end_ g0 start Hids c
              (get_neighbors g0 (deref g0 c) avoid_water) st1 HI1)
    as (_ & Hcl2 & _).
  { apply elem_of_union. left. by apply elem_of_singleton. }
  { intros n Hn. by apply get_neighbors_candidate in Hn. }
  rewrite Hcl2 in Hc'. simpl in Hc'.
  apply elem_of_union in Hc' as [->%elem_of_singleton|Hc'].
  - by apply Hall.
  - apply Hmono. by apply (Hexp c' d).
Qed.

Lemma initial_tr :
  Tr avoid_water g0 start (initial alg idf end_ g0 start) ∧
  expanded avoid_water g0 (initial alg idf end_ g0 start).
Proof.
  unfold initial. rewrite (reset_nodes_erase g0 Hwf).
  set (g1 := update (erase g0) start (Node.set_g_cost (Fin 0 0))).
  assert (Hs0 : nodes_at (erase g0) start = Some (deref (erase g0) start)).
  { apply wf_deref; [by apply well_formed_erase|].
    by rewrite (erase_in_bounds (erase g0) g0) by apply erase_idemp. }
  assert (He : ∀ n, Node.parent (deref (erase g0) n) = None ∧
                    Node.g_cost (deref (erase g0) n) = Inf).
  { intros n. unfold deref. rewrite nodes_at_erase.
    by destruct (nodes_at g0 n). }
  assert (H1 : ∀ n, Node.parent (deref g1 n) = None ∧
                    Node.g_cost (deref g1 n) =
                      if decide (n = start) then Fin 0 0 else Inf).
  { intros n. unfold g1. case_decide as Hn.
    - subst n. rewrite (deref_update_eq _ _ _ _ Hs0). simpl. split; [|done].
      apply He.
    - rewrite deref_update_ne by done. apply He. }
  assert (Hgen : ∀ g k,
    (∀ n, Node.parent (deref g n) = None ∧
          Node.g_cost (deref g n) = if decide (n = start) then Fin 0 0 else Inf) →
    Tr avoid_water g0 start
      (State g [(k, idf start, start)] {[idf start := start]} ∅) ∧
    expanded avoid_water g0
      (State g [(k, idf start, start)] {[idf start := start]} ∅)).
  { intros g k Hg. split.
    - constructor; simpl.
      + destruct (Hg start) as [-> ->]. by rewrite decide_True.
      + intros c. destruct (Hg c) as [_ ->]. by case_decide.
      + intros n p Hp. destruct (Hg n) as [Hn _]. congruence.
      + intros n _. destruct (Hg n) as [_ ->]. case_decide; auto.
      + intros k' i c [= -> -> ->]%list_elem_of_singleton.
        destruct (Hg start) as [_ ->]. rewrite decide_True by done.
        split; [done|constructor].
      + intros c Hc. by apply elem_of_empty in Hc.
      + intros i c [<- <-]%lookup_singleton_Some. right. apply list_elem_of_here.
      + intros c _. destruct (Hg c) as [_ ->]. case_decide as Hc; [|done].
        subst c. intros _. right. apply list_elem_of_here.
    - intros c d Hc. by apply elem_of_empty in Hc. }
  destruct alg; [by apply Hgen|]. apply Hgen.
  intros n. set (h := heuristic _ _).
  assert (Hs1 : nodes_at g1 start = Some (deref g1 start)).
  { unfold deref, g1. rewrite nodes_at_update, decide_True by done.
    by rewrite Hs0. }
  destruct (decide (n = start)) as [->|Hn].
  - rewrite (deref_update_eq _ _ _ _ Hs1). simpl.
    destruct (H1 start) as [-> ->]. by rewrite decide_True.
  - rewrite deref_update_ne by done. destruct (H1 n) as [-> ->].
    by rewrite decide_False.
Qed.

Lemma after_tr k : ∀ st st',
  Inv idf end_ g0 start st → Tr avoid_water g0 start st →
  (consistent g0 → expanded avoid_water g0 st) →
  after alg idf end_ avoid_water k st = Some st' →
  Tr avoid_water g0 start st' ∧
  (consistent g0 → expanded avoid_water g0 st').
Proof.
  induction k as [|k IH]; intros st st' HI HT Hexp; simpl.
  { by intros [= <-]. }
  destruct (iteration alg idf end_ avoid_water st) as [| |st1] eqn:Hit;
    [done|done|].
  destruct (iteration_inv alg idf end_ avoid_water g0 start Hids st st1 HI Hit)
    as [HI1 _].
  destruct (iteration_tr st st1 HI HT Hit) as [HT1 Hexp1].
  apply IH; auto.
Qed.
End Trace.

(** ** The path returned *)

Lemma reconstruct_loop_chain g fuel : ∀ acc c l,
  reconstruct_loop fuel g acc (Some c) = Some l →
  ∃ l', l = acc ++ l' ∧ chain g c l'.
Proof.
  induction fuel as [|fuel IH]; intros acc c l; simpl; [done|].
  destruct (Node.parent (deref g c)) as [p|] eqn:Hp.
  - intros (l' & -> & Hc)%IH. exists (c :: l').
    split; [by rewrite <- app_assoc|]. by eapply chain_step.
  - destruct fuel; simpl; intros [= <-]; exists [c];
      (split; [done|by constructor]).
Qed.

Lemma chain_nonempty g c l : chain g c l → ∃ l', l = c :: l'.
Proof. destruct 1; eauto. Qed.

Lemma is_path_from_snoc g a c : ∀ q x p,
  last (x :: q) = Some p →
  is_path_from g a x (q ++ [c]) =
  is_path_from g a x q && bool_decide (c ∈ get_neighbors g (deref g p) a).
Proof.
  induction q as [|b q IH]; intros x p Hl; simpl.
  - injection Hl as ->. by rewrite andb_true_r.
  - rewrite (IH b p) by done. by rewrite andb_assoc.
Qed.

Lemma path_cost_from_snoc g c : ∀ q acc x p,
  last (x :: q) = Some p →
  path_cost_from g acc x (q ++ [c]) =
  cost_add (path_cost_from g acc x q) (get_terrain_cost (deref g p) (deref g c)).
Proof.
  induction q as [|b q IH]; intros acc x p Hl; simpl.
  - by injection Hl as ->.
  - by rewrite (IH _ b p).
Qed.

Lemma chain_path idf end_ avoid_water g0 start st c l :
  Inv idf end_ g0 start st → Tr avoid_water g0 start st →
  chain (graph st) c l → Node.g_cost (deref (graph st) c) ≠ Inf →
  NoDup l ∧
  (∀ d, d ∈ l → d = c ∨
     (d ∈ closed_set st ∧
      cost_ltb (Node.g_cost (deref (graph st) d))
               (Node.g_cost (deref (graph st) c)) = true)) ∧
  ∃ q, reverse l = start :: q ∧
       last (start :: q) = Some c ∧
       is_path_from g0 avoid_water start q = true ∧
       path_cost_from g0 (Fin 0 0) start q = Node.g_cost (deref (graph st) c).
Proof.
  intros HI HT Hch. induction Hch as [c Hp|c p l Hp Hch IH]; intros Hfin.
  - destruct (tr_root _ _ _ _ HT c Hp) as [->|?]; [|done].
    split; [apply NoDup_singleton|]. split.
    { intros d ->%list_elem_of_singleton. by left. }
    exists []. repeat split; try done. symmetry. apply HT.
  - destruct (inv_parent _ _ _ _ _ HI _ _ Hp) as [Hpc Hlt].
    destruct (tr_parent _ _ _ _ HT _ _ Hp) as [Hnb Hg].
    destruct IH as (Hnd & Hall & q & Hrev & Hlast & Hpath & Hcost).
    { by apply cost_ltb_fin in Hlt. }
    assert (Hall' : ∀ d, d ∈ l →
              d ∈ closed_set st ∧
              cost_ltb (Node.g_cost (deref (graph st) d))
                       (Node.g_cost (deref (graph st) c)) = true).
    { intros d Hd. destruct (Hall d Hd) as [->|[Hdc Hdl]]; [done|].
      split; [done|]. by eapply cost_ltb_trans. }
    split; [|split].
    + apply NoDup_cons. split; [|done]. intros Hc.
      destruct (Hall' c Hc) as [_ Hcc]. by rewrite cost_ltb_irrefl in Hcc.
    + intros d [->|Hd]%elem_of_cons; [by left|]. right. by apply Hall'.
    + exists (q ++ [c]). rewrite reverse_cons, Hrev. split; [done|].
      split; [|split].
      * change (last ((start :: q) ++ [c]) = Some c). apply last_snoc.
      * rewrite (is_path_from_snoc _ _ _ _ _ p Hlast), Hpath.
        by rewrite bool_decide_eq_true_2.
      * by rewrite (path_cost_from_snoc _ _ _ _ _ p Hlast), Hcost, Hg.
Qed.

Lemma iteration_found_popped alg idf end_ avoid_water st c st1 :
  iteration alg idf end_ avoid_water st = Found c st1 →
  ∃ k i, (k, i, c) ∈ open_set st.
Proof.
  unfold iteration.
  destruct (heappop (open_set st)) as [[[[k i] c'] rest]|] eqn:Hpop; [|done].
  destruct (Node.__eq__ _ _).
  - intros [= <- _]. exists k, i. apply heappop_perm in Hpop. rewrite Hpop.
    apply list_elem_of_here.
  - by destruct (bool_decide _).
Qed.

(** How a search ends: in a state that satisfies the invariants, either
    with an empty frontier and no path, or with the end node in the
    frontier and the path [reconstruct_path] builds from it. *)
Lemma loop_result alg idf end_ avoid_water g0 start
    (Hwf : well_formed g0) (Hstart : in_bounds g0 start = true)
    (Hids : distinct_ids idf g0) fuel : ∀ st path closed g',
  Inv idf end_ g0 start st → Tr avoid_water g0 start st →
  (consistent g0 → expanded avoid_water g0 st) →
  loop alg idf end_ avoid_water fuel st = Some (path, closed, g') →
  ∃ st', Inv idf end_ g0 start st' ∧ Tr avoid_water g0 start st' ∧
         (consistent g0 → expanded avoid_water g0 st') ∧
         closed = closed_set st' ∧ g' = graph st' ∧
         ((path = [] ∧ open_set st' = []) ∨
          (in_bounds g0 end_ = true ∧
           (∃ k i, (k, i, end_) ∈ open_set st') ∧
           reconstruct_path (fuel_of g') g' end_ = Some path)).
Proof.
  induction fuel as [|fuel IH]; intros st path closed g' HI HT Hexp; simpl;
    [done|].
  destruct (iteration alg idf end_ avoid_water st) as [st1|c st1|st1] eqn:Hit.
  - apply iteration_exhausted in Hit as [-> Hempty]. intros [= <- <- <-].
    exists st. do 5 (split; [done|]). by left.
  - destruct (iteration_found_popped _ _ _ _ _ _ _ Hit) as (k & i & Hin).
    apply (iteration_found alg idf end_ avoid_water g0 start) in Hit
      as (-> & Hg & Hc & Hb); [|done].
    rewrite Hg, Hc.
    destruct (reconstruct_path _ _ _) as [p|] eqn:Hrec; [|done]. simpl.
    intros [= <- <- <-]. exists st. do 5 (split; [done|]).
    right. split; [done|]. split; [|done]. by exists k, i.
  - destruct (iteration_inv alg idf end_ avoid_water g0 start Hids st st1 HI Hit)
      as [HI1 _].
    destruct (iteration_tr alg idf end_ avoid_water g0 start Hwf Hids
                st st1 HI HT Hit) as [HT1 Hexp1].
    apply IH; auto.
Qed.

Lemma search_result alg idf end_ avoid_water g0 start path closed g'
    (Hwf : well_formed g0) (Hstart : in_bounds g0 start = true)
    (Hids : distinct_ids idf g0) :
  search alg idf end_ avoid_water g0 start = Some (path, closed, g') →
  ∃ st', Inv idf end_ g0 start st' ∧ Tr avoid_water g0 start st' ∧
         (consistent g0 → expanded avoid_water g0 st') ∧
         closed = closed_set st' ∧ g' = graph st' ∧
         ((path = [] ∧ open_set st' = []) ∨
          (in_bounds g0 end_ = true ∧
           (∃ k i, (k, i, end_) ∈ open_set st') ∧
           reconstruct_path (fuel_of g') g' end_ = Some path)).
Proof.
  unfold search. apply loop_result; try done.
  - by apply initial_inv.
  - by apply initial_tr.
  - intros _. by apply initial_tr.
Qed.

(** X11: a path that [dijkstra] or [a_star] returns is a path of the grid:
    it starts at [start], ends at [end_], every step goes to a node that
    [get_neighbors] lists for the node before, and no node occurs twice.
    Its cost, summed step by step, is finite and is what the search left in
    [g_cost] of the end node, and every node of it except [end_] is in the
    closed set returned. *)
Theorem returned_path_is_valid (alg : algorithm) (idf : cell → Z)
    (g : Graph.t) (start end_ : cell) (avoid_water : bool)
    (path : list cell) (closed : gset cell) (g' : Graph.t)
    (Hwf : well_formed g) (Hstart : in_bounds g start = true)
    (Hids : distinct_ids idf g)
    (Hrun : search alg idf end_ avoid_water g start = Some (path, closed, g'))
    (Hpath : path ≠ []) :
  is_path g avoid_water start end_ path = true ∧
  NoDup path ∧
  path_cost g path = Node.g_cost (deref g' end_) ∧
  Node.g_cost (deref g' end_) ≠ Inf ∧
  (∀ c, c ∈ path → c = end_ ∨ c ∈ closed).
Proof.
  destruct (search_result _ _ _ _ _ _ _ _ _ Hwf Hstart Hids Hrun)
    as (st & HI & HT & _ & -> & -> & [[? _]|(Hb & (k & i & Hin) & Hrec)]);
    [done|].
  destruct (tr_open _ _ _ _ HT k i end_ Hin) as [Hfin _].
  unfold reconstruct_path in Hrec.
  destruct (reconstruct_loop _ _ _ _) as [l|] eqn:Hl; [|done].
  injection Hrec as <-.
  apply reconstruct_loop_chain in Hl as (l' & -> & Hch). simpl.
  destruct (chain_path _ _ _ _ _ _ _ _ HI HT Hch Hfin)
    as (Hnd & Hall & q & Hrev & Hlast & Hp & Hcost).
  split; [|split; [|split; [|split]]]; try done.
  - rewrite Hrev. simpl. rewrite bool_decide_eq_true_2 by done.
    change (match q with [] => Some start | _ :: _ => last q end)
      with (last (start :: q)).
    rewrite bool_decide_eq_true_2 by done. done.
  - by rewrite reverse_Permutation.
  - by rewrite Hrev.
  - intros c Hc. rewrite elem_of_reverse in Hc.
    destruct (Hall c Hc) as [?|[? _]]; auto.
Qed.

Lemma returned_path_is_valid_witness :
  match search Dijkstra id_up (1, 0) true grid_2x4 (1, 3) with
  | Some (path, closed, g') =>
      is_path grid_2x4 true (1, 3) (1, 0) path = true ∧
      path_cost grid_2x4 path = Node.g_cost (deref g' (1, 0))
  | None => False
  end.
Proof.
  assert (Hne : (fun r : list cell * gset cell * Graph.t =>
                   bool_decide (r.1.1 ≠ [])) <$>
                search Dijkstra id_up (1, 0) true grid_2x4 (1, 3) = Some true)
    by (by vm_compute).
  destruct (search Dijkstra id_up (1, 0) true grid_2x4 (1, 3))
    as [[[path closed] g']|] eqn:Hrun; [|discriminate Hne].
  injection Hne as Hne. apply bool_decide_eq_true in Hne.
  change (path ≠ []) in Hne.
  assert (Hwf : well_formed grid_2x4).
  { apply (bool_decide_unpack (well_formed _)). by vm_compute. }
  assert (Hids : distinct_ids id_up grid_2x4).
  { apply (bool_decide_unpack (distinct_ids _ _)). by vm_compute. }
  destruct (returned_path_is_valid Dijkstra id_up grid_2x4 (1, 3) (1, 0) true
              path closed g' Hwf eq_refl Hids Hrun Hne) as (H1 & _ & H3 & _).
  exact (conj H1 H3).
Defined.

(** A search over a grid whose flags follow the catalog is complete: it
    reaches what moves along [get_neighbors] reach. *)
Lemma search_reachable (alg : algorithm) (idf : cell → Z)
    (g : Graph.t) (start end_ : cell) (avoid_water : bool)
    (path : list cell) (closed : gset cell) (g' : Graph.t)
    (Hwf : well_formed g) (Hstart : in_bounds g start = true)
    (Hids : distinct_ids idf g) (Hcons : consistent g)
    (Hrun : search alg idf end_ avoid_water g start = Some (path, closed, g')) :
  (path ≠ [] ↔ reachable g avoid_water start end_) ∧
  (path = [] → ∀ c, c ∈ closed ↔ reachable g avoid_water start c).
Proof.
  destruct (search_result _ _ _ _ _ _ _ _ _ Hwf Hstart Hids Hrun)
    as (st & HI & HT & Hexp & -> & -> &
        [[-> Hempty]|(Hb & (k & i & Hin) & Hrec)]).
  - specialize (Hexp Hcons).
    assert (Hall : ∀ c, reachable g avoid_water start c → c ∈ closed_set st).
    { assert (Hfin : ∀ c, in_bounds g c = true →
                Node.g_cost (deref (graph st) c) ≠ Inf → c ∈ closed_set st).
      { intros c Hc Hf. destruct (tr_fin _ _ _ _ HT c Hc Hf) as [?|Hfr]; [done|].
        rewrite Hempty in Hfr. by apply elem_of_nil in Hfr. }
      induction 1 as [|c d _ IH Hd].
      - apply Hfin; [done|]. destruct (tr_start _ _ _ _ HT) as [Hs _].
        rewrite Hs. discriminate.
      - apply Hfin; [by destruct (get_neighbors_candidate _ _ _ _ Hd)|].
        by apply (Hexp c d). }
    split.
    + split; [done|]. intros Hr%Hall.
      by destruct (inv_closed _ _ _ _ _ HI _ Hr) as (_ & ? & _).
    + intros _ c. split; [|apply Hall]. intros Hc.
      by apply (tr_closed _ _ _ _ HT).
  - assert (Hne : path ≠ []).
    { unfold reconstruct_path in Hrec.
      destruct (reconstruct_loop _ _ _ _) as [l|] eqn:Hl; [|done].
      injection Hrec as <-.
      apply reconstruct_loop_chain in Hl as (l' & -> & Hch).
      apply chain_nonempty in Hch as (l'' & ->). simpl.
      rewrite reverse_cons. by destruct (reverse l''). }
    split; [|done]. split; [|done]. intros _.
    by apply (tr_open _ _ _ _ HT k i end_).
Qed.

(** X12: on a grid whose walkability flags follow the catalog, a search
    returns a path exactly when moves along [get_neighbors] lead from
    [start] to [end_]; when it returns no path, the closed set is the set
    of all nodes such moves reach. *)
Theorem search_finds_what_is_reachable (alg : algorithm) (idf : cell → Z)
    (g : Graph.t) (start end_ : cell) (avoid_water : bool)
    (path : list cell) (closed : gset cell) (g' : Graph.t)
    (Hwf : well_formed g) (Hstart : in_bounds g start = true)
    (Hids : distinct_ids idf g) (Hcons : consistent g)
    (Hrun : search alg idf end_ avoid_water g start = Some (path, closed, g')) :
  (path ≠ [] ↔ reachable g avoid_water start end_) ∧
  (path = [] → ∀ c, c ∈ closed ↔ reachable g avoid_water start c).
Proof.
  exact (search_reachable alg idf g start end_ avoid_water path closed g'
           Hwf Hstart Hids Hcons Hrun).
Qed.

Lemma search_finds_what_is_reachable_witness :
  match search AStar id_up (1, 0) true grid_2x1 (0, 0) with
  | Some (path, closed, g') =>
      path ≠ [] ↔ reachable grid_2x1 true (0, 0) (1, 0)
  | None => False
  end.
Proof.
  assert (Hwf : well_formed grid_2x1).
  { apply (bool_decide_unpack (well_formed _)). by vm_compute. }
  assert (Hids : distinct_ids id_up grid_2x1).
  { apply (bool_decide_unpack (distinct_ids _ _)). by vm_compute. }
  assert (Hcons : consistent grid_2x1).
  { apply (bool_decide_unpack (consistent _)). by vm_compute. }
  destruct (search AStar id_up (1, 0) true grid_2x1 (0, 0))
    as [[[path closed] g']|] eqn:Hrun; [|vm_compute in Hrun; discriminate Hrun].
  exact (proj1 (search_finds_what_is_reachable AStar id_up grid_2x1 (0, 0)
                  (1, 0) true path closed g' Hwf eq_refl Hids Hcons Hrun)).
Defined.

(** X13: a search writes [g_cost], [h_cost] and [parent] and nothing else:
    the grid it leaves has the dimensions and the [terrain] table of the
    grid it was given, and every node keeps its position, terrain name and
    walkability. *)
Theorem search_keeps_the_map (alg : algorithm) (idf : cell → Z)
    (g : Graph.t) (start end_ : cell) (avoid_water : bool)
    (path : list cell) (closed : gset cell) (g' : Graph.t)
    (Hwf : well_formed g) (Hstart : in_bounds g start = true)
    (Hids : distinct_ids idf g)
    (Hrun : search alg idf end_ avoid_water g start = Some (path, closed, g')) :
  Graph.width g' = Graph.width g ∧ Graph.height g' = Graph.height g ∧
  Graph.terrain g' = Graph.terrain g ∧
  ∀ x y,
    (fun n => (Node.x n, Node.y n, Node.terrain_type n, Node.walkable n)) <$>
      get_node g' x y =
    (fun n => (Node.x n, Node.y n, Node.terrain_type n, Node.walkable n)) <$>
      get_node g x y.
Proof.
  destruct (search_result _ _ _ _ _ _ _ _ _ Hwf Hstart Hids Hrun)
    as (st & HI & _ & _ & _ & -> & _).
  pose proof (inv_erase _ _ _ _ _ HI) as He.
  assert (Hw : Graph.width (graph st) = Graph.width g)
    by (by injection He).
  assert (Hh : Graph.height (graph st) = Graph.height g)
    by (by injection He).
  split; [done|]. split; [done|]. split; [by injection He|].
  intros x y. unfold get_node, in_bounds. rewrite Hw, Hh.
  destruct (_ && _); [|done].
  pose proof (nodes_at_erase (graph st) (x, y)) as H1.
  pose proof (nodes_at_erase g (x, y)) as H2. rewrite He, H2 in H1.
  destruct (nodes_at g (x, y)) as [n|], (nodes_at (graph st) (x, y)) as [m|];
    try done.
  destruct n, m. cbv in H1. injection H1 as -> -> -> ->. done.
Qed.

Lemma search_keeps_the_map_witness :
  match search AStar id_up (1, 2) false grid_3x3 (1, 0) with
  | Some (path, closed, g') => Graph.terrain g' = Graph.terrain grid_3x3
  | None => False
  end.
Proof.
  assert (Hwf : well_formed grid_3x3).
  { apply (bool_decide_unpack (well_formed _)). by vm_compute. }
  assert (Hids : distinct_ids id_up grid_3x3).
  { apply (bool_decide_unpack (distinct_ids _ _)). by vm_compute. }
  destruct (search AStar id_up (1, 2) false grid_3x3 (1, 0))
    as [[[path closed] g']|] eqn:Hrun; [|vm_compute in Hrun; discriminate Hrun].
  exact (proj1 (proj2 (proj2 (search_keeps_the_map AStar id_up grid_3x3 (1, 0)
                  (1, 2) false path closed g' Hwf eq_refl Hids Hrun)))).
Defined.

(** ** How long a search runs *)

Lemma after_slack alg idf end_ avoid_water g0 start
    (Hids : distinct_ids idf g0) k : ∀ st st',
  Inv idf end_ g0 start st →
  after alg idf end_ avoid_water k st = Some st' →
  slack st' = slack st + Z.of_nat k.
Proof.
  induction k as [|k IH]; intros st st' HI; simpl.
  { intros [= <-]. lia. }
  destruct (iteration alg idf end_ avoid_water st) as [| |st1] eqn:Hit;
    [done|done|].
  destruct (iteration_inv alg idf end_ avoid_water g0 start Hids st st1 HI Hit)
    as [HI1 Hsl].
  intros Hk. rewrite (IH st1 st' HI1 Hk). lia.
Qed.

Lemma length_all_cells g :
  length (all_cells g) =
  (Z.to_nat (Graph.width g) * Z.to_nat (Graph.height g))%nat.
Proof.
  unfold all_cells, range.
  rewrite <- (length_seqZ 0 (Graph.width g)).
  induction (seqZ 0 (Graph.width g)) as [|x l IH]; [done|].
  rewrite bind_cons, length_app, length_fmap, length_seqZ. simpl.
  f_equal. exact IH.
Qed.

(** X14: the [while] loop makes at most as many turns as the grid has
    nodes before it returns.  Each turn takes one tuple from the frontier
    and a node is put there at most once during a search, so the nodes
    registered in [open_set_dict] are the turns made plus the tuples that
    wait; the closed set grows by at most one node a turn. *)
Theorem loop_turns_bounded (alg : algorithm) (idf : cell → Z) (g : Graph.t)
    (start end_ : cell) (avoid_water : bool) (k : nat) (st : state)
    (Hwf : well_formed g) (Hstart : in_bounds g start = true)
    (Hids : distinct_ids idf g)
    (Hreach : after alg idf end_ avoid_water k (initial alg idf end_ g start)
              = Some st) :
  (k ≤ Z.to_nat (Graph.width g) * Z.to_nat (Graph.height g))%nat ∧
  size (open_set_dict st) = (k + length (open_set st))%nat ∧
  (size (open_set_dict st) ≤
     Z.to_nat (Graph.width g) * Z.to_nat (Graph.height g))%nat ∧
  is_Some (loop alg idf end_ avoid_water
             (S (Z.to_nat (Graph.width g) * Z.to_nat (Graph.height g)) - k) st).
Proof.
  destruct (initial_inv alg idf end_ g start Hwf Hstart) as [HI0 Hs0].
  pose proof (after_inv alg idf end_ avoid_water g start Hids k _ _ HI0 Hreach)
    as HI.
  pose proof (after_slack alg idf end_ avoid_water g start Hids k _ _ HI0 Hreach)
    as Hsl.
  pose proof (slack_bound idf end_ g start Hids st HI) as Hb.
  rewrite length_all_cells in Hb. rewrite Hs0 in Hsl.
  destruct (frontier_nodup alg idf g start end_ avoid_water k st
              Hwf Hstart Hids Hreach) as [_ Hnd].
  assert (Hle : (length (open_set st) ≤ size (open_set_dict st))%nat).
  { rewrite <- (length_fmap (fun e : entry => e.1.2) (open_set st)).
    rewrite <- (size_list_to_set (C := gset Z)) by done.
    rewrite <- (size_dom (D := gset Z)).
    apply subseteq_size. intros i Hi. apply elem_of_list_to_set in Hi.
    apply list_elem_of_fmap in Hi as ([[k' i'] c] & Heq & Hin).
    simpl in Heq. subst i.
    destruct (inv_open _ _ _ _ _ HI _ _ _ Hin) as (_ & _ & Hd & _).
    by apply elem_of_dom. }
  assert (Hsz : (size (open_set_dict st) ≤ length (all_cells g))%nat).
  { rewrite <- (length_fmap idf (all_cells g)).
    rewrite <- (size_list_to_set (C := gset Z)) by done.
    rewrite <- (size_dom (D := gset Z)).
    apply subseteq_size. intros i [c Hd]%elem_of_dom.
    destruct (inv_dict _ _ _ _ _ HI _ _ Hd) as [Hc ->].
    apply elem_of_list_to_set, list_elem_of_fmap_2.
    by apply elem_of_all_cells. }
  rewrite length_all_cells in Hsz.
  unfold slack in *.
  split; [lia|]. split; [lia|]. split; [lia|].
  destruct (loop_run alg idf end_ avoid_water g start Hids
              (S (Z.to_nat (Graph.width g) * Z.to_nat (Graph.height g)) - k) st HI)
    as (path & st' & k' & -> & _); [|done].
  rewrite length_all_cells. unfold slack. lia.
Qed.

Lemma loop_turns_bounded_witness :
  match after AStar id_up (1, 2) true 2 (initial AStar id_up (1, 2) grid_3x3 (1, 0))
  with
  | Some st => size (open_set_dict st) = (2 + length (open_set st))%nat
  | None => False
  end.
Proof.
  assert (Hwf : well_formed grid_3x3).
  { apply (bool_decide_unpack (well_formed _)). by vm_compute. }
  assert (Hids : distinct_ids id_up grid_3x3).
  { apply (bool_decide_unpack (distinct_ids _ _)). by vm_compute. }
  destruct (after AStar id_up (1, 2) true 2
              (initial AStar id_up (1, 2) grid_3x3 (1, 0)))
    as [st|] eqn:Hreach; [|vm_compute in Hreach; discriminate Hreach].
  exact (proj1 (proj2 (loop_turns_bounded AStar id_up grid_3x3 (1, 0) (1, 2)
                         true 2 st Hwf eq_refl Hids Hreach))).
Defined.

(** ** [reconstruct_path] on its own *)

Lemma ancestor_add g a : ∀ b c,
  ancestor g (a + b) c = ancestor g a c ≫= ancestor g b.
Proof.
  induction a as [|a IH]; intros b c; simpl; [done|].
  destruct (Node.parent (deref g c)) as [p|]; simpl; [apply IH|done].
Qed.

Lemma ancestor_cycle g j c :
  ancestor g (S j) c = Some c → ∀ n, is_Some (ancestor g n c).
Proof.
  intros Hcyc n. induction (lt_wf n) as [n _ IH].
  destruct (decide (n ≤ j)%nat) as [Hle|Hgt].
  - replace (S j) with (n + (S j - n))%nat in Hcyc by lia.
    rewrite ancestor_add in Hcyc.
    destruct (ancestor g n c); [done|discriminate Hcyc].
  - replace n with (S j + (n - S j))%nat by lia.
    rewrite ancestor_add, Hcyc. simpl. apply IH. lia.
Qed.

Lemma chain_ancestor g c l :
  chain g c l →
  ancestor g (length l) c = None ∧
  ∀ i, (i < length l)%nat → l !! i = ancestor g i c.
Proof.
  induction 1 as [c Hp|c p l Hp _ [IH1 IH2]]; simpl.
  - rewrite Hp. split; [done|]. intros [|i] Hi; [done|simpl in Hi; lia].
  - rewrite Hp. simpl. split; [done|].
    intros [|i] Hi; simpl; [done|]. rewrite Hp. simpl. apply IH2. lia.
Qed.

Lemma reconstruct_loop_length g fuel : ∀ acc c l,
  reconstruct_loop fuel g acc (Some c) = Some l →
  (length l ≤ length acc + fuel)%nat.
Proof.
  induction fuel as [|fuel IH]; intros acc c l; simpl; [done|].
  destruct (Node.parent (deref g c)) as [p|].
  - intros H%IH. rewrite length_app in H. simpl in H. lia.
  - destruct fuel; simpl; intros [= <-]; rewrite length_app; simpl; lia.
Qed.

Lemma reconstruct_path_chain fuel g c path :
  reconstruct_path fuel g c = Some path →
  chain g c (reverse path) ∧ (length path ≤ fuel)%nat.
Proof.
  unfold reconstruct_path.
  destruct (reconstruct_loop fuel g [] (Some c)) as [l|] eqn:Hl; [|done].
  intros [= <-].
  pose proof (reconstruct_loop_length _ _ _ _ _ Hl) as Hlen.
  apply reconstruct_loop_chain in Hl as (l' & -> & Hch). simpl in *.
  by rewrite length_reverse, reverse_involutive.
Qed.



(** X16: on parent links that lead back to the node, [reconstruct_path]
    does not return: its loop has no exit but a missing parent. *)
Theorem reconstruct_path_needs_acyclic_parents (fuel : nat) (g : Graph.t)
    (c : cell) (j : nat)
    (Hcyc : ancestor g (S j) c = Some c) :
  reconstruct_path fuel g c = None.
Proof.
  destruct (reconstruct_path fuel g c) as [path|] eqn:Hret; [|done].
  destruct (reconstruct_path_chain _ _ _ _ Hret) as [Hch _].
  destruct (chain_ancestor _ _ _ Hch) as [Hnone _].
  destruct (ancestor_cycle g j c Hcyc (length (reverse path))) as [a Ha].
  congruence.
Qed.

Lemma reconstruct_path_needs_acyclic_parents_witness :
  reconstruct_path 5
    (update (Graph__init__ 1 1) (0, 0) (Node.set_parent (Some (0, 0))))
    (0, 0) = None.
Proof.
  apply (reconstruct_path_needs_acyclic_parents 5 _ (0, 0) 0). reflexivity.
Defined.

(** ** Properties of the grid a search leaves *)

Lemma relax_fold_graph_invariant (P : Graph.t → Prop) alg idf end_ g0 start
    (Hids : distinct_ids idf g0) current
    (Hstep : ∀ st n, Inv idf end_ g0 start st → in_bounds g0 n = true →
       P (graph st) → P (graph (relax alg idf end_ current st n))) ns : ∀ st,
  Inv idf end_ g0 start st → current ∈ closed_set st →
  (∀ n, n ∈ ns → in_bounds g0 n = true ∧ Node.walkable (deref g0 n) = true) →
  P (graph st) → P (graph (foldl (relax alg idf end_ current) st ns)).
Proof.
  induction ns as [|n ns IH]; intros st HI Hcur Hns HP; simpl; [done|].
  destruct (Hns n) as [Hb Hw]; [apply list_elem_of_here|].
  destruct (relax_inv alg idf end_ g0 start Hids current st n HI Hcur Hb Hw)
    as (HI' & Hcl & _).
  apply IH; [done|by rewrite Hcl| |by apply Hstep].
  intros m Hm. by apply Hns, list_elem_of_further.
Qed.

Lemma iteration_graph_invariant (P : Graph.t → Prop) alg idf end_ avoid_water
    g0 start (Hids : distinct_ids idf g0)
    (Hstep : ∀ st current n, Inv idf end_ g0 start st → in_bounds g0 n = true →
       P (graph st) → P (graph (relax alg idf end_ current st n))) st st' :
  Inv idf end_ g0 start st →
  iteration alg idf end_ avoid_water st = Next st' →
  P (graph st) → P (graph st').
Proof.
  intros HI. unfold iteration.
  destruct (heappop (open_set st)) as [[[[k i] c] rest]|] eqn:Hpop; [|done].
  pose proof (close_inv idf end_ g0 start st k i c rest HI Hpop) as HI1.
  pose proof (inv_wf _ _ _ _ _ HI) as Hwfg.
  rewrite (wf_eq _ c end_ Hwfg), (wf_coords _ c Hwfg).
  destruct (bool_decide (c = end_)) eqn:Hend; [done|].
  apply bool_decide_eq_false in Hend. specialize (HI1 Hend).
  destruct (bool_decide (c ∈ closed_set st)); [by intros [= <-]|].
  intros [= <-] HP.
  apply (relax_fold_graph_invariant P alg idf end_ g0 start Hids c
           (fun st n => Hstep st c n)); try done.
  - apply elem_of_union. left. by apply elem_of_singleton.
  - intros n Hn. by apply (neighbors_in_grid idf end_ g0 start st c avoid_water).
Qed.

(** A property of the grid that holds when the loop is entered and that
    every relaxation keeps holds of the grid a search returns. *)
Lemma search_graph_invariant (P : Graph.t → Prop) alg idf end_ avoid_water
    g0 start
    (Hwf : well_formed g0) (Hstart : in_bounds g0 start = true)
    (Hids : distinct_ids idf g0) :
  P (graph (initial alg idf end_ g0 start)) →
  (∀ st current n, Inv idf end_ g0 start st → in_bounds g0 n = true →
     P (graph st) → P (graph (relax alg idf end_ current st n))) →
  ∀ path closed g',
    search alg idf end_ avoid_water g0 start = Some (path, closed, g') → P g'.
Proof.
  intros Hinit Hstep path closed g'. unfold search.
  destruct (initial_inv alg idf end_ g0 start Hwf Hstart) as [HI _].
  revert HI Hinit. generalize (initial alg idf end_ g0 start).
  induction (fuel_of g0) as [|fuel IH]; intros st HI HP; simpl; [done|].
  destruct (iteration alg idf end_ avoid_water st) as [st1|c st1|st1] eqn:Hit.
  - apply iteration_exhausted in Hit as [-> _]. by intros [= _ _ <-].
  - apply (iteration_found alg idf end_ avoid_water g0 start) in Hit
      as (_ & Hg & _); [|done].
    destruct (reconstruct_path _ _ _); [|done]. simpl. intros [= _ _ <-].
    by rewrite Hg.
  - destruct (iteration_inv alg idf end_ avoid_water g0 start Hids st st1 HI Hit)
      as [HI1 _].
    apply IH; [done|].
    by apply (iteration_graph_invariant P alg idf end_ avoid_water g0 start
                Hids Hstep st st1).
Qed.

Lemma heuristic_coords a a' b b' :
  Node.coords a = Node.coords a' → Node.coords b = Node.coords b' →
  heuristic a b = heuristic a' b'.
Proof. intros [= Ha1 Ha2] [= Hb1 Hb2]. unfold heuristic. congruence. Qed.

Lemma heuristic_wf g g' a b :
  well_formed g → well_formed g' →
  heuristic (deref g a) (deref g b) = heuristic (deref g' a) (deref g' b).
Proof. intros H H'. apply heuristic_coords; by rewrite !wf_coords. Qed.

(** X17: [h_cost] in the grid a search returns.  [dijkstra] leaves it zero
    on every node; [a_star] leaves on every node that was given a cost the
    value of [heuristic] for that node and the end node, and zero on the
    others. *)
Theorem h_cost_after_search (alg : algorithm) (idf : cell → Z)
    (g : Graph.t) (start end_ : cell) (avoid_water : bool)
    (path : list cell) (closed : gset cell) (g' : Graph.t)
    (Hwf : well_formed g) (Hstart : in_bounds g start = true)
    (Hids : distinct_ids idf g)
    (Hrun : search alg idf end_ avoid_water g start = Some (path, closed, g')) :
  h_cost_spec alg end_ g'.
Proof.
  revert path closed g' Hrun.
  apply (search_graph_invariant (fun g' => well_formed g' ∧ h_cost_spec alg end_ g'));
    try done.
  - unfold initial. rewrite (reset_nodes_erase g Hwf).
    set (g1 := update (erase g) start (Node.set_g_cost (Fin 0 0))).
    assert (Hwf1 : well_formed g1).
    { apply wf_update; [by intros []|]. by apply well_formed_erase. }
    assert (Hs0 : nodes_at (erase g) start = Some (deref (erase g) start)).
    { apply wf_deref; [by apply well_formed_erase|].
      by rewrite (erase_in_bounds (erase g) g) by apply erase_idemp. }
    assert (He : ∀ n, Node.h_cost (deref (erase g) n) = Sqrt 0 ∧
                      Node.g_cost (deref (erase g) n) = Inf).
    { intros n. unfold deref. rewrite nodes_at_erase.
      by destruct (nodes_at g n). }
    assert (H1 : ∀ n, Node.h_cost (deref g1 n) = Sqrt 0 ∧
                      Node.g_cost (deref g1 n) =
                        if decide (n = start) then Fin 0 0 else Inf).
    { intros n. unfold g1. case_decide as Hn.
      - subst n. rewrite (deref_update_eq _ _ _ _ Hs0). simpl. split; [|done].
        apply He.
      - rewrite deref_update_ne by done. apply He. }
    destruct alg; simpl.
    + split; [done|]. intros c. apply H1.
    + set (h := heuristic (deref g1 start) (deref g1 end_)).
      assert (Hs1 : nodes_at g1 start = Some (deref g1 start)).
      { unfold deref, g1. rewrite nodes_at_update, decide_True by done.
        by rewrite Hs0. }
      assert (Hwf2 : well_formed (update g1 start (Node.set_h_cost h))).
      { apply wf_update; [by intros []|done]. }
      split; [done|]. intros c.
      rewrite (heuristic_wf _ g1 c end_ Hwf2 Hwf1).
      destruct (decide (c = start)) as [->|Hc].
      * rewrite (deref_update_eq _ _ _ _ Hs1). simpl.
        destruct (H1 start) as [_ Hgs]. rewrite decide_True in Hgs by done.
        by rewrite Hgs.
      * rewrite deref_update_ne by done. destruct (H1 c) as [-> Hgc].
        rewrite decide_False in Hgc by done. by rewrite Hgc.
  - intros st current n HI Hn [Hwfg HP].
    destruct (relax_graph alg idf end_ current st n) as [->|[Hlt ->]]; [done|].
    set (t := cost_add _ _) in *. set (F := improve _ _ _ _ _ _).
    assert (Hwf' : well_formed (update (graph st) n F)).
    { apply wf_update; [|done]. intros m. apply improve_props. }
    split; [done|]. intros c.
    assert (Hnb : in_bounds (graph st) n = true).
    { by rewrite (inv_in_bounds idf end_ g start st n HI). }
    pose proof (wf_deref _ _ Hwfg Hnb) as Hsome.
    specialize (HP c).
    destruct alg.
    + destruct (decide (c = n)) as [->|Hc].
      * by rewrite (deref_update_eq _ _ _ _ Hsome).
      * by rewrite deref_update_ne.
    + rewrite (heuristic_wf _ (graph st) c end_ Hwf' Hwfg).
      destruct (decide (c = n)) as [->|Hc].
      * rewrite (deref_update_eq _ _ _ _ Hsome).
        destruct (improve_props AStar end_ (graph st) current n t
                    (deref (graph st) n)) as (_ & _ & _ & Hg).
        fold F in Hg. rewrite Hg.
        rewrite decide_False by (by apply cost_ltb_fin in Hlt).
        unfold F, improve. simpl. apply heuristic_wf; [|done].
        by repeat (apply wf_update; [by intros []|]).
      * by rewrite deref_update_ne.
Qed.

Lemma h_cost_after_search_witness :
  match search AStar id_up (1, 2) true grid_3x3 (1, 0) with
  | Some (path, closed, g') => h_cost_spec AStar (1, 2) g'
  | None => False
  end.
Proof.
  assert (Hwf : well_formed grid_3x3).
  { apply (bool_decide_unpack (well_formed _)). by vm_compute. }
  assert (Hids : distinct_ids id_up grid_3x3).
  { apply (bool_decide_unpack (distinct_ids _ _)). by vm_compute. }
  destruct (search AStar id_up (1, 2) true grid_3x3 (1, 0))
    as [[[path closed] g']|] eqn:Hrun; [|vm_compute in Hrun; discriminate Hrun].
  exact (h_cost_after_search AStar id_up grid_3x3 (1, 0) (1, 2) true
           path closed g' Hwf eq_refl Hids Hrun).
Defined.

(** ** The frontier in the order of the real numbers *)



(** ** Code beside the searches *)

Lemma safe_group_neighbors g node a c :
  c ∈ safe_group g node → c ∈ get_neighbors g node a.
Proof.
  intros Hc. rewrite get_neighbors_filter.
  destruct (neighbors_spec_cases g node a) as [->| ->]; [done|].
  apply elem_of_app. by left.
Qed.

(** X19: [has_alternative_path_without_water] looks at the four nodes
    beside [current] in its row and column and at nothing else.  It
    answers [True] exactly when [target] is not water and one of those
    nodes is among the neighbours of [current], is not water and is not
    [target]; how [target] lies to [current] plays no part. *)
Theorem has_alternative_path_without_water_spec (g : Graph.t)
    (current target : Node.t) :
  has_alternative_path_without_water g current target = true ↔
  Node.terrain_type target ≠ "water" ∧
  ∃ c, c ∈ get_neighbors g current true ∧
       orthogonal (Node.coords current) c ∧
       Node.terrain_type (deref g c) ≠ "water" ∧
       Node.__eq__ (deref g c) target = false.
Proof.
  unfold has_alternative_path_without_water.
  destruct (String.eqb_spec (Node.terrain_type target) "water") as [Hw|Hw].
  { split; [done|]. by intros [? _]. }
  rewrite existsb_exists. split.
  - intros (d & Hd & Hf). split; [done|].
    apply andb_true_iff in Hf as [Hb Hf].
    apply andb_true_iff in Hf as [Hf He].
    apply andb_true_iff in Hf as [Hwalk Hnw].
    apply negb_true_iff in Hnw, He.
    exists (Node.x current + d.1, Node.y current + d.2).
    split; [|split; [|split; [by apply String.eqb_neq|done]]].
    + apply safe_group_neighbors. unfold safe_group.
      apply list_elem_of_filter. split; [done|].
      apply list_elem_of_filter. split; [unfold candidate; by rewrite Hb, Hwalk|].
      unfold surrounding. apply list_elem_of_fmap. exists d. split; [done|].
      unfold directions. simpl in Hd. rewrite !elem_of_cons.
      destruct Hd as [<-|[<-|[<-|[<-|[]]]]]; auto 10.
    + unfold orthogonal, Node.coords. simpl in *.
      destruct Hd as [<-|[<-|[<-|[<-|[]]]]]; simpl; lia.
  - intros [_ (c & Hc & Ho & Hnw & He)].
    rewrite get_neighbors_filter in Hc.
    apply neighbors_spec_elem in Hc as [Hs Hcand].
    apply andb_true_iff in Hcand as [Hb Hwalk].
    unfold surrounding in Hs. apply list_elem_of_fmap in Hs as (d & -> & Hd).
    exists d. split.
    + unfold orthogonal, Node.coords in Ho. simpl in Ho.
      unfold directions in Hd. rewrite !elem_of_cons, elem_of_nil in Hd.
      simpl.
      destruct Hd as [->|[->|[->|[->|[->|[->|[->|[->|[]]]]]]]]];
        simpl in Ho; auto; lia.
    + simpl. rewrite Hb, Hwalk, He. simpl.
      apply String.eqb_neq in Hnw. by rewrite Hnw.
Qed.

(** X20: what [compare_algorithms] passes on to its two plots is what
    [dijkstra] and [a_star] return on the grid as it is given: the
    [reset_nodes] before each run and the state the first run leaves
    change nothing, and both runs see the same map. *)
Theorem compare_algorithms_spec (idf : cell → Z) (g : Graph.t)
    (start end_ : cell)
    (Hwf : well_formed g) (Hstart : in_bounds g start = true)
    (Hids : distinct_ids idf g) :
  ∃ path_dijkstra visited_dijkstra g1 path_astar visited_astar g2,
    dijkstra idf g start end_ true =
      Some (path_dijkstra, visited_dijkstra, g1) ∧
    a_star idf g start end_ true = Some (path_astar, visited_astar, g2) ∧
    compare_algorithms idf g start end_ =
      Some (path_dijkstra, path_astar, visited_dijkstra, visited_astar, g2) ∧
    erase g2 = erase g.
Proof.
  destruct (search_run Dijkstra idf end_ true g start Hwf Hstart Hids)
    as (p1 & st1 & k1 & Hd & HI1 & _).
  destruct (search_run AStar idf end_ true g start Hwf Hstart Hids)
    as (p2 & st2 & k2 & Ha & HI2 & _).
  exists p1, (closed_set st1), (graph st1), p2, (closed_set st2), (graph st2).
  split; [done|]. split; [done|]. split; [|apply HI2].
  unfold compare_algorithms, dijkstra, a_star.
  rewrite (reset_nodes_erase g Hwf).
  rewrite (search_erase Dijkstra idf end_ true g (erase g) start Hwf
             (well_formed_erase g Hwf) (erase_idemp g)).
  rewrite Hd. simpl.
  rewrite (reset_nodes_erase (graph st1)) by apply HI1.
  rewrite (search_erase AStar idf end_ true g (erase (graph st1)) start Hwf).
  - by rewrite Ha.
  - apply well_formed_erase, HI1.
  - rewrite erase_idemp. apply HI1.
Qed.

Lemma compare_algorithms_spec_witness :
  ∃ path_dijkstra visited_dijkstra g1 path_astar visited_astar g2,
    dijkstra id_up grid_3x3 (1, 0) (1, 2) true =
      Some (path_dijkstra, visited_dijkstra, g1) ∧
    a_star id_up grid_3x3 (1, 0) (1, 2) true =
      Some (path_astar, visited_astar, g2) ∧
    compare_algorithms id_up grid_3x3 (1, 0) (1, 2) =
      Some (path_dijkstra, path_astar, visited_dijkstra, visited_astar, g2) ∧
    erase g2 = erase grid_3x3.
Proof.
  apply (compare_algorithms_spec id_up grid_3x3 (1, 0) (1, 2)).
  - apply (bool_decide_unpack (well_formed _)). by vm_compute.
  - reflexivity.
  - apply (bool_decide_unpack (distinct_ids _ _)). by vm_compute.
Defined.

(** ** The estimate of [a_star] *)

Lemma road_cost s :
  (lower s = "road" → Terrain.get_terrain_cost s = Fin 7 0) ∧
  (lower s ≠ "road" → lower s ≠ "water" →
   ∃ t, 10 ≤ t ∧ Terrain.get_terrain_cost s = Fin t 0).
Proof.
  unfold Terrain.get_terrain_cost, Terrain.get_terrain.
  rewrite catalog_lookup.
  split.
  - intros ->. done.
  - intros Hr Hw. repeat case_decide; simpl; try contradiction.
    all: eexists; (split; [|reflexivity]).
    all: lia.
Qed.

Lemma adjacent_cases c d :
  adjacent c d →
  (Z.abs (c.1 - d.1) = 1 ∧ Z.abs (c.2 - d.2) = 0) ∨
  (Z.abs (c.1 - d.1) = 0 ∧ Z.abs (c.2 - d.2) = 1) ∨
  (Z.abs (c.1 - d.1) = 1 ∧ Z.abs (c.2 - d.2) = 1).
Proof. unfold adjacent. lia. Qed.

(** X21: [heuristic] is the straight-line distance between the two
    positions; it does not depend on the order of its arguments and is zero
    exactly for nodes that [==] takes for equal. *)
Theorem heuristic_is_euclidean (n m : Node.t) :
  root_R (heuristic n m) =
    sqrt ((IZR (Node.x n) - IZR (Node.x m)) * (IZR (Node.x n) - IZR (Node.x m)) +
          (IZR (Node.y n) - IZR (Node.y m)) * (IZR (Node.y n) - IZR (Node.y m)))
  ∧ heuristic n m = heuristic m n
  ∧ (heuristic n m = Sqrt 0 ↔ Node.__eq__ n m = true).
Proof.
  unfold heuristic, root_R, Node.__eq__. simpl. split; [|split].
  - f_equal. rewrite <- !minus_IZR, <- !mult_IZR, <- plus_IZR. f_equal. lia.
  - f_equal. lia.
  - rewrite andb_true_iff, !Z.eqb_eq. split.
    + intros [= H]. nia.
    + intros [-> ->]. f_equal. lia.
Qed.

Ltac eval_IZR :=
  repeat match goal with
         | |- context [IZR ?z] =>
             let z' := eval vm_compute in z in
             progress change (IZR z) with (IZR z')
         end.

(** X22: the estimate against the cost of one step.  For a step to a node
    next to it, the cost of the step is at least the straight-line
    distance on every walkable terrain but road; a step onto road costs
    less than the distance it covers, so the estimate of [a_star] can
    exceed the cost that is left. *)
Theorem heuristic_and_step_cost (n m : Node.t)
    (Hadj : adjacent (Node.coords n) (Node.coords m)) :
  (lower (Node.terrain_type m) = "road" →
   ∃ a b, get_terrain_cost n m = Fin a b ∧
          (cost_R a b < root_R (heuristic n m))%R) ∧
  (lower (Node.terrain_type m) ≠ "road" →
   lower (Node.terrain_type m) ≠ "water" →
   ∃ a b, get_terrain_cost n m = Fin a b ∧
          (root_R (heuristic n m) <= cost_R a b)%R).
Proof.
  destruct (road_cost (Node.terrain_type m)) as [Hroad Hother].
  pose proof sqrt2_pos as Hs2. pose proof sqrt_1 as Hs1.
  unfold get_terrain_cost, heuristic, root_R, cost_R. simpl.
  apply adjacent_cases in Hadj. unfold Node.coords in Hadj. simpl in Hadj.
  split.
  - intros Hr. rewrite (Hroad Hr).
    destruct Hadj as [[-> ->]|[[-> ->]|[-> ->]]]; simpl;
      eexists _, _; (split; [reflexivity|]); simpl; eval_IZR;
      rewrite ?Hs1; lra.
  - intros Hr Hw. destruct (Hother Hr Hw) as (t & Ht & ->).
    apply IZR_le in Ht.
    destruct Hadj as [[-> ->]|[[-> ->]|[-> ->]]]; simpl;
      eexists _, _; (split; [reflexivity|]); simpl; eval_IZR;
      rewrite ?Hs1; nra.
Qed.

Lemma heuristic_and_step_cost_witness :
  ∃ a b,
    get_terrain_cost (Node.__init__ 0 0)
      (Node.set_terrain_type "road" (Node.__init__ 0 1)) = Fin a b ∧
    (cost_R a b <
     root_R (heuristic (Node.__init__ 0 0)
               (Node.set_terrain_type "road" (Node.__init__ 0 1))))%R.
Proof.
  apply (heuristic_and_step_cost (Node.__init__ 0 0)
           (Node.set_terrain_type "road" (Node.__init__ 0 1))).
  - reflexivity.
  - reflexivity.
Defined.

(** ** Closed nodes *)

Lemma cost_ltb_asym x y : cost_ltb x y = true → cost_ltb y x = false.
Proof.
  intros H. destruct (cost_ltb y x) eqn:H'; [|done].
  pose proof (cost_ltb_trans _ _ _ H H') as Hxx.
  by rewrite cost_ltb_irrefl in Hxx.
Qed.

Section Final.
Variable alg : algorithm.
Variable idf : cell → Z.
Variable end_ : cell.
Variable avoid_water : bool.
Variable g0 : Graph.t.
Variable start : cell.
Hypothesis Hids : distinct_ids idf g0.

Lemma settled_refl st : settled st st.
Proof. split; [done|]. split; [done|]. by left. Qed.

Lemma settled_trans st1 st2 st3 :
  settled st1 st2 → settled st2 st3 → settled st1 st3.
Proof.
  intros (Hc & Hd & Hg) (Hc' & Hd' & Hg'). split; [by etrans|]. split.
  - intros c Hin. rewrite Hd' by (by apply Hc). by apply Hd.
  - intros c. destruct (Hg c) as [Heq|Hlt], (Hg' c) as [Heq'|Hlt'].
    + left. congruence.
    + right. by rewrite <- Heq.
    + right. by rewrite Heq'.
    + right. by eapply cost_ltb_trans.
Qed.

Lemma relax_settled current st n :
  Inv idf end_ g0 start st → in_bounds g0 n = true →
  settled st (relax alg idf end_ current st n) ∧
  closed_set (relax alg idf end_ current st n) = closed_set st.
Proof.
  intros HI Hn.
  pose proof (inv_wf _ _ _ _ _ HI) as Hwfg.
  destruct (relax_cases alg idf end_ current st n Hwfg
              (fun m => inv_dict_self idf end_ g0 start Hids st n m HI Hn))
    as [[-> _]|(Hncl & Hlt & Hpush)]; [split; [apply settled_refl|done]|].
  set (t := cost_add _ _) in *. set (F := improve _ _ _ _ _ _) in *.
  assert (Hnb : in_bounds (graph st) n = true)
    by (by rewrite (inv_in_bounds idf end_ g0 start st n HI)).
  assert (Hgn : Node.g_cost (deref (update (graph st) n F) n) = t).
  { rewrite (deref_update_eq _ _ _ _ (wf_deref _ _ Hwfg Hnb)).
    apply improve_props. }
  assert (Hset : ∀ o d,
    settled st (State (update (graph st) n F) o d (closed_set st))).
  { intros o d. split; [done|]. split; simpl.
    - intros c Hc. apply deref_update_ne. by intros ->.
    - intros c. destruct (decide (c = n)) as [->|Hc].
      + right. by rewrite Hgn.
      + left. by rewrite deref_update_ne. }
  by destruct Hpush as [[_ ->]|[_ ->]].
Qed.

Lemma relax_fold_settled current ns : ∀ st,
  Inv idf end_ g0 start st → current ∈ closed_set st →
  (∀ n, n ∈ ns → in_bounds g0 n = true ∧ Node.walkable (deref g0 n) = true) →
  settled st (foldl (relax alg idf end_ current) st ns) ∧
  closed_set (foldl (relax alg idf end_ current) st ns) = closed_set st.
Proof.
  induction ns as [|n ns IH]; intros st HI Hcur Hns; simpl.
  { split; [apply settled_refl|done]. }
  destruct (Hns n) as [Hb Hw]; [apply list_elem_of_here|].
  destruct (relax_inv alg idf end_ g0 start Hids current st n HI Hcur Hb Hw)
    as (HI' & Hcl & _).
  destruct (relax_settled current st n HI Hb) as [Hs _].
  destruct (IH (relax alg idf end_ current st n)) as [Hs' Hcl'].
  - done.
  - by rewrite Hcl.
  - intros m Hm. by apply Hns, list_elem_of_further.
  - split; [by eapply settled_trans|congruence].
Qed.

Lemma iteration_settled st st' :
  Inv idf end_ g0 start st →
  iteration alg idf end_ avoid_water st = Next st' → settled st st'.
Proof.
  intros HI. unfold iteration.
  destruct (heappop (open_set st)) as [[[[k i] c] rest]|] eqn:Hpop; [|done].
  pose proof (close_inv idf end_ g0 start st k i c rest HI Hpop) as HI1.
  pose proof (inv_wf _ _ _ _ _ HI) as Hwfg.
  rewrite (wf_eq _ c end_ Hwfg), (wf_coords _ c Hwfg).
  destruct (bool_decide (c = end_)) eqn:Hend; [done|].
  apply bool_decide_eq_false in Hend. specialize (HI1 Hend).
  destruct (bool_decide (c ∈ closed_set st)).
  { intros [= <-]. split; [done|]. split; [done|]. by left. }
  intros [= <-].
  set (st1 := State (graph st) rest (open_set_dict st) ({[c]} ∪ closed_set st))
    in *.
  destruct (relax_fold_settled c
              (get_neighbors (graph st) (deref (graph st) c) avoid_water) st1)
    as [(Hc & Hd & Hg) Hcl]; try done.
  - apply elem_of_union. left. by apply elem_of_singleton.
  - intros n Hn. by apply (neighbors_in_grid idf end_ g0 start st c avoid_water).
  - split; [|split].
    + rewrite Hcl. simpl. apply union_subseteq_r.
    + intros d Hin. apply Hd. simpl. apply elem_of_union. by right.
    + done.
Qed.

Lemma after_settled j : ∀ st st',
  Inv idf end_ g0 start st →
  after alg idf end_ avoid_water j st = Some st' → settled st st'.
Proof.
  induction j as [|j IH]; intros st st' HI; simpl.
  { intros [= <-]. apply settled_refl. }
  destruct (iteration alg idf end_ avoid_water st) as [| |st1] eqn:Hit;
    [done|done|].
  destruct (iteration_inv alg idf end_ avoid_water g0 start Hids st st1 HI Hit)
    as [HI1 _].
  intros Hj. eapply settled_trans; [by apply iteration_settled|by apply IH].
Qed.
End Final.

(** X23: a node that has entered the closed set stays there, and its
    [g_cost], [h_cost] and [parent] are never written again; the [g_cost]
    of any node only goes down while a search runs. *)
Theorem closed_nodes_are_final (alg : algorithm) (idf : cell → Z)
    (g : Graph.t) (start end_ : cell) (avoid_water : bool) (k j : nat)
    (st st' : state)
    (Hwf : well_formed g) (Hstart : in_bounds g start = true)
    (Hids : distinct_ids idf g)
    (Hreach : after alg idf end_ avoid_water k (initial alg idf end_ g start)
              = Some st)
    (Hlater : after alg idf end_ avoid_water j st = Some st') :
  closed_set st ⊆ closed_set st' ∧
  (∀ c, c ∈ closed_set st → deref (graph st') c = deref (graph st) c) ∧
  (∀ c, Node.g_cost (deref (graph st') c) = Node.g_cost (deref (graph st) c) ∨
        cost_ltb (Node.g_cost (deref (graph st') c))
                 (Node.g_cost (deref (graph st) c)) = true).
Proof.
  destruct (initial_inv alg idf end_ g start Hwf Hstart) as [HI0 _].
  pose proof (after_inv alg idf end_ avoid_water g start Hids k _ _ HI0 Hreach)
    as HI.
  exact (after_settled alg idf end_ avoid_water g start Hids j st st' HI Hlater).
Qed.

Lemma closed_nodes_are_final_witness :
  match after Dijkstra id_up (1, 0) true 1 (initial Dijkstra id_up (1, 0) grid_2x4 (1, 3)),
        after Dijkstra id_up (1, 0) true 3 (initial Dijkstra id_up (1, 0) grid_2x4 (1, 3))
  with
  | Some st, Some st' => closed_set st ⊆ closed_set st'
  | _, _ => False
  end.
Proof.
  assert (Hwf : well_formed grid_2x4).
  { apply (bool_decide_unpack (well_formed _)). by vm_compute. }
  assert (Hids : distinct_ids id_up grid_2x4).
  { apply (bool_decide_unpack (distinct_ids _ _)). by vm_compute. }
  destruct (after Dijkstra id_up (1, 0) true 1
              (initial Dijkstra id_up (1, 0) grid_2x4 (1, 3)))
    as [st|] eqn:Hreach; [|vm_compute in Hreach; discriminate Hreach].
  assert (Hlater : after Dijkstra id_up (1, 0) true 2 st =
                   after Dijkstra id_up (1, 0) true 3
                     (initial Dijkstra id_up (1, 0) grid_2x4 (1, 3))).
  { change 3%nat with (1 + 2)%nat.
    generalize dependent (initial Dijkstra id_up (1, 0) grid_2x4 (1, 3)).
    intros s. simpl. destruct (iteration _ _ _ _ s); try done.
    by intros [= ->]. }
  destruct (after Dijkstra id_up (1, 0) true 3
              (initial Dijkstra id_up (1, 0) grid_2x4 (1, 3)))
    as [st'|] eqn:H3; [|vm_compute in H3; discriminate H3].
  exact (proj1 (closed_nodes_are_final Dijkstra id_up grid_2x4 (1, 3) (1, 0)
                  true 1 2 st st' Hwf eq_refl Hids Hreach Hlater)).
Defined.

(** X24: on a grid whose walkability flags follow the catalog the two
    algorithms agree on whether there is a path, whatever the flag of each
    run: [dijkstra] returns one exactly when [a_star] does, and when they
    return none their closed sets are the same. *)
Theorem algorithms_agree_on_existence (idf : cell → Z) (g : Graph.t)
    (start end_ : cell) (flag_dijkstra flag_astar : bool)
    (path_dijkstra path_astar : list cell)
    (visited_dijkstra visited_astar : gset cell) (g1 g2 : Graph.t)
    (Hwf : well_formed g) (Hstart : in_bounds g start = true)
    (Hids : distinct_ids idf g) (Hcons : consistent g)
    (Hd : dijkstra idf g start end_ flag_dijkstra =
          Some (path_dijkstra, visited_dijkstra, g1))
    (Ha : a_star idf g start end_ flag_astar =
          Some (path_astar, visited_astar, g2)) :
  (path_dijkstra = [] ↔ path_astar = []) ∧
  (path_dijkstra = [] → visited_dijkstra = visited_astar).
Proof.
  unfold dijkstra in Hd. unfold a_star, search in Ha.
  rewrite (consistent_loop _ _ _ flag_astar flag_dijkstra) in Ha
    by (by apply consistent_initial).
  change (search AStar idf end_ flag_dijkstra g start =
          Some (path_astar, visited_astar, g2)) in Ha.
  destruct (search_reachable _ _ _ _ _ _ _ _ _ Hwf Hstart Hids Hcons Hd)
    as [Hd1 Hd2].
  destruct (search_reachable _ _ _ _ _ _ _ _ _ Hwf Hstart Hids Hcons Ha)
    as [Ha1 Ha2].
  assert (Hiff : path_dijkstra = [] ↔ path_astar = []).
  { split; intros ->.
    - destruct path_astar as [|c l]; [done|]. exfalso.
      assert (Hr : reachable g flag_dijkstra start end_) by (by apply Ha1).
      by apply Hd1 in Hr.
    - destruct path_dijkstra as [|c l]; [done|]. exfalso.
      assert (Hr : reachable g flag_dijkstra start end_) by (by apply Hd1).
      by apply Ha1 in Hr. }
  split; [done|]. intros Hp. apply set_eq. intros c.
  rewrite (Hd2 Hp c). symmetry. apply Ha2. by apply Hiff.
Qed.

Lemma algorithms_agree_on_existence_witness :
  match dijkstra id_up grid_2x1 (0, 0) (1, 0) true,
        a_star id_up grid_2x1 (0, 0) (1, 0) false
  with
  | Some (p1, v1, _), Some (p2, v2, _) => p1 = [] ↔ p2 = []
  | _, _ => False
  end.
Proof.
  assert (Hwf : well_formed grid_2x1).
  { apply (bool_decide_unpack (well_formed _)). by vm_compute. }
  assert (Hids : distinct_ids id_up grid_2x1).
  { apply (bool_decide_unpack (distinct_ids _ _)). by vm_compute. }
  assert (Hcons : consistent grid_2x1).
  { apply (bool_decide_unpack (consistent _)). by vm_compute. }
  destruct (dijkstra id_up grid_2x1 (0, 0) (1, 0) true)
    as [[[p1 v1] g1]|] eqn:Hd; [|vm_compute in Hd; discriminate Hd].
  destruct (a_star id_up grid_2x1 (0, 0) (1, 0) false)
    as [[[p2 v2] g2]|] eqn:Ha; [|vm_compute in Ha; discriminate Ha].
  exact (proj1 (algorithms_agree_on_existence id_up grid_2x1 (0, 0) (1, 0)
                  true false p1 p2 v1 v2 g1 g2 Hwf eq_refl Hids Hcons Hd Ha)).
Defined.

(** ** Assigning terrain twice *)

(** X25: a second [set_terrain] at the same position undoes the first:
    the grid is the one the second call alone would have made, whatever the
    first terrain was. *)
Theorem set_terrain_overwrites (g : Graph.t) (x y : Z) (s s' : string) :
  set_terrain (set_terrain g x y s) x y s' = set_terrain g x y s'.
Proof.
  unfold set_terrain at 1. rewrite in_bounds_set_terrain.
  unfold set_terrain.
  destruct (in_bounds g (x, y)) eqn:Hb; [|done].
  apply in_bounds_nonneg in Hb as [Hx Hy]. simpl in Hx, Hy.
  rewrite !update_compose. unfold update. simpl.
  rewrite (proj2 (Z.leb_le 0 x)), (proj2 (Z.leb_le 0 y)) by done. simpl.
  f_equal.
  - rewrite list_alter_alter_eq. apply list_alter_ext; [|done].
    intros col _. simpl. rewrite list_alter_alter_eq.
    apply list_alter_ext; [|done]. by intros [] _.
  - rewrite list_alter_alter_eq. apply list_alter_ext; [|done].
    intros col _. simpl. rewrite list_alter_alter_eq.
    by apply list_alter_ext.
Qed.

(** ** The terrain matrix of the plots *)

Lemma terrain_to_value_lookup k :
  terrain_to_value !! k =
  if decide (k = "road") then Some 5
  else if decide (k = "mountain") then Some 4
  else if decide (k = "water") then Some 3
  else if decide (k = "sand") then Some 2
  else if decide (k = "grass") then Some 1
  else if decide (k = "normal") then Some 0
  else None.
Proof.
  unfold terrain_to_value, terrains. simpl.
  repeat (rewrite lookup_insert; destruct (decide (_ = k)) as [<-|?];
          [done|rewrite decide_False by done]).
  apply lookup_empty.
Qed.

(** X26: what the plots draw for a position of a grid made by
    [Graph(...)] and [set_terrain].  For a terrain name without upper-case
    letters the entry of the terrain matrix is the place in the table of
    the terrain [Terrain.get_terrain] gives for the node; for any name with
    an upper-case letter it is [0], the entry of ['normal'], although
    [Terrain] reads such a name without regard to case. *)
Theorem terrain_map_value_spec (width height : Z)
    (ops : list (Z * Z * string)) (x y : Z)
    (Hx : 0 ≤ x < width) (Hy : 0 ≤ y < height) :
  let g := build width height ops in
  let name := Node.terrain_type (deref g (x, y)) in
  ∃ v, terrain_map_value g (x, y) = Some v ∧
       (lower name = name →
        Some v = terrain_to_value !! TerrainType.name (Terrain.get_terrain name)) ∧
       (lower name ≠ name → v = 0).
Proof.
  intros g name.
  destruct (build_dims width height ops) as [Hw Hh].
  assert (Hb : in_bounds g (x, y) = true).
  { unfold in_bounds, g. rewrite Hw, Hh. simpl.
    rewrite !andb_true_iff, !Z.leb_le, !Z.ltb_lt. lia. }
  assert (Hval : terrain_map_value g (x, y) =
                 Some (default 0 (terrain_to_value !!
                   (if decide (name = "") then "normal" else name)))).
  { unfold terrain_map_value, name, g.
    destruct (build_mirror width height ops (x, y) Hb) as [[-> Hn]| ->]; simpl.
    - rewrite Hn. by rewrite decide_False.
    - done. }
  eexists. split; [exact Hval|]. clear Hval. clearbody name.
  unfold Terrain.get_terrain. rewrite !terrain_to_value_lookup.
  split.
  - intros ->. rewrite catalog_lookup.
    destruct (decide (name = "")) as [Hn|Hn]; [by rewrite Hn|].
    repeat match goal with
           | |- context [decide (name = ?k)] =>
               destruct (decide (name = k)) as [E|E];
               [subst name; vm_compute; reflexivity|clear E]
           end.
    vm_compute. reflexivity.
  - intros Hl.
    destruct (decide (name = "")) as [->|Hn]; [by destruct Hl|].
    repeat (case_decide as Hk; [subst name; by destruct Hl|clear Hk]). done.
Qed.

Lemma terrain_map_value_spec_witness :
  ∃ v, terrain_map_value (build 2 2 [(1, 1, "Water")]) (1, 1) = Some v ∧
       (lower "Water" ≠ "Water" → v = 0).
Proof.
  destruct (terrain_map_value_spec 2 2 [(1, 1, "Water")] 1 1
              ltac:(lia) ltac:(lia)) as (v & Hv & _ & H0).
  exists v. split; [exact Hv|exact H0].
Defined.
